(** * Givi: the prediction client of [frontend/api_integration.js]

    [predictDeliveryTime] asks the Flask backend for an estimate and, when
    the request fails in any way, falls back to the client-side heuristic
    [calculateDeliveryTime].  This development embeds both functions and
    proves the properties the specification states about them.

    JavaScript numbers are IEEE 754 binary64 values.  They are modelled here
    exactly: a finite double is an integer multiple of 2^-1074, so it is
    represented by that integer, and every arithmetic operation computes the
    exact result and then rounds it to the nearest double (ties to even),
    with overflow to an infinity.  The two zeros are identified: the source
    never divides by a zero, never calls [Object.is] and never tests a sign,
    so nothing in it can tell them apart.  Part III proves that the
    multiplication, addition, subtraction and comparisons of this model are
    those of the Standard Library's binary64 floats. *)

From Stdlib Require Import ZArith List String Bool Lia Floats.
From stdpp Require Import base option gmap strings.
Import ListNotations.
Local Open Scope string_scope.
Local Open Scope Z_scope.

(* ===================================================================== *)
(** * Part I.  Definitions *)
(* ===================================================================== *)

(** ** Binary64 numbers *)

Module Number.

(** [Fin k] is the finite double of value [k * 2^-1074]. *)
Inductive num : Type :=
| NaN
| NegInf
| Fin (k : Z)
| PosInf.

(** Exponent of the smallest positive double, negated. *)
Definition quantum : Z := 1074.
(** Number of significant bits. *)
Definition precision : Z := 53.
(** [Fin k] is in range when [k < 2^overflow_exp], i.e. value < 2^1024. *)
Definition overflow_exp : Z := 2098.

(** Number of binary digits of a non-negative integer. *)
Definition bitlen (n : Z) : Z := if n =? 0 then 0 else Z.log2 n + 1.

(** Nearest integer to [n / d], ties to the even one ([0 < d]). *)
Definition rne_div (n d : Z) : Z :=
  let m := n / d in
  let r := n mod d in
  if 2 * r <? d then m
  else if d <? 2 * r then m + 1
  else if Z.even m then m else m + 1.

(** Number of low bits of [n] that do not fit: the value is
    [n * 2^-(1074+c)], it keeps 53 significant bits and nothing below
    2^-1074. *)
Definition drop (c n : Z) : Z := Z.max (bitlen n - precision) c.

(** The integer [round_pos] puts under [Fin], before the range check. *)
Definition rounded (c n : Z) : Z :=
  rne_div n (2 ^ drop c n) * 2 ^ (drop c n - c).

(** The rounded value written at the scale of its argument. *)
Definition nearest (c n : Z) : Z := rne_div n (2 ^ drop c n) * 2 ^ drop c n.

(** Round the non-negative value [n * 2^-(1074+c)] to a double. *)
Definition round_pos (c n : Z) : num :=
  let k := rounded c n in
  if k <? 2 ^ overflow_exp then Fin k else PosInf.

Definition neg (x : num) : num :=
  match x with
  | NaN => NaN
  | NegInf => PosInf
  | Fin k => Fin (- k)
  | PosInf => NegInf
  end.

(** Round the value [n * 2^-(1074+c)] to a double ([0 <= c]). *)
Definition round (c n : Z) : num :=
  if 0 <=? n then round_pos c n else neg (round_pos c (- n)).

(** The double nearest to the integer [i], which is [i] itself below 2^53:
    the integer literals of the source and the item counts [parseInt]
    returns. *)
Definition of_Z (i : Z) : num := round 0 (i * 2 ^ quantum).

(** The double nearest to the decimal literal [a / b] ([0 <= a], [0 < b]):
    the quotient is taken with 65 extra bits, the lowest one recording
    whether the division was inexact, and then rounded. *)
Definition of_decimal (a b : Z) : num :=
  let n := a * 2 ^ (quantum + 64) in
  round 65 (2 * (n / b) + (if n mod b =? 0 then 0 else 1)).

(** JavaScript [x * y]. *)
Definition mul (x y : num) : num :=
  match x, y with
  | NaN, _ | _, NaN => NaN
  | Fin a, Fin b => round quantum (a * b)
  | Fin a, PosInf | PosInf, Fin a =>
      if a =? 0 then NaN else if 0 <? a then PosInf else NegInf
  | Fin a, NegInf | NegInf, Fin a =>
      if a =? 0 then NaN else if 0 <? a then NegInf else PosInf
  | PosInf, PosInf | NegInf, NegInf => PosInf
  | PosInf, NegInf | NegInf, PosInf => NegInf
  end.

(** JavaScript [x + y]. *)
Definition add (x y : num) : num :=
  match x, y with
  | NaN, _ | _, NaN => NaN
  | Fin a, Fin b => round 0 (a + b)
  | PosInf, NegInf | NegInf, PosInf => NaN
  | PosInf, _ | _, PosInf => PosInf
  | NegInf, _ | _, NegInf => NegInf
  end.

(** JavaScript [x - y]. *)
Definition sub (x y : num) : num := add x (neg y).

(** JavaScript [x < y]: false as soon as one side is NaN. *)
Definition ltb (x y : num) : bool :=
  match x, y with
  | NaN, _ | _, NaN => false
  | _, NegInf => false
  | NegInf, _ => true
  | PosInf, _ => false
  | _, PosInf => true
  | Fin a, Fin b => a <? b
  end.

(** JavaScript [x <= y]. *)
Definition leb (x y : num) : bool :=
  match x, y with
  | NaN, _ | _, NaN => false
  | NegInf, _ => true
  | _, NegInf => false
  | _, PosInf => true
  | PosInf, _ => false
  | Fin a, Fin b => a <=? b
  end.

(** JavaScript [x > y] is [y < x]. *)
Definition gtb (x y : num) : bool := ltb y x.

(** [SameValueZero] on numbers, the equality [Array.prototype.includes]
    uses: NaN equals itself. *)
Definition same_value_zero (x y : num) : bool :=
  match x, y with
  | NaN, NaN | NegInf, NegInf | PosInf, PosInf => true
  | Fin a, Fin b => a =? b
  | _, _ => false
  end.

(** [Math.round]: the nearest integer, ties toward +infinity. *)
Definition Math_round (x : num) : num :=
  match x with
  | Fin k => Fin ((2 * k + 2 ^ quantum) / 2 ^ (quantum + 1) * 2 ^ quantum)
  | _ => x
  end.

(** [Math.max] of two numbers. *)
Definition Math_max (x y : num) : num :=
  match x, y with
  | NaN, _ | _, NaN => NaN
  | _, _ => if leb x y then y else x
  end.

End Number.

Import Number.

Declare Scope num_scope.
Delimit Scope num_scope with num.
Bind Scope num_scope with num.
Infix "*" := mul : num_scope.
Infix "+" := add : num_scope.
Infix "-" := sub : num_scope.
Infix "<?" := ltb : num_scope.
Infix "<=?" := leb : num_scope.
Infix ">?" := gtb : num_scope.

Arguments round : simpl never.
Arguments round_pos : simpl never.
Arguments of_Z : simpl never.
Arguments of_decimal : simpl never.
Arguments mul : simpl never.
Arguments add : simpl never.
Arguments sub : simpl never.
Arguments Math_round : simpl never.

(** ** The binary64 floats of the Standard Library

    A double read as Stdlib's [spec_float] denotes a number of the model;
    Part III proves that the operations agree. *)

Definition of_spec_float (f : spec_float) : num :=
  match f with
  | S754_zero _ => Fin 0
  | S754_infinity s => if s then NegInf else PosInf
  | S754_nan => NaN
  | S754_finite s m e =>
      let k := Z.pos m * 2 ^ (e + quantum) in
      Fin (if s then - k else k)
  end.

(** The number a primitive float denotes. *)
Definition of_float (x : float) : num := of_spec_float (Prim2SF x).

(** Number of bits [SpecFloat] shifts out of the mantissa [m] at exponent
    [e]. *)
Definition excess (m e : Z) : Z := Z.max (bitlen m - precision) (- quantum - e).

(** [x] with the sign [s]. *)
Definition signed (s : bool) (x : num) : num := if s then neg x else x.

(** The value of a finite float, in units of 2^-1074. *)
Definition magnitude (m : positive) (e : Z) : Z := Z.pos m * 2 ^ (e + quantum).

(** The signed value of a finite float, in units of 2^-1074. *)
Definition value_of (s : bool) (m : positive) (e : Z) : Z :=
  if s then - magnitude m e else magnitude m e.

(** The comparison of two numbers, undefined when one is NaN. *)
Definition num_compare (x y : num) : option comparison :=
  match x, y with
  | NaN, _ | _, NaN => None
  | NegInf, NegInf | PosInf, PosInf => Some Eq
  | NegInf, _ | _, PosInf => Some Lt
  | _, NegInf | PosInf, _ => Some Gt
  | Fin a, Fin b => Some (a ?= b)
  end.

(** ** The offline heuristic: [calculateDeliveryTime] *)

(** What arithmetic makes of a table read: the entry, or NaN for a key the
    table does not hold (the read then yields [undefined], or a member
    inherited from [Object.prototype], and [ToNumber] maps both to NaN). *)
Definition ToNumber (v : option num) : num :=
  match v with
  | Some x => x
  | None => NaN
  end.

(** [Array.prototype.includes] on an array of numbers. *)
Definition includes (l : list num) (x : num) : bool :=
  existsb (same_value_zero x) l.

Definition weatherMultipliers : gmap string num :=
  {[ "Clear" := of_decimal 10 10;
     "Cloudy" := of_decimal 105 100;
     "Hot" := of_decimal 11 10;
     "Rain" := of_decimal 13 10;
     "Heavy Rain" := of_decimal 16 10 ]}.

Definition trafficMultipliers : gmap string num :=
  {[ "Low" := of_decimal 10 10;
     "Medium" := of_decimal 12 10;
     "High" := of_decimal 15 10;
     "Very High" := of_decimal 18 10 ]}.

Definition weatherImpacts : gmap string string :=
  {[ "Clear" := "Minimal";
     "Cloudy" := "Low";
     "Hot" := "Low";
     "Rain" := "Moderate";
     "Heavy Rain" := "High" ]}.

Definition trafficImpacts : gmap string string :=
  {[ "Low" := "Minimal";
     "Medium" := "Moderate";
     "High" := "Significant";
     "Very High" := "Very High" ]}.

Definition peakHours : list num :=
  [of_Z 12; of_Z 13; of_Z 14; of_Z 19; of_Z 20; of_Z 21].

(** The object [calculateDeliveryTime] returns.  The two impacts are table
    reads: [None] stands for what JavaScript yields for a key outside the
    table, which is [undefined] for every key but the names of the members
    of [Object.prototype]. *)
Record Prediction : Type := {
  time : num;
  confidence : num;
  weatherImpact : option string;
  trafficImpact : option string;
  distanceFactor : string;
  peakHour : string
}.

Definition calculateDeliveryTime
    (distance : num) (weather traffic : string) (hour items : num) : Prediction :=
  let baseTime := (distance * of_Z 4)%num in
  let prepTime := (of_Z 12 + items * of_Z 2)%num in
  let isPeakHour := includes peakHours hour in
  let baseTime := (baseTime * ToNumber (weatherMultipliers !! weather))%num in
  let baseTime := (baseTime * ToNumber (trafficMultipliers !! traffic))%num in
  let baseTime :=
    if isPeakHour then (baseTime * of_decimal 115 100)%num else baseTime in
  let totalTime := Math_round (prepTime + baseTime) in
  let confidence := of_Z 85 in
  let confidence :=
    if String.eqb weather "Heavy Rain" then (confidence - of_Z 10)%num
    else confidence in
  let confidence :=
    if String.eqb traffic "Very High" then (confidence - of_Z 8)%num
    else confidence in
  let confidence :=
    if (distance >? of_Z 10)%num then (confidence - of_Z 5)%num
    else confidence in
  {| time := totalTime;
     confidence := confidence;
     weatherImpact := weatherImpacts !! weather;
     trafficImpact := trafficImpacts !! traffic;
     distanceFactor :=
       if (distance >? of_Z 7)%num then "High"
       else if (distance >? of_Z 4)%num then "Medium" else "Low";
     peakHour := if isPeakHour then "Yes (+15%)" else "No" |}.

(** The second scenario of the specification: distance 12, Heavy Rain,
    Very High traffic, at 20 h, 3 items. *)
Definition scenario : Prediction :=
  calculateDeliveryTime (of_Z 12) "Heavy Rain" "Very High" (of_Z 20) (of_Z 3).

(** ** The page and the call to the backend *)

(** What the code stores in a property of a page element. *)
Inductive value : Type :=
| Undefined
| Bool (b : bool)
| Number (x : num)
| Text (s : string)
| NumberThen (x : num) (suffix : string)    (* the string [x + suffix] *)
| ToFixed (x : num) (digits : Z).           (* the string [x.toFixed(digits)] *)

(** A table read or a missing property assigned to [textContent]. *)
Definition text_or_undefined (v : option string) : value :=
  match v with
  | Some s => Text s
  | None => Undefined
  end.

(** The values [predictDeliveryTime] reads from the form; [distance] has
    gone through [parseFloat], [orderValue] and [numItems] through
    [parseInt]. *)
Record Form : Type := {
  form_restaurant : string;
  form_city : string;
  form_distance : num;
  form_orderValue : num;
  form_numItems : num;
  form_weather : string;
  form_traffic : string
}.

Module Remote.

(** [result.factors] of a backend answer. *)
Record factors : Type := {
  weather_impact : string;
  traffic_impact : string;
  distance_factor : string;
  peak_hour : string
}.

(** The JSON body of a backend answer, as far as the client reads it.
    [factors] is [None] when the property is absent. *)
Record result : Type := {
  success : bool;
  estimated_time : num;
  confidence : num;
  factors_of : option factors
}.

End Remote.

(** How [fetch] and [response.json()] end: the promise of [fetch] rejects
    (no connection, DNS failure, timeout), or a response with a status code
    arrives whose body parses as JSON or does not. *)
Inductive fetch_outcome : Type :=
| NetworkError
| Response (status : Z) (json : option Remote.result).

(** [response.ok]: the status is in the range 200-299. *)
Definition ok (status : Z) : bool := (200 <=? status) && (status <=? 299).

(** A callback registered with [setTimeout]: both callbacks of the source
    write the confidence bar and its caption. *)
Record timer : Type := {
  timer_confidence : num;
  timer_suffix : string
}.

(** The browser state the function acts on: element properties by name, the
    callbacks waiting for their timeout, the alerts shown. *)
Record World : Type := {
  page : gmap string value;
  timers : list timer;
  alerts : list string
}.

(** Computations that update the world and either return or throw. *)
Definition Js (A : Type) : Type := World -> (string + A) * World.

Definition ret {A} (a : A) : Js A := fun w => (inr a, w).

Definition bind {A B} (m : Js A) (k : A -> Js B) : Js B :=
  fun w =>
    match m w with
    | (inl e, w') => (inl e, w')
    | (inr a, w') => k a w'
    end.

Definition throw {A} (message : string) : Js A := fun w => (inl message, w).

Definition try_catch {A} (body : Js A) (handler : string -> Js A) : Js A :=
  fun w =>
    match body w with
    | (inl e, w') => handler e w'
    | (inr a, w') => (inr a, w')
    end.

Definition try_finally {A} (body : Js A) (cleanup : Js unit) : Js A :=
  fun w =>
    match body w with
    | (r, w') =>
        match cleanup w' with
        | (inl e, w'') => (inl e, w'')
        | (inr _, w'') => (r, w'')
        end
    end.

Declare Scope js_scope.
Delimit Scope js_scope with js.
Bind Scope js_scope with Js.
Notation "x <- m ;; k" := (bind m (fun x => k))
  (at level 20, m at level 99, k at level 200, right associativity,
   only parsing) : js_scope.
Notation "m ;; k" := (bind m (fun _ => k))
  (at level 100, k at level 200, right associativity, only parsing) : js_scope.
Local Open Scope js_scope.

(** [document.getElementById(...).property = v]. *)
Definition set_property (name : string) (v : value) : Js unit :=
  fun w =>
    (inr tt, {| page := <[name := v]> (page w);
                timers := timers w;
                alerts := alerts w |}).

Definition get_property (name : string) : Js value :=
  fun w => (inr (default Undefined (page w !! name)), w).

Definition setTimeout (t : timer) : Js unit :=
  fun w =>
    (inr tt, {| page := page w;
                timers := timers w ++ [t];
                alerts := alerts w |}).

Definition alert (message : string) : Js unit :=
  fun w =>
    (inr tt, {| page := page w;
                timers := timers w;
                alerts := alerts w ++ [message] |}).

(** [animateValue(id, 0, end, 1000)] counts the element's text up (or down)
    to [end] and shows [Math.round] of the running value at every tick;
    the text settles on [Math.round(end)], which is what the model writes.
    This is exact when one animation runs on the element, as on every path
    the theorems below are about. *)
Definition animateValue (id : string) (end_ : num) : Js unit :=
  set_property id (Number (Math_round end_)).

(** The map widget is an external drawing surface; it holds none of the
    values studied here. *)
Definition updateMap (distance : num) (city : string) : Js unit := ret tt.

(** [await fetch(...)]: throws when the promise rejects. *)
Definition fetch (outcome : fetch_outcome) : Js (Z * option Remote.result) :=
  match outcome with
  | NetworkError => throw "Failed to fetch"
  | Response status json => ret (status, json)
  end.

(** [await response.json()]: throws when the body is not JSON. *)
Definition response_json (json : option Remote.result) : Js Remote.result :=
  match json with
  | Some result => ret result
  | None => throw "Unexpected token"
  end.

(** Reading [result.factors.weather_impact] and the like throws a
    [TypeError] when [result.factors] is absent. *)
Definition result_factors (result : Remote.result) : Js Remote.factors :=
  match Remote.factors_of result with
  | Some f => ret f
  | None => throw "Cannot read properties of undefined"
  end.

(** ** The orchestrator: [predictDeliveryTime] *)

(** [outcome] is how the single call to the backend ends and [currentHour]
    what [new Date().getHours()] returns in the fallback.  The payload sent
    to the backend (the form values, the cuisine of the restaurant, a
    preparation time and two random figures) only matters to the backend,
    whose answer is a parameter here. *)
Definition predictDeliveryTime
    (form : Form) (outcome : fetch_outcome) (currentHour : num) : Js unit :=
  originalText <- get_property "predictBtn.textContent" ;;
  set_property "predictBtn.textContent" (Text "Predicting...") ;;
  set_property "predictBtn.disabled" (Bool true) ;;
  let distance := form_distance form in
  let city := form_city form in
  let numItems := form_numItems form in
  let weather := form_weather form in
  let traffic := form_traffic form in
  try_finally
    (try_catch
       (response <- fetch outcome ;;
        (if negb (ok (fst response)) then throw "API request failed"
         else ret tt) ;;
        result <- response_json (snd response) ;;
        (if negb (Remote.success result) then throw "Prediction failed"
         else ret tt) ;;
        set_property "initialMessage.style.display" (Text "none") ;;
        set_property "predictionResult.active" (Bool true) ;;
        animateValue "timeValue" (Remote.estimated_time result) ;;
        setTimeout {| timer_confidence := Remote.confidence result;
                      timer_suffix := "% Confidence" |} ;;
        set_property "routeDistance" (ToFixed distance 1) ;;
        factors <- result_factors result ;;
        set_property "weatherImpact" (Text (Remote.weather_impact factors)) ;;
        set_property "trafficImpact" (Text (Remote.traffic_impact factors)) ;;
        set_property "distanceFactor" (Text (Remote.distance_factor factors)) ;;
        set_property "peakHour" (Text (Remote.peak_hour factors)) ;;
        updateMap distance city)
       (fun error =>
        alert "Failed to get prediction. Please check if the backend server is running on http://localhost:5000" ;;
        let fallbackPrediction :=
          calculateDeliveryTime distance weather traffic currentHour numItems in
        set_property "initialMessage.style.display" (Text "none") ;;
        set_property "predictionResult.active" (Bool true) ;;
        animateValue "timeValue" (time fallbackPrediction) ;;
        setTimeout {| timer_confidence :=
                        (confidence fallbackPrediction - of_Z 10)%num;
                      timer_suffix := "% Confidence (Offline Mode)" |} ;;
        set_property "routeDistance" (ToFixed distance 1) ;;
        set_property "weatherImpact"
          (text_or_undefined (weatherImpact fallbackPrediction)) ;;
        set_property "trafficImpact"
          (text_or_undefined (trafficImpact fallbackPrediction)) ;;
        set_property "distanceFactor"
          (Text (distanceFactor fallbackPrediction)) ;;
        set_property "peakHour" (Text (peakHour fallbackPrediction)) ;;
        updateMap distance city))
    (set_property "predictBtn.textContent" originalText ;;
     set_property "predictBtn.disabled" (Bool false)).

(** A timeout callback of the source: it writes the width of the confidence
    bar and the caption. *)
Definition run_timer (t : timer) (p : gmap string value) : gmap string value :=
  <["confidenceText" := NumberThen (timer_confidence t) (timer_suffix t)]>
    (<["confidenceFill.style.width" := NumberThen (timer_confidence t) "%"]> p).

(** The callbacks run in the order they were registered (they all wait the
    same 500 ms). *)
Definition run_timers (ts : list timer) (p : gmap string value) : gmap string value :=
  fold_left (fun p t => run_timer t p) ts p.

(** One submission of the form on a page [p] with no callback and no
    animation pending: the page once [predictDeliveryTime] has returned and
    its timeouts have fired. *)
Definition submit
    (p : gmap string value) (form : Form) (outcome : fetch_outcome)
    (currentHour : num) : gmap string value :=
  let w := snd (predictDeliveryTime form outcome currentHour
                  {| page := p; timers := []; alerts := [] |}) in
  run_timers (timers w) (page w).

(** The canonical result as the page shows it. *)
Record CanonicalResult : Type := {
  estimatedTimeMinutes : value;
  confidencePercent : value;
  factor_weatherImpact : value;
  factor_trafficImpact : value;
  factor_distanceFactor : value;
  factor_peakHour : value
}.

Definition shown (p : gmap string value) : option CanonicalResult :=
  t ← p !! "timeValue";
  c ← p !! "confidenceFill.style.width";
  w ← p !! "weatherImpact";
  tr ← p !! "trafficImpact";
  d ← p !! "distanceFactor";
  h ← p !! "peakHour";
  Some {| estimatedTimeMinutes := t; confidencePercent := c;
          factor_weatherImpact := w; factor_trafficImpact := tr;
          factor_distanceFactor := d; factor_peakHour := h |}.

(** [x] is zero, a positive double or +infinity. *)
Definition nonneg (x : num) : Prop := (Fin 0 <=? x)%num = true.

(** [x] is a positive double. *)
Definition is_positive (x : num) : Prop :=
  match x with
  | Fin k => 0 < k
  | _ => False
  end.

(** [Fin k] with [k] a multiple of 2^1074 is an integer; so is, for
    [Math.round], an infinity. *)
Definition integral (x : num) : Prop :=
  match x with
  | NaN => False
  | Fin k => k mod 2 ^ quantum = 0
  | _ => True
  end.

(** [Fin k] is a double when [k] has at most 53 significant bits and is in
    range. *)
Definition double (x : num) : Prop :=
  match x with
  | Fin k =>
      Z.abs k mod 2 ^ drop 0 (Z.abs k) = 0 /\ Z.abs k < 2 ^ overflow_exp
  | _ => True
  end.

(** ** The domains of the specification *)

(** The weather values of the form, from the mildest to the most severe. *)
Definition weather_values : list string :=
  ["Clear"; "Cloudy"; "Hot"; "Rain"; "Heavy Rain"].

(** The traffic values of the form, from the lightest to the heaviest. *)
Definition traffic_values : list string :=
  ["Low"; "Medium"; "High"; "Very High"].

(** A valid request: a finite distance above zero, at least one item, and
    weather and traffic among the values of the form. *)
Definition valid_request (form : Form) : Prop :=
  is_positive (form_distance form) /\
  (exists n : Z, 1 <= n /\ form_numItems form = of_Z n) /\
  form_weather form ∈ weather_values /\
  form_traffic form ∈ traffic_values.

(** The ways the call to the backend fails: the promise of [fetch] rejects,
    the status is outside 200-299, the body is not JSON, or the answer
    carries a false success flag.  Each one makes the [try] block of
    [predictDeliveryTime] throw before it has touched the page. *)
Inductive remote_failure : fetch_outcome -> Prop :=
| transport_failure :
    remote_failure NetworkError
| failure_status status json :
    ok status = false -> remote_failure (Response status json)
| failure_body status :
    remote_failure (Response status None)
| failure_flag status result :
    Remote.success result = false ->
    remote_failure (Response status (Some result)).

(** [x] lies in the closed interval from [lo] to [hi]. *)
Definition between (lo hi : Z) (x : num) : Prop :=
  (of_Z lo <=? x)%num = true /\ (x <=? of_Z hi)%num = true.

(** The page shows a result whose time is a number that is not negative
    and whose confidence is a percentage from 0 to 100. *)
Definition in_range (p : gmap string value) : Prop :=
  exists r t c,
    shown p = Some r /\
    estimatedTimeMinutes r = Number t /\ nonneg t /\
    confidencePercent r = NumberThen c "%" /\ between 0 100 c.

(** A valid request, and an answer of the backend that is well formed but
    carries a confidence of 150. *)
Definition overconfident_request : Form :=
  {| form_restaurant := "Box8";
     form_city := "Pune";
     form_distance := of_Z 5;
     form_orderValue := of_Z 300;
     form_numItems := of_Z 2;
     form_weather := "Rain";
     form_traffic := "High" |}.

Definition overconfident_factors : Remote.factors :=
  {| Remote.weather_impact := "Moderate";
     Remote.traffic_impact := "Significant";
     Remote.distance_factor := "Medium";
     Remote.peak_hour := "No" |}.

Definition overconfident_answer : Remote.result :=
  {| Remote.success := true;
     Remote.estimated_time := of_Z 40;
     Remote.confidence := of_Z 150;
     Remote.factors_of := Some overconfident_factors |}.

(** ** The browser around a call

    What a function of the script could consult besides its arguments, or
    change: the page with its timers and alerts, the clock behind
    [new Date()] and the generator behind [Math.random()]. *)
Record Browser : Type := {
  document : World;
  clock : num;          (* what [new Date().getHours()] returns now *)
  entropy : nat -> num; (* the results of the calls to [Math.random()] *)
  drawn : nat           (* how many of them have been made *)
}.

Module Script.

(** Computations that may read and change the browser, and either return
    or throw. *)
Definition Script (A : Type) : Type := Browser -> (string + A) * Browser.

Definition ret {A} (a : A) : Script A := fun b => (inr a, b).

Definition bind {A B} (m : Script A) (k : A -> Script B) : Script B :=
  fun b =>
    match m b with
    | (inl e, b') => (inl e, b')
    | (inr a, b') => k a b'
    end.

Declare Scope script_scope.
Delimit Scope script_scope with script.
Bind Scope script_scope with Script.
Notation "x <- m ;; k" := (bind m (fun x => k))
  (at level 20, m at level 99, k at level 200, right associativity,
   only parsing) : script_scope.
Notation "m ;; k" := (bind m (fun _ => k))
  (at level 100, k at level 200, right associativity, only parsing) : script_scope.
Local Open Scope script_scope.

(** [new Date().getHours()]. *)
Definition Date_getHours : Script num := fun b => (inr (clock b), b).

(** [Math.random()]: the next number of the generator. *)
Definition Math_random : Script num :=
  fun b =>
    (inr (entropy b (drawn b)),
     {| document := document b;
        clock := clock b;
        entropy := entropy b;
        drawn := S (drawn b) |}).

(** A computation on the page, run in the browser. *)
Definition on_page {A} (m : Js A) : Script A :=
  fun b =>
    let (r, w) := m (document b) in
    (r, {| document := w;
           clock := clock b;
           entropy := entropy b;
           drawn := drawn b |}).

(** [calculateDeliveryTime], statement by statement, as a computation in
    the browser. *)
Definition calculateDeliveryTime
    (distance : num) (weather traffic : string) (hour items : num)
    : Script Prediction :=
  baseTime <- ret (distance * of_Z 4)%num ;;
  prepTime <- ret (of_Z 12 + items * of_Z 2)%num ;;
  weatherMultipliers <- ret weatherMultipliers ;;
  trafficMultipliers <- ret trafficMultipliers ;;
  isPeakHour <- ret (includes peakHours hour) ;;
  baseTime <- ret (baseTime * ToNumber (weatherMultipliers !! weather))%num ;;
  baseTime <- ret (baseTime * ToNumber (trafficMultipliers !! traffic))%num ;;
  baseTime <- (if isPeakHour : bool then ret (baseTime * of_decimal 115 100)%num
               else ret baseTime) ;;
  totalTime <- ret (Math_round (prepTime + baseTime)) ;;
  confidence <- ret (of_Z 85) ;;
  confidence <- (if String.eqb weather "Heavy Rain"
                 then ret (confidence - of_Z 10)%num else ret confidence) ;;
  confidence <- (if String.eqb traffic "Very High"
                 then ret (confidence - of_Z 8)%num else ret confidence) ;;
  confidence <- (if (distance >? of_Z 10)%num
                 then ret (confidence - of_Z 5)%num else ret confidence) ;;
  weatherImpacts <- ret weatherImpacts ;;
  trafficImpacts <- ret trafficImpacts ;;
  ret {| time := totalTime;
         confidence := confidence;
         weatherImpact := weatherImpacts !! weather;
         trafficImpact := trafficImpacts !! traffic;
         distanceFactor :=
           if (distance >? of_Z 7)%num then "High"
           else if (distance >? of_Z 4)%num then "Medium" else "Low";
         peakHour := if isPeakHour : bool then "Yes (+15%)" else "No" |}.

(** The call in the fallback of [predictDeliveryTime]: the hour is read
    from the clock and handed to the heuristic. *)
Definition fallbackPrediction (form : Form) : Script Prediction :=
  currentHour <- Date_getHours ;;
  calculateDeliveryTime (form_distance form) (form_weather form)
    (form_traffic form) currentHour (form_numItems form).

(** [m] returns [a] from every state of the browser and leaves that state
    as it found it. *)
Definition returns {A} (m : Script A) (a : A) : Prop :=
  forall b, m b = (inr a, b).

End Script.

(** ** Names used by the further properties *)

(** The answer is one the success path runs through to its end. *)
Definition complete_answer (outcome : fetch_outcome) : bool :=
  match outcome with
  | Response status (Some result) =>
      ok status && Remote.success result
      && match Remote.factors_of result with Some _ => true | None => false end
  | _ => false
  end.


(** The text of the alert in the [catch] block. *)
Definition notification : string :=
  "Failed to get prediction. Please check if the backend server is running on http://localhost:5000".

(** ** The animation of the time value: [animateValue] *)

(** JavaScript [x >= y] is [y <= x]. *)
Definition geb (x y : num) : bool := leb y x.

(** JavaScript [x / y].  The quotient of two finite numbers is rounded like
    a decimal literal.  The two zeros being identified, a zero divisor
    counts as +0; the source divides by [duration / 16] only, which is
    62.5 at both of its calls. *)
Definition div (x y : num) : num :=
  match x, y with
  | NaN, _ | _, NaN => NaN
  | Fin a, Fin b =>
      if b =? 0 then
        if a =? 0 then NaN else if 0 <? a then PosInf else NegInf
      else
        let q := of_decimal (Z.abs a) (Z.abs b) in
        if Bool.eqb (a <? 0) (b <? 0) then q else neg q
  | Fin _, PosInf | Fin _, NegInf => Fin 0
  | PosInf, Fin b => if 0 <=? b then PosInf else NegInf
  | NegInf, Fin b => if 0 <=? b then NegInf else PosInf
  | PosInf, PosInf | PosInf, NegInf | NegInf, PosInf | NegInf, NegInf => NaN
  end.

Infix "/" := div : num_scope.
Infix ">=?" := geb : num_scope.

Module Animation.

(** The variables the callback of [setInterval] closes over, whether the
    interval has been cleared, and the text of the element. *)
Record state : Type := {
  current : num;
  cleared : bool;
  textContent : value
}.

Definition increment (start end_ duration : num) : num :=
  ((end_ - start) / (duration / of_Z 16))%num.

(** One run of the callback. *)
Definition tick (end_ increment : num) (s : state) : state :=
  let current := (current s + increment)%num in
  let finished :=
    ((increment >? of_Z 0)%num && (current >=? end_)%num)
    || ((increment <? of_Z 0)%num && (current <=? end_)%num) in
  let current := if finished then end_ else current in
  {| current := current;
     cleared := finished;
     textContent := Number (Math_round current) |}.

(** The state after the interval has come due [n] times: a cleared
    interval runs no more. *)
Fixpoint ticks (n : nat) (end_ increment : num) (s : state) : state :=
  match n with
  | O => s
  | S n =>
      if cleared s then s else ticks n end_ increment (tick end_ increment s)
  end.

(** [animateValue(id, start, end, duration)], [n] periods of 16 ms after
    the call, on an element whose text was [text]. *)
Definition animateValue
    (text : value) (start end_ duration : num) (n : nat) : state :=
  ticks n end_ (increment start end_ duration)
    {| current := start; cleared := false; textContent := text |}.

End Animation.

(** ** The request payload *)

(** [Math.floor]. *)
Definition Math_floor (x : num) : num :=
  match x with
  | Fin k => Fin (k / 2 ^ quantum * 2 ^ quantum)
  | _ => x
  end.

(** What [Math.random()] returns: a double from 0 (included) to 1
    (excluded). *)
Definition random_value (r : num) : Prop :=
  double r /\ (of_Z 0 <=? r)%num = true /\ (r <? of_Z 1)%num = true.

(** The largest double below 1. *)
Definition below_one : num := Fin (2 ^ quantum - 2 ^ (quantum - precision)).

(** The names every object literal inherits from [Object.prototype]. *)
Definition Object_prototype : list string :=
  ["constructor"; "__defineGetter__"; "__defineSetter__"; "hasOwnProperty";
   "__lookupGetter__"; "__lookupSetter__"; "isPrototypeOf";
   "propertyIsEnumerable"; "toString"; "valueOf"; "__proto__";
   "toLocaleString"].

Definition restaurantCuisine : gmap string string :=
  {[ "Biryani Blues" := "Biryani";
     "Faasos" := "Fast Food";
     "Behrouz Biryani" := "Biryani";
     "Oven Story Pizza" := "Italian";
     "The Bowl Company" := "Healthy";
     "Lunch Box" := "North Indian";
     "Mandarin Oak" := "Chinese";
     "Firangi Bake" := "Italian";
     "EatFit" := "Healthy";
     "Box8" := "North Indian" ]}.

Module Request.

(** The value of [payload.cuisine]: a text, or the member of
    [Object.prototype] (a function, or the prototype itself) that a
    restaurant bearing its name reads. *)
Inductive cuisine_value : Type :=
| Cuisine (name : string)
| PrototypeMember (name : string).

Record payload : Type := {
  restaurant : string;
  city : string;
  distance : num;
  num_items : num;
  weather : string;
  traffic : string;
  order_value : num;
  cuisine : cuisine_value;
  prep_time : num;
  restaurant_rating : num;
  partner_experience : num
}.

End Request.

(** [restaurantCuisine[restaurant] || 'North Indian']: a read of the table
    gives its entry, else the member [Object.prototype] has under that
    name, else [undefined]; an empty text and [undefined] are falsy. *)
Definition cuisine_of (restaurant : string) : Request.cuisine_value :=
  match restaurantCuisine !! restaurant with
  | Some c =>
      if String.eqb c "" then Request.Cuisine "North Indian"
      else Request.Cuisine c
  | None =>
      if bool_decide (restaurant ∈ Object_prototype)
      then Request.PrototypeMember restaurant
      else Request.Cuisine "North Indian"
  end.

(** The payload [predictDeliveryTime] builds from the form; its two calls
    to [Math.random()] are made in the order of the properties. *)
Definition payload (form : Form) : Script.Script Request.payload :=
  Script.bind Script.Math_random (fun random1 =>
  Script.bind Script.Math_random (fun random2 =>
  Script.ret
    {| Request.restaurant := form_restaurant form;
       Request.city := form_city form;
       Request.distance := form_distance form;
       Request.num_items := form_numItems form;
       Request.weather := form_weather form;
       Request.traffic := form_traffic form;
       Request.order_value := form_orderValue form;
       Request.cuisine := cuisine_of (form_restaurant form);
       Request.prep_time := (of_Z 12 + form_numItems form * of_Z 2)%num;
       Request.restaurant_rating :=
         (of_decimal 42 10 + random1 * of_decimal 5 10)%num;
       Request.partner_experience :=
         (Math_floor (random2 * of_Z 36) + of_Z 6)%num |})).

(** The cuisines of the table, and the default. *)
Definition cuisines : list string :=
  ["Biryani"; "Fast Food"; "Italian"; "Healthy"; "North Indian"; "Chinese"].

(* ===================================================================== *)
(** * Part II.  Rounding to binary64 *)
(* ===================================================================== *)

Section Rounding.

Lemma pow2_pos e : 0 <= e -> 0 < 2 ^ e.
Proof. intros. apply Z.pow_pos_nonneg; lia. Qed.

Lemma pow2_split a b : 0 <= a -> 0 <= b -> 2 ^ (a + b) = 2 ^ a * 2 ^ b.
Proof. intros. apply Z.pow_add_r; assumption. Qed.

Lemma pow2_le a b : 0 <= a <= b -> 2 ^ a <= 2 ^ b.
Proof. intros. apply Z.pow_le_mono_r; lia. Qed.

(** *** Nearest-even division *)

Lemma rne_div_bounds n d : 0 < d -> n / d <= rne_div n d <= n / d + 1.
Proof.
  intros Hd. unfold rne_div.
  repeat match goal with |- context [if ?b then _ else _] => destruct b end; lia.
Qed.

Lemma rne_div_exact m d : 0 < d -> rne_div (m * d) d = m.
Proof.
  intros Hd. unfold rne_div.
  rewrite Z.div_mul, Z.mod_mul by lia.
  destruct (Z.ltb_spec (2 * 0) d); lia.
Qed.

Lemma rne_div_mono n1 n2 d :
  0 < d -> n1 <= n2 -> rne_div n1 d <= rne_div n2 d.
Proof.
  intros Hd Hn.
  pose proof (Z.div_le_mono n1 n2 d Hd Hn) as Hm.
  destruct (Z.eq_dec (n1 / d) (n2 / d)) as [E | E].
  - assert (Hr : n1 mod d <= n2 mod d).
    { rewrite (Z.mod_eq n1 d), (Z.mod_eq n2 d), E by lia. lia. }
    unfold rne_div. rewrite E.
    destruct (Z.ltb_spec (2 * (n1 mod d)) d), (Z.ltb_spec (2 * (n2 mod d)) d),
      (Z.ltb_spec d (2 * (n1 mod d))), (Z.ltb_spec d (2 * (n2 mod d)));
      destruct (Z.even (n2 / d)); lia.
  - pose proof (rne_div_bounds n1 d Hd). pose proof (rne_div_bounds n2 d Hd). lia.
Qed.

Lemma rne_div_nonneg n d : 0 < d -> 0 <= n -> 0 <= rne_div n d.
Proof.
  intros Hd Hn. pose proof (rne_div_bounds n d Hd).
  pose proof (Z.div_pos n d Hn Hd). lia.
Qed.

(** *** Binary length *)

Lemma bitlen_nonneg n : 0 <= bitlen n.
Proof.
  unfold bitlen. destruct (Z.eqb_spec n 0); [lia |].
  pose proof (Z.log2_nonneg n). lia.
Qed.

Lemma bitlen_upper n : 0 <= n -> n < 2 ^ bitlen n.
Proof.
  intros Hn. unfold bitlen. destruct (Z.eqb_spec n 0) as [-> | Hz].
  - reflexivity.
  - pose proof (Z.log2_spec n). replace (Z.log2 n + 1) with (Z.succ (Z.log2 n)) by lia. lia.
Qed.

Lemma bitlen_lower n : 0 < n -> 2 ^ (bitlen n - 1) <= n.
Proof.
  intros Hn. unfold bitlen. destruct (Z.eqb_spec n 0); [lia |].
  replace (Z.log2 n + 1 - 1) with (Z.log2 n) by lia.
  apply Z.log2_spec. assumption.
Qed.

Lemma bitlen_mono a b : 0 <= a <= b -> bitlen a <= bitlen b.
Proof.
  intros [Ha Hab]. unfold bitlen.
  destruct (Z.eqb_spec a 0), (Z.eqb_spec b 0); try lia.
  - pose proof (Z.log2_nonneg b). lia.
  - pose proof (Z.log2_le_mono a b Hab). lia.
Qed.

Lemma bitlen_below n e : 0 <= e -> 0 <= n < 2 ^ e -> bitlen n <= e.
Proof.
  intros He [Hn Hlt]. unfold bitlen. destruct (Z.eqb_spec n 0); [lia |].
  assert (Z.log2 n < e) by (apply Z.log2_lt_pow2; lia). lia.
Qed.

(** *** Rounding a non-negative value *)

Lemma drop_ge c n : c <= drop c n.
Proof. unfold drop. lia. Qed.

Lemma nearest_scaled c n :
  0 <= c ->
  nearest c n = rne_div n (2 ^ drop c n) * 2 ^ (drop c n - c) * 2 ^ c.
Proof.
  intros Hc. unfold nearest. pose proof (drop_ge c n).
  rewrite <- Z.mul_assoc, <- pow2_split by lia.
  do 2 f_equal. lia.
Qed.

Lemma nearest_mono c n1 n2 :
  0 <= c -> 0 <= n1 <= n2 -> nearest c n1 <= nearest c n2.
Proof.
  intros Hc [H1 H12]. unfold nearest.
  pose proof (drop_ge c n1) as G1. pose proof (drop_ge c n2) as G2.
  assert (Hb : bitlen n1 <= bitlen n2) by (apply bitlen_mono; lia).
  assert (Ht : drop c n1 <= drop c n2) by (unfold drop; lia).
  destruct (Z.eq_dec (drop c n1) (drop c n2)) as [E | E].
  - rewrite E. apply Z.mul_le_mono_nonneg_r.
    + pose proof (pow2_pos (drop c n2)). lia.
    + apply rne_div_mono; [apply pow2_pos |]; lia.
  - (* a power of two separates the two arguments *)
    set (t1 := drop c n1) in *. set (t2 := drop c n2) in *.
    assert (Ht2 : t2 = bitlen n2 - precision) by (unfold t2, drop in *; lia).
    assert (Hp : 0 < n2).
    { destruct (Z.eq_dec n2 0) as [-> | ]; [| lia].
      unfold t2, drop, bitlen, precision in *. simpl in *. lia. }
    set (B := 2 ^ (t2 + 52)).
    assert (HB2 : B <= n2).
    { unfold B. replace (t2 + 52) with (bitlen n2 - 1) by (unfold precision in *; lia).
      apply bitlen_lower; assumption. }
    assert (HB1 : n1 <= B).
    { pose proof (bitlen_upper n1 H1).
      assert (2 ^ bitlen n1 <= B); [| lia].
      unfold B. apply pow2_le. pose proof (bitlen_nonneg n1).
      unfold t1, drop, precision in *. lia. }
    assert (P1 : 0 < 2 ^ t1) by (apply pow2_pos; lia).
    assert (P2 : 0 < 2 ^ t2) by (apply pow2_pos; lia).
    assert (E1 : B = 2 ^ (t2 + 52 - t1) * 2 ^ t1).
    { unfold B. rewrite <- pow2_split by lia. f_equal. lia. }
    assert (E2 : B = 2 ^ 52 * 2 ^ t2).
    { unfold B. rewrite <- pow2_split by lia. f_equal. lia. }
    transitivity B.
    + pose proof (rne_div_mono n1 B (2 ^ t1) P1 HB1) as M.
      rewrite E1 in M at 1. rewrite rne_div_exact in M by assumption.
      rewrite E1. apply Z.mul_le_mono_nonneg_r; lia.
    + pose proof (rne_div_mono B n2 (2 ^ t2) P2 HB2) as M.
      rewrite E2 in M at 1. rewrite rne_div_exact in M by assumption.
      rewrite E2. apply Z.mul_le_mono_nonneg_r; lia.
Qed.

Lemma nearest_nonneg c n : 0 <= c -> 0 <= n -> 0 <= nearest c n.
Proof.
  intros Hc Hn. unfold nearest. pose proof (drop_ge c n).
  apply Z.mul_nonneg_nonneg.
  - apply rne_div_nonneg; [apply pow2_pos |]; lia.
  - pose proof (pow2_pos (drop c n)). lia.
Qed.

(** A value that needs no bit dropped is left as it is. *)
Lemma nearest_exact c n : n mod 2 ^ drop c n = 0 -> 0 <= c -> nearest c n = n.
Proof.
  intros Hm Hc. unfold nearest. pose proof (drop_ge c n).
  assert (P : 0 < 2 ^ drop c n) by (apply pow2_pos; lia).
  apply Z.div_exact in Hm; [| lia].
  rewrite Hm at 1. rewrite (Z.mul_comm (2 ^ drop c n)), rne_div_exact by assumption.
  lia.
Qed.

(** The mantissa kept by [round_pos] has at most 53 bits, or is 2^53. *)
Lemma rne_div_drop_le c n :
  0 <= c -> 0 <= n -> rne_div n (2 ^ drop c n) <= 2 ^ precision.
Proof.
  intros Hc Hn. pose proof (drop_ge c n).
  assert (P : 0 < 2 ^ drop c n) by (apply pow2_pos; lia).
  assert (Hle : n <= 2 ^ precision * 2 ^ drop c n).
  { pose proof (bitlen_upper n Hn). pose proof (bitlen_nonneg n).
    rewrite <- pow2_split by (unfold precision; lia).
    assert (2 ^ bitlen n <= 2 ^ (precision + drop c n)); [| lia].
    apply pow2_le. unfold drop. lia. }
  pose proof (rne_div_mono _ _ _ P Hle) as M.
  rewrite rne_div_exact in M by assumption. exact M.
Qed.

Lemma round_pos_unfold c n :
  round_pos c n = if rounded c n <? 2 ^ overflow_exp then Fin (rounded c n) else PosInf.
Proof. reflexivity. Qed.

Lemma rounded_scaled c n : 0 <= c -> rounded c n * 2 ^ c = nearest c n.
Proof. intros. rewrite nearest_scaled by assumption. reflexivity. Qed.

Lemma rounded_mono c n1 n2 :
  0 <= c -> 0 <= n1 <= n2 -> rounded c n1 <= rounded c n2.
Proof.
  intros Hc Hn. pose proof (nearest_mono c n1 n2 Hc Hn) as M.
  rewrite <- !rounded_scaled in M by assumption.
  apply Z.mul_le_mono_pos_r in M; [assumption | apply pow2_pos; lia].
Qed.

Lemma rounded_nonneg c n : 0 <= c -> 0 <= n -> 0 <= rounded c n.
Proof.
  intros Hc Hn. pose proof (nearest_nonneg c n Hc Hn) as M.
  rewrite <- rounded_scaled in M by assumption.
  pose proof (pow2_pos c Hc). nia.
Qed.

Lemma rounded_zero c : 0 <= c -> rounded c 0 = 0.
Proof.
  intros Hc. unfold rounded, rne_div. pose proof (drop_ge c 0).
  rewrite Z.div_0_l, Z.mod_0_l by (pose proof (pow2_pos (drop c 0)); lia).
  destruct (Z.ltb_spec (2 * 0) (2 ^ drop c 0)) as [_ | L]; [reflexivity |].
  pose proof (pow2_pos (drop c 0)). lia.
Qed.

Lemma rounded_exact c n :
  0 <= c -> n mod 2 ^ drop c n = 0 -> rounded c n * 2 ^ c = n.
Proof. intros Hc Hm. rewrite rounded_scaled, nearest_exact; auto. Qed.

(** The result of rounding is a double: rounding it again changes nothing. *)
Lemma rounded_fits c n :
  0 <= c -> 0 <= n -> rounded c n mod 2 ^ drop 0 (rounded c n) = 0.
Proof.
  intros Hc Hn. pose proof (drop_ge c n) as G.
  pose proof (rne_div_drop_le c n Hc Hn) as Hm.
  assert (P : 0 < 2 ^ drop c n) by (apply pow2_pos; lia).
  pose proof (rne_div_nonneg n (2 ^ drop c n) P Hn) as Hm0.
  unfold rounded. set (m := rne_div n (2 ^ drop c n)) in *.
  set (u := drop c n - c). assert (Hu : 0 <= u) by (unfold u; lia).
  destruct (Z.eq_dec m (2 ^ precision)) as [E | E].
  - rewrite E, <- pow2_split by (unfold precision; lia).
    assert (D : drop 0 (2 ^ (precision + u)) = u + 1).
    { unfold drop, bitlen.
      destruct (Z.eqb_spec (2 ^ (precision + u)) 0) as [Z0 | _].
      - pose proof (pow2_pos (precision + u)). unfold precision in *. lia.
      - rewrite Z.log2_pow2 by (unfold precision; lia). unfold precision. lia. }
    rewrite D. replace (precision + u) with (52 + (u + 1)) by (unfold precision; lia).
    rewrite pow2_split by lia. apply Z.mod_mul. pose proof (pow2_pos (u + 1)). lia.
  - assert (Hk : 0 <= m * 2 ^ u < 2 ^ (precision + u)).
    { rewrite pow2_split by (unfold precision; lia). pose proof (pow2_pos u Hu). nia. }
    assert (D : drop 0 (m * 2 ^ u) <= u).
    { pose proof (bitlen_below (m * 2 ^ u) (precision + u)) as B.
      unfold drop. unfold precision in *. lia. }
    pose proof (drop_ge 0 (m * 2 ^ u)) as D0.
    replace u with (u - drop 0 (m * 2 ^ u) + drop 0 (m * 2 ^ u)) at 1 by lia.
    rewrite pow2_split by lia. rewrite Z.mul_assoc.
    apply Z.mod_mul. pose proof (pow2_pos (drop 0 (m * 2 ^ u))). lia.
Qed.

(** Rounding an integer value yields an integer value. *)
Lemma rounded_integral c n :
  0 <= c -> 0 <= n -> n mod 2 ^ (quantum + c) = 0 ->
  rounded c n mod 2 ^ quantum = 0.
Proof.
  intros Hc Hn Hm. pose proof (drop_ge c n) as G.
  assert (Q : 0 < 2 ^ quantum) by (apply pow2_pos; unfold quantum; lia).
  destruct (Z_le_gt_dec (drop c n) (quantum + c)) as [L | L].
  - assert (Q' : 0 < 2 ^ (quantum + c)) by (apply pow2_pos; unfold quantum; lia).
    assert (Hd : n mod 2 ^ drop c n = 0).
    { pose proof (pow2_pos (drop c n)).
      apply Z.mod_divide; [lia |].
      apply Z.divide_trans with (2 ^ (quantum + c)).
      - exists (2 ^ (quantum + c - drop c n)).
        rewrite <- pow2_split by lia. f_equal. lia.
      - apply Z.mod_divide; [lia | exact Hm]. }
    pose proof (rounded_exact c n Hc Hd) as E.
    apply Z.div_exact in Hm; [| lia].
    rewrite pow2_split in Hm by (unfold quantum; lia).
    assert (R : rounded c n = 2 ^ quantum * (n / (2 ^ quantum * 2 ^ c))).
    { apply (Z.mul_cancel_r _ _ (2 ^ c)); [pose proof (pow2_pos c Hc); lia |]. lia. }
    rewrite R, Z.mul_comm. apply Z.mod_mul. lia.
  - unfold rounded.
    replace (drop c n - c) with (drop c n - c - quantum + quantum) by lia.
    rewrite pow2_split by (unfold quantum in *; lia). rewrite Z.mul_assoc.
    apply Z.mod_mul. lia.
Qed.

End Rounding.

(** ** Order and arithmetic of numbers *)

Section NumberFacts.

Ltac num_cases :=
  repeat match goal with
         | x : num |- _ => destruct x
         end;
  simpl in *; try congruence; try tauto.

Lemma leb_refl x : x <> NaN -> (x <=? x)%num = true.
Proof. destruct x; simpl; try congruence. intros _. apply Z.leb_refl. Qed.

Lemma leb_trans x y z :
  (x <=? y)%num = true -> (y <=? z)%num = true -> (x <=? z)%num = true.
Proof. num_cases. rewrite !Z.leb_le. lia. Qed.

Lemma leb_neg x y : (x <=? y)%num = true -> (neg y <=? neg x)%num = true.
Proof. num_cases. rewrite !Z.leb_le. lia. Qed.

Lemma ltb_leb x y : (x <? y)%num = true -> (x <=? y)%num = true.
Proof. num_cases. rewrite Z.ltb_lt, Z.leb_le. lia. Qed.

Lemma overflow_pos : 0 < 2 ^ overflow_exp.
Proof. apply pow2_pos. unfold overflow_exp. lia. Qed.

(** *** Rounding is monotone *)

Lemma round_pos_mono c n1 n2 :
  0 <= c -> 0 <= n1 <= n2 ->
  (round_pos c n1 <=? round_pos c n2)%num = true.
Proof.
  intros Hc Hn. pose proof (rounded_mono c n1 n2 Hc Hn).
  rewrite !round_pos_unfold.
  destruct (Z.ltb_spec (rounded c n1) (2 ^ overflow_exp)),
    (Z.ltb_spec (rounded c n2) (2 ^ overflow_exp)); simpl; try reflexivity.
  - apply Z.leb_le. assumption.
  - lia.
Qed.

Lemma round_pos_zero c : 0 <= c -> round_pos c 0 = Fin 0.
Proof.
  intros Hc. rewrite round_pos_unfold, rounded_zero by assumption.
  pose proof overflow_pos. destruct (Z.ltb_spec 0 (2 ^ overflow_exp)); [reflexivity | lia].
Qed.

Lemma round_pos_nonneg c n : 0 <= c -> 0 <= n -> nonneg (round_pos c n).
Proof.
  intros Hc Hn. unfold nonneg. rewrite <- (round_pos_zero c Hc).
  apply round_pos_mono; lia.
Qed.

Lemma round_nonneg c n : 0 <= c -> 0 <= n -> nonneg (round c n).
Proof.
  intros Hc Hn. unfold round. destruct (Z.leb_spec 0 n); [| lia].
  apply round_pos_nonneg; assumption.
Qed.

Lemma round_zero c : 0 <= c -> round c 0 = Fin 0.
Proof. intros. unfold round. simpl. apply round_pos_zero. assumption. Qed.

Lemma round_mono c n1 n2 :
  0 <= c -> n1 <= n2 -> (round c n1 <=? round c n2)%num = true.
Proof.
  intros Hc Hn. unfold round.
  destruct (Z.leb_spec 0 n1), (Z.leb_spec 0 n2); try lia.
  - apply round_pos_mono; lia.
  - apply leb_trans with (Fin 0).
    + change (Fin 0) with (neg (Fin 0)). apply leb_neg.
      apply (round_pos_nonneg c (- n1)); lia.
    + apply (round_pos_nonneg c n2); lia.
  - apply leb_neg. apply round_pos_mono; lia.
Qed.

Lemma round_not_nan c n : round c n <> NaN.
Proof.
  unfold round. destruct (0 <=? n); rewrite round_pos_unfold;
    match goal with |- context [if ?b then _ else _] => destruct b end;
    simpl; congruence.
Qed.

(** *** Results of rounding are doubles *)

Lemma round_pos_double c n : 0 <= c -> 0 <= n -> double (round_pos c n).
Proof.
  intros Hc Hn. rewrite round_pos_unfold.
  pose proof (rounded_nonneg c n Hc Hn).
  destruct (Z.ltb_spec (rounded c n) (2 ^ overflow_exp)); simpl; [| exact I].
  rewrite Z.abs_eq by assumption. split; [apply rounded_fits |]; assumption.
Qed.

Lemma neg_double x : double x -> double (neg x).
Proof. destruct x; simpl; auto. rewrite Z.abs_opp. auto. Qed.

Lemma round_double c n : 0 <= c -> double (round c n).
Proof.
  intros Hc. unfold round. destruct (Z.leb_spec 0 n).
  - apply round_pos_double; assumption.
  - apply neg_double, round_pos_double; lia.
Qed.

(** A double is the rounding of itself. *)
Lemma round_id k : 0 <= k -> double (Fin k) -> round 0 k = Fin k.
Proof.
  intros Hk [Hf Hr]. rewrite Z.abs_eq in Hf, Hr by assumption.
  unfold round. destruct (Z.leb_spec 0 k); [| lia].
  rewrite round_pos_unfold.
  pose proof (rounded_exact 0 k (Z.le_refl 0) Hf) as E.
  rewrite Z.pow_0_r, Z.mul_1_r in E. rewrite E.
  destruct (Z.ltb_spec k (2 ^ overflow_exp)); [reflexivity | lia].
Qed.

Lemma mul_double x y : double (x * y)%num.
Proof.
  destruct x, y; simpl; try exact I; unfold mul;
    try (apply round_double; unfold quantum; lia);
    repeat match goal with |- context [if ?b then _ else _] => destruct b end;
    exact I.
Qed.

Lemma add_double x y : double (x + y)%num.
Proof.
  destruct x, y; simpl; try exact I; unfold add.
  apply round_double. lia.
Qed.

(** *** Integers *)

Lemma round_pos_integral c n :
  0 <= c -> 0 <= n -> n mod 2 ^ (quantum + c) = 0 -> integral (round_pos c n).
Proof.
  intros Hc Hn Hm. rewrite round_pos_unfold.
  destruct (rounded c n <? 2 ^ overflow_exp); simpl; [| exact I].
  apply rounded_integral; assumption.
Qed.

Lemma round_integral c n :
  0 <= c -> 0 <= n -> n mod 2 ^ (quantum + c) = 0 -> integral (round c n).
Proof.
  intros Hc Hn Hm. unfold round. destruct (Z.leb_spec 0 n); [| lia].
  apply round_pos_integral; assumption.
Qed.

Lemma Math_round_integral x : integral x -> Math_round x = x.
Proof.
  destruct x; simpl; intros Hm; try reflexivity.
  unfold Math_round. f_equal.
  assert (Q : 0 < 2 ^ quantum) by (apply pow2_pos; unfold quantum; lia).
  apply Z.div_exact in Hm; [| lia].
  set (j := k / 2 ^ quantum) in *. clearbody j.
  rewrite pow2_split by (unfold quantum; lia).
  replace (2 * k + 2 ^ quantum) with ((2 * j + 1) * 2 ^ quantum) by lia.
  rewrite (Z.mul_comm (2 ^ quantum) (2 ^ 1)), Z.div_mul_cancel_r by lia.
  change (2 ^ 1) with 2.
  replace ((2 * j + 1) / 2) with j; [lia |].
  apply Z.div_unique with 1; lia.
Qed.

Lemma Math_round_mono x y :
  (x <=? y)%num = true -> (Math_round x <=? Math_round y)%num = true.
Proof.
  destruct x, y; simpl; try congruence; unfold Math_round; simpl; try reflexivity.
  rewrite !Z.leb_le. intros H.
  assert (Q : 0 < 2 ^ quantum) by (apply pow2_pos; unfold quantum; lia).
  apply Z.mul_le_mono_nonneg_r; [lia |].
  apply Z.div_le_mono; [apply pow2_pos; unfold quantum |]; lia.
Qed.

Lemma Math_round_nonneg x : nonneg x -> nonneg (Math_round x).
Proof.
  unfold nonneg. intros H. apply Math_round_mono in H.
  rewrite (Math_round_integral (Fin 0)) in H; [exact H |].
  simpl. apply Z.mod_0_l. pose proof (pow2_pos quantum). unfold quantum in *. lia.
Qed.

(** *** Multiplication *)

Ltac sign_cases :=
  repeat match goal with
         | |- context [?a =? 0] => destruct (Z.eqb_spec a 0)
         | |- context [0 <? ?a] => destruct (Z.ltb_spec 0 a)
         end;
  simpl; try reflexivity; try lia.

Lemma nonneg_PosInf : nonneg PosInf.
Proof. reflexivity. Qed.

Lemma nonneg_Fin k : nonneg (Fin k) <-> 0 <= k.
Proof. unfold nonneg. simpl. apply Z.leb_le. Qed.

Lemma nonneg_cases x : nonneg x -> x = PosInf \/ exists k, x = Fin k /\ 0 <= k.
Proof.
  destruct x; unfold nonneg; simpl; try discriminate; [| auto].
  rewrite Z.leb_le. eauto.
Qed.

Lemma positive_cases c : is_positive c -> exists k, c = Fin k /\ 0 < k.
Proof. destruct c; simpl; try tauto. eauto. Qed.

Lemma positive_nonneg c : is_positive c -> nonneg c.
Proof. intros (k & -> & H)%positive_cases. apply nonneg_Fin. lia. Qed.

Lemma leb_round_PosInf c n : (round c n <=? PosInf)%num = true.
Proof. pose proof (round_not_nan c n). destruct (round c n); simpl; congruence. Qed.

Lemma leb_NegInf_round c n : (NegInf <=? round c n)%num = true.
Proof. pose proof (round_not_nan c n). destruct (round c n); simpl; congruence. Qed.

(** Scaling by a positive double is monotone. *)
Lemma mul_mono_l x y c :
  is_positive c -> (x <=? y)%num = true -> (x * c <=? y * c)%num = true.
Proof.
  intros (k & -> & Hk)%positive_cases.
  destruct x as [| | a |], y as [| | b |]; simpl; try discriminate; intros H;
    unfold mul; sign_cases;
    try apply leb_round_PosInf; try apply leb_NegInf_round.
  apply round_mono; [unfold quantum; lia |].
  apply Z.leb_le in H. nia.
Qed.

(** A larger positive factor gives a larger product of a non-negative
    number. *)
Lemma mul_mono_r x c1 c2 :
  nonneg x -> is_positive c1 -> is_positive c2 -> (c1 <=? c2)%num = true ->
  (x * c1 <=? x * c2)%num = true.
Proof.
  intros Hx (k1 & -> & H1)%positive_cases (k2 & -> & H2)%positive_cases H.
  simpl in H. apply Z.leb_le in H.
  destruct (nonneg_cases x Hx) as [-> | (a & -> & Ha)]; unfold mul; sign_cases.
  apply round_mono; [unfold quantum; lia | nia].
Qed.

Lemma mul_nonneg x c : nonneg x -> is_positive c -> nonneg (x * c)%num.
Proof.
  intros Hx (k & -> & Hk)%positive_cases.
  destruct (nonneg_cases x Hx) as [-> | (a & -> & Ha)]; unfold mul; sign_cases.
  apply round_nonneg; [unfold quantum; lia | nia].
Qed.

(** *** Addition *)

Lemma add_nonneg x y : nonneg x -> nonneg y -> nonneg (x + y)%num.
Proof.
  intros [-> | (a & -> & Ha)]%nonneg_cases [-> | (b & -> & Hb)]%nonneg_cases;
    try reflexivity.
  unfold add. apply round_nonneg; lia.
Qed.

Lemma add_mono_r p x y :
  nonneg p -> nonneg x -> (x <=? y)%num = true ->
  (p + x <=? p + y)%num = true.
Proof.
  intros [-> | (a & -> & Ha)]%nonneg_cases [-> | (b & -> & Hb)]%nonneg_cases;
    destruct y as [| | b' |]; simpl; try discriminate; try reflexivity; intros H;
    unfold add.
  - apply round_mono; [lia |]. apply Z.leb_le in H. lia.
  - apply leb_round_PosInf.
Qed.

(** Adding a non-negative number to a non-negative double never yields
    less than that double. *)
Lemma add_ge_l p x :
  double p -> nonneg p -> nonneg x -> (p <=? p + x)%num = true.
Proof.
  intros Hd [-> | (a & -> & Ha)]%nonneg_cases [-> | (b & -> & Hb)]%nonneg_cases;
    try reflexivity.
  unfold add. rewrite <- (round_id a Ha Hd) at 1.
  apply round_mono; lia.
Qed.

Lemma mul_integral x c :
  nonneg x -> integral x -> is_positive c -> integral c -> integral (x * c)%num.
Proof.
  intros Hx Ix (k & -> & Hk)%positive_cases Ic.
  destruct (nonneg_cases x Hx) as [-> | (a & -> & Ha)]; unfold mul; sign_cases.
  simpl in Ix, Ic.
  assert (Q : 0 < 2 ^ quantum) by (apply pow2_pos; unfold quantum; lia).
  apply Z.div_exact in Ix; [| lia]. apply Z.div_exact in Ic; [| lia].
  apply round_integral; [unfold quantum; lia | nia |].
  rewrite pow2_split by (unfold quantum; lia).
  rewrite Ix, Ic.
  replace (2 ^ quantum * (a / 2 ^ quantum) * (2 ^ quantum * (k / 2 ^ quantum)))
    with ((a / 2 ^ quantum) * (k / 2 ^ quantum) * (2 ^ quantum * 2 ^ quantum)) by ring.
  apply Z.mod_mul. lia.
Qed.

Lemma add_integral x y :
  nonneg x -> integral x -> nonneg y -> integral y -> integral (x + y)%num.
Proof.
  intros [-> | (a & -> & Ha)]%nonneg_cases Ix [-> | (b & -> & Hb)]%nonneg_cases Iy;
    try exact I.
  unfold add. simpl in Ix, Iy.
  assert (Q : 0 < 2 ^ quantum) by (apply pow2_pos; unfold quantum; lia).
  apply round_integral; [lia | lia |].
  rewrite Z.add_0_r, Z.add_mod, Ix, Iy by lia. apply Z.mod_0_l. lia.
Qed.

Lemma of_Z_integral i : 0 <= i -> integral (of_Z i).
Proof.
  intros Hi. unfold of_Z.
  assert (Q : 0 < 2 ^ quantum) by (apply pow2_pos; unfold quantum; lia).
  apply round_integral; [lia | nia |].
  rewrite Z.add_0_r. apply Z.mod_mul. lia.
Qed.

Lemma of_Z_double i : double (of_Z i).
Proof. unfold of_Z. apply round_double. lia. Qed.

Lemma of_Z_nonneg i : 0 <= i -> nonneg (of_Z i).
Proof.
  intros Hi. unfold of_Z.
  assert (Q : 0 < 2 ^ quantum) by (apply pow2_pos; unfold quantum; lia).
  apply round_nonneg; [lia | nia].
Qed.

Lemma of_Z_mono i j : i <= j -> (of_Z i <=? of_Z j)%num = true.
Proof.
  intros H. unfold of_Z.
  assert (Q : 0 < 2 ^ quantum) by (apply pow2_pos; unfold quantum; lia).
  apply round_mono; [lia | nia].
Qed.

End NumberFacts.

(** *** Small integers are exact *)

Section SmallIntegers.

(** An integer below 2^53 is a double, at any scale. *)
Lemma round_small_integer c m :
  0 <= c -> 0 <= m < 2 ^ precision ->
  round c (m * 2 ^ (quantum + c)) = Fin (m * 2 ^ quantum).
Proof.
  intros Hc [Hm0 Hm].
  assert (Q : 0 < 2 ^ quantum) by (apply pow2_pos; unfold quantum; lia).
  assert (C : 0 < 2 ^ c) by (apply pow2_pos; lia).
  assert (QC : 2 ^ (quantum + c) = 2 ^ quantum * 2 ^ c)
    by (apply pow2_split; unfold quantum; lia).
  remember (m * 2 ^ (quantum + c)) as n eqn:En.
  assert (QCp : 0 < 2 ^ (quantum + c)) by (apply pow2_pos; unfold quantum; lia).
  assert (Hn : 0 <= n) by (rewrite En; apply Z.mul_nonneg_nonneg; lia).
  assert (Hlt : n < 2 ^ (precision + (quantum + c))).
  { rewrite En, (pow2_split precision) by (unfold precision, quantum; lia).
    apply Z.mul_lt_mono_pos_r; lia. }
  assert (Hd : drop c n <= quantum + c).
  { pose proof (bitlen_below n (precision + (quantum + c))) as B.
    unfold drop. unfold precision, quantum in *. lia. }
  pose proof (drop_ge c n) as G.
  assert (Hmod : n mod 2 ^ drop c n = 0).
  { pose proof (pow2_pos (drop c n)).
    apply Z.mod_divide; [lia |].
    exists (m * 2 ^ (quantum + c - drop c n)).
    rewrite <- Z.mul_assoc, <- pow2_split by lia.
    rewrite En. do 2 f_equal. lia. }
  pose proof (rounded_exact c n Hc Hmod) as E.
  assert (R : rounded c n = m * 2 ^ quantum).
  { apply (Z.mul_cancel_r _ _ (2 ^ c)); [lia |]. rewrite E, En, QC. ring. }
  unfold round. destruct (Z.leb_spec 0 n); [| lia].
  rewrite round_pos_unfold, R.
  assert (m * 2 ^ quantum < 2 ^ overflow_exp).
  { apply Z.lt_le_trans with (2 ^ precision * 2 ^ quantum).
    - apply Z.mul_lt_mono_pos_r; lia.
    - rewrite <- pow2_split by (unfold precision, quantum; lia).
      apply pow2_le. unfold precision, quantum, overflow_exp. lia. }
  destruct (Z.ltb_spec (m * 2 ^ quantum) (2 ^ overflow_exp)); [reflexivity | lia].
Qed.

Lemma of_Z_small i : 0 <= i < 2 ^ precision -> of_Z i = Fin (i * 2 ^ quantum).
Proof.
  intros H. unfold of_Z.
  rewrite <- (round_small_integer 0 i), Z.add_0_r by lia. reflexivity.
Qed.

Lemma add_of_Z a b :
  0 <= a -> 0 <= b -> a + b < 2 ^ precision ->
  (of_Z a + of_Z b)%num = of_Z (a + b).
Proof.
  intros Ha Hb H. rewrite !of_Z_small by lia. unfold add.
  rewrite <- (round_small_integer 0 (a + b)) by lia.
  f_equal. rewrite Z.add_0_r. ring.
Qed.

Lemma mul_of_Z a b :
  0 <= a < 2 ^ precision -> 0 <= b < 2 ^ precision -> a * b < 2 ^ precision ->
  (of_Z a * of_Z b)%num = of_Z (a * b).
Proof.
  intros Ha Hb H. rewrite !of_Z_small by nia. unfold mul.
  rewrite <- (round_small_integer quantum (a * b)) by (unfold quantum; nia).
  f_equal. rewrite pow2_split by (unfold quantum; lia). ring.
Qed.

End SmallIntegers.

(* ===================================================================== *)
(** * Part III.  Agreement with the floats of the Standard Library

    [SpecFloat] is the Standard Library's executable specification of
    IEEE 754 arithmetic, and the kernel's primitive floats are specified by
    it.  On valid floats its multiplication, addition, subtraction and
    comparison compute what the model computes. *)
(* ===================================================================== *)

Section SpecFloat.

(** *** The shifts of [SpecFloat] *)

Lemma iter_pos_nat {A} (f : A -> A) p x :
  SpecFloat.iter_pos f p x = Nat.iter (Pos.to_nat p) f x.
Proof.
  revert x. induction p as [p IH | p IH |]; intros x; cbn [SpecFloat.iter_pos].
  - rewrite !IH, Pos2Nat.inj_xI.
    replace (S (2 * Pos.to_nat p)) with (Pos.to_nat p + S (Pos.to_nat p))%nat by lia.
    rewrite Nat.iter_add, Nat.iter_succ_r. reflexivity.
  - rewrite !IH, Pos2Nat.inj_xO.
    replace (2 * Pos.to_nat p)%nat with (Pos.to_nat p + Pos.to_nat p)%nat by lia.
    rewrite Nat.iter_add. reflexivity.
  - reflexivity.
Qed.

Lemma shr_1_spec m r s :
  0 <= m ->
  shr_1 {| shr_m := m; shr_r := r; shr_s := s |} =
  {| shr_m := m / 2; shr_r := Z.odd m; shr_s := r || s |}.
Proof.
  intros Hm. rewrite <- Z.div2_div.
  destruct m as [| [p | p |] |]; try reflexivity. lia.
Qed.

(** After [k] shifts the record holds the quotient by 2^k, the bit below
    it, and whether any lower bit is set. *)
Lemma shr_iter m (k : nat) :
  0 <= m ->
  Nat.iter (S k) shr_1 {| shr_m := m; shr_r := false; shr_s := false |} =
  {| shr_m := m / 2 ^ Z.of_nat (S k);
     shr_r := Z.odd (m / 2 ^ Z.of_nat k);
     shr_s := negb (m mod 2 ^ Z.of_nat k =? 0) |}.
Proof.
  intros Hm. induction k as [| k IH].
  - change (Nat.iter 1 shr_1 ?x) with (shr_1 x). rewrite shr_1_spec by assumption.
    change (2 ^ Z.of_nat 1) with 2. change (2 ^ Z.of_nat 0) with 1.
    rewrite Z.div_1_r, Z.mod_1_r. reflexivity.
  - change (Nat.iter (S (S k)) shr_1 ?x) with (shr_1 (Nat.iter (S k) shr_1 x)).
    rewrite IH.
    assert (P : 0 < 2 ^ Z.of_nat k) by (apply pow2_pos; lia).
    assert (P' : 0 < 2 ^ Z.of_nat (S k)) by (apply pow2_pos; lia).
    rewrite shr_1_spec by (apply Z.div_pos; lia).
    f_equal.
    + rewrite Z.div_div by lia. f_equal.
      rewrite (Nat2Z.inj_succ (S k)), Z.pow_succ_r by lia. lia.
    + assert (E : 2 ^ Z.of_nat (S k) = 2 ^ Z.of_nat k * 2).
      { rewrite Nat2Z.inj_succ, Z.pow_succ_r by lia. lia. }
      rewrite E, Z.rem_mul_r by lia.
      pose proof (Z.mod_pos_bound m (2 ^ Z.of_nat k) P) as B1.
      pose proof (Z.mod_pos_bound (m / 2 ^ Z.of_nat k) 2 ltac:(lia)) as B2.
      rewrite (Zmod_odd (m / 2 ^ Z.of_nat k)) in *.
      destruct (Z.odd (m / 2 ^ Z.of_nat k)), (Z.eqb_spec (m mod 2 ^ Z.of_nat k) 0);
        simpl;
        match goal with
        | |- _ = negb (?a =? 0) => destruct (Z.eqb_spec a 0)
        end; simpl; try reflexivity; nia.
Qed.

(** Shifting out [k] bits and rounding to nearest even is [rne_div]. *)
Lemma round_shr m (k : nat) :
  0 <= m ->
  let mrs := Nat.iter (S k) shr_1 {| shr_m := m; shr_r := false; shr_s := false |} in
  round_nearest_even (shr_m mrs) (loc_of_shr_record mrs)
  = rne_div m (2 ^ Z.of_nat (S k)).
Proof.
  intros Hm. cbv zeta. rewrite shr_iter by assumption.
  assert (P : 0 < 2 ^ Z.of_nat k) by (apply pow2_pos; lia).
  assert (E : 2 ^ Z.of_nat (S k) = 2 ^ Z.of_nat k * 2).
  { rewrite Nat2Z.inj_succ, Z.pow_succ_r by lia. lia. }
  unfold rne_div. cbn [shr_m loc_of_shr_record].
  set (q := m / 2 ^ Z.of_nat (S k)).
  assert (R : m mod 2 ^ Z.of_nat (S k)
              = m mod 2 ^ Z.of_nat k + 2 ^ Z.of_nat k * (if Z.odd (m / 2 ^ Z.of_nat k) then 1 else 0)).
  { rewrite E, Z.rem_mul_r, Zmod_odd by lia. reflexivity. }
  rewrite R, E.
  pose proof (Z.mod_pos_bound m (2 ^ Z.of_nat k) P) as B1.
  destruct (Z.odd (m / 2 ^ Z.of_nat k)), (Z.eqb_spec (m mod 2 ^ Z.of_nat k) 0) as [Z0 | NZ];
    cbn [negb loc_of_shr_record round_nearest_even];
    repeat match goal with
           | |- context [?a <? ?b] => destruct (Z.ltb_spec a b)
           end; try reflexivity; try lia.
Qed.


(** *** Digits and exponents *)

Lemma digits2_size p : digits2_pos p = Pos.size p.
Proof. induction p as [p IH | p IH |]; cbn [digits2_pos Pos.size]; congruence. Qed.

Lemma digits_bitlen p : Z.pos (digits2_pos p) = bitlen (Z.pos p).
Proof.
  rewrite digits2_size. unfold bitlen.
  destruct (Z.eqb_spec (Z.pos p) 0) as [E | _]; [discriminate E |].
  destruct p as [p | p |]; cbn [Z.log2 Pos.size]; lia.
Qed.

Lemma Zdigits_bitlen m : 0 <= m -> Zdigits2 m = bitlen m.
Proof.
  destruct m as [| p | p]; intros H; [reflexivity | apply digits_bitlen | lia].
Qed.

Lemma bitlen_shift m j : 0 < m -> 0 <= j -> bitlen (m * 2 ^ j) = bitlen m + j.
Proof.
  intros Hm Hj. unfold bitlen. pose proof (pow2_pos j Hj).
  destruct (Z.eqb_spec (m * 2 ^ j) 0); [nia |].
  destruct (Z.eqb_spec m 0); [lia |].
  rewrite Z.log2_mul_pow2 by lia. lia.
Qed.

Lemma fexp_binary64 x : fexp prec emax x = Z.max (x - precision) (- quantum).
Proof. reflexivity. Qed.

Lemma shr_spec mrs e n :
  shr mrs e n =
  if 0 <? n then (Nat.iter (Z.to_nat n) shr_1 mrs, e + n) else (mrs, e).
Proof.
  destruct n as [| p | p]; cbn [shr]; try reflexivity.
  rewrite iter_pos_nat, Z2Nat.inj_pos. reflexivity.
Qed.

Lemma shr_fexp_spec m e :
  0 <= m ->
  shr_fexp prec emax m e loc_Exact =
  if 0 <? excess m e
  then (Nat.iter (Z.to_nat (excess m e)) shr_1
          {| shr_m := m; shr_r := false; shr_s := false |}, e + excess m e)
  else ({| shr_m := m; shr_r := false; shr_s := false |}, e).
Proof.
  intros Hm. unfold shr_fexp. rewrite shr_spec, fexp_binary64, Zdigits_bitlen by assumption.
  replace (Z.max (bitlen m + e - precision) (- quantum) - e) with (excess m e)
    by (unfold excess; lia).
  reflexivity.
Qed.

(** Scaling numerator and denominator leaves the rounded quotient alone. *)
Lemma rne_div_scale n d k : 0 < d -> 0 < k -> rne_div (n * k) (d * k) = rne_div n d.
Proof.
  intros Hd Hk. unfold rne_div.
  rewrite Z.div_mul_cancel_r, Z.mul_mod_distr_r by lia.
  repeat match goal with
         | |- context [?a <? ?b] => destruct (Z.ltb_spec a b)
         end; try reflexivity; nia.
Qed.

(** The end of [binary_round_aux]: a mantissa of at most 53 bits, or 2^53,
    is packed, or overflows. *)
Lemma pack_spec s m e :
  0 <= m <= 2 ^ precision -> - quantum <= e ->
  (971 < e -> 2 ^ 52 <= m) ->
  of_spec_float
    (let '(mrs, e') := shr_fexp prec emax m e loc_Exact in
     match shr_m mrs with
     | Z0 => S754_zero s
     | Zpos p => if e' <=? emax - prec then S754_finite s p e' else S754_infinity s
     | Zneg _ => S754_nan
     end)
  = signed s (if m * 2 ^ (e + quantum) <? 2 ^ overflow_exp
              then Fin (m * 2 ^ (e + quantum)) else PosInf).
Proof.
  intros [Hm0 Hm] He Hbig.
  pose proof (eq_refl : quantum = 1074) as Hq.
  pose proof (eq_refl : precision = 53) as Hp.
  assert (P53 : 2 ^ precision = 2 * 2 ^ 52) by reflexivity.
  assert (Q : 0 < 2 ^ (e + quantum)) by (apply pow2_pos; lia).
  assert (OV : 2 ^ overflow_exp = 2 ^ precision * 2 ^ (971 + quantum))
    by (rewrite <- pow2_split by lia; reflexivity).
  rewrite shr_fexp_spec by assumption.
  destruct (Z.eq_dec m (2 ^ precision)) as [E | NE].
  - (* the mantissa 2^53 loses one bit *)
    assert (X : excess m e = 1).
    { unfold excess. rewrite E. unfold bitlen.
      destruct (Z.eqb_spec (2 ^ precision) 0) as [Z0 | _]; [discriminate Z0 |].
      rewrite Z.log2_pow2 by lia. lia. }
    rewrite X. cbn [Z.ltb Z.compare Z.to_nat Pos.to_nat Pos.iter_op Nat.add].
    change (Nat.iter 1 shr_1 ?x) with (shr_1 x). rewrite shr_1_spec by lia.
    rewrite E. change (2 ^ precision / 2) with (Z.pos (2 ^ 52)).
    cbn [shr_m].
    change (emax - prec) with 971.
    assert (S1 : Z.pos (2 ^ 52) * 2 ^ (e + 1 + quantum)
                 = 2 ^ precision * 2 ^ (e + quantum)).
    { replace (e + 1 + quantum) with (1 + (e + quantum)) by lia.
      rewrite (pow2_split 1) by lia.
      change (2 ^ 1) with 2. change (Z.pos (2 ^ 52)) with (2 ^ 52). lia. }
    destruct (Z.leb_spec (e + 1) 971) as [L | L].
    + cbn [of_spec_float]. rewrite S1.
      assert (2 ^ (e + quantum) < 2 ^ (971 + quantum))
        by (apply Z.pow_lt_mono_r; lia).
      destruct (Z.ltb_spec (2 ^ precision * 2 ^ (e + quantum)) (2 ^ overflow_exp));
        [destruct s; reflexivity | nia].
    + cbn [of_spec_float].
      assert (2 ^ (971 + quantum) <= 2 ^ (e + quantum))
        by (apply pow2_le; lia).
      destruct (Z.ltb_spec (2 ^ precision * 2 ^ (e + quantum)) (2 ^ overflow_exp));
        [nia | destruct s; reflexivity].
  - assert (X : excess m e <= 0).
    { unfold excess. pose proof (bitlen_below m precision). lia. }
    destruct (Z.ltb_spec 0 (excess m e)); [lia |].
    cbn [shr_m]. change (emax - prec) with 971.
    destruct m as [| p | p]; [| | lia].
    + cbn [of_spec_float]. rewrite Z.mul_0_l.
      pose proof overflow_pos.
      destruct (Z.ltb_spec 0 (2 ^ overflow_exp)); [destruct s; reflexivity | lia].
    + destruct (Z.leb_spec e 971) as [L | L].
      * cbn [of_spec_float].
        assert (2 ^ (e + quantum) <= 2 ^ (971 + quantum))
          by (apply pow2_le; lia).
        destruct (Z.ltb_spec (Z.pos p * 2 ^ (e + quantum)) (2 ^ overflow_exp));
          [destruct s; reflexivity | nia].
      * cbn [of_spec_float]. specialize (Hbig L).
        assert (2 * 2 ^ (971 + quantum) <= 2 ^ (e + quantum)).
        { replace (2 * 2 ^ (971 + quantum)) with (2 ^ (1 + (971 + quantum)))
            by (rewrite (pow2_split 1) by lia; reflexivity).
          apply pow2_le. lia. }
        destruct (Z.ltb_spec (Z.pos p * 2 ^ (e + quantum)) (2 ^ overflow_exp));
          [nia | destruct s; reflexivity].
Qed.

Lemma drop_excess m e c :
  0 < m -> 0 <= e + quantum + c ->
  drop c (m * 2 ^ (e + quantum + c)) = excess m e + (e + quantum + c).
Proof.
  intros Hm Hj. unfold drop, excess. rewrite bitlen_shift by assumption. lia.
Qed.

(** [binary_round_aux] on an exact mantissa is [round_pos]. *)
Lemma binary_round_aux_spec s m e c :
  0 < m -> 0 <= c -> 0 <= e + quantum + c ->
  (excess m e < 0 -> e <= 971) ->
  of_spec_float (binary_round_aux prec emax s m e loc_Exact)
  = signed s (round_pos c (m * 2 ^ (e + quantum + c))).
Proof.
  intros Hm Hc Hj Hcanon.
  pose proof (eq_refl : quantum = 1074) as Hq.
  pose proof (eq_refl : precision = 53) as Hp.
  assert (P53 : 2 ^ precision = 2 * 2 ^ 52) by reflexivity.
  set (j := e + quantum + c) in *.
  assert (J : 0 < 2 ^ j) by (apply pow2_pos; lia).
  pose proof (drop_excess m e c Hm Hj) as D. fold j in D.
  pose proof (bitlen_upper m ltac:(lia)) as BU.
  pose proof (bitlen_lower m Hm) as BL.
  pose proof (bitlen_nonneg m) as BN.
  unfold binary_round_aux. rewrite shr_fexp_spec by lia.
  rewrite round_pos_unfold. unfold rounded. rewrite D.
  destruct (Z.ltb_spec 0 (excess m e)) as [X | X].
  - (* some bits are shifted out *)
    destruct (Z.to_nat (excess m e)) as [| k] eqn:K; [lia |].
    pose proof (round_shr m k ltac:(lia)) as R. cbv zeta in R.
    replace (Z.of_nat (S k)) with (excess m e) in R by lia.
    cbv beta iota. rewrite R.
    assert (PX : 0 < 2 ^ excess m e) by (apply pow2_pos; lia).
    assert (Hlo : 0 <= rne_div m (2 ^ excess m e))
      by (apply rne_div_nonneg; lia).
    assert (Hhi : rne_div m (2 ^ excess m e) <= 2 ^ precision).
    { assert (Hle : m <= 2 ^ precision * 2 ^ excess m e).
      { rewrite <- pow2_split by lia.
        assert (2 ^ bitlen m <= 2 ^ (precision + excess m e)); [| lia].
        apply pow2_le. unfold excess. lia. }
      pose proof (rne_div_mono _ _ _ PX Hle) as M.
      rewrite rne_div_exact in M by assumption. exact M. }
    rewrite pack_spec.
    + rewrite (pow2_split (excess m e) j), rne_div_scale by lia.
      replace (excess m e + j - c) with (e + excess m e + quantum) by (unfold j; lia).
      reflexivity.
    + lia.
    + unfold excess. lia.
    + intros Hbig.
      assert (EX : excess m e = bitlen m - precision) by (unfold excess in *; lia).
      assert (Hge : 2 ^ 52 * 2 ^ excess m e <= m).
      { rewrite <- pow2_split by lia.
        replace (52 + excess m e) with (bitlen m - 1) by lia. exact BL. }
      pose proof (rne_div_mono _ _ _ PX Hge) as M.
      rewrite rne_div_exact in M by assumption. exact M.
  - (* nothing is shifted out *)
    cbv beta iota. cbn [shr_m loc_of_shr_record round_nearest_even].
    assert (Hm53 : m < 2 ^ precision).
    { assert (2 ^ bitlen m <= 2 ^ precision); [| lia].
      apply pow2_le. unfold excess in X. lia. }
    rewrite pack_spec.
    + assert (PD : 0 < 2 ^ (excess m e + j)) by (apply pow2_pos; unfold excess; lia).
      assert (E : m * 2 ^ j = m * 2 ^ (- excess m e) * 2 ^ (excess m e + j)).
      { rewrite <- Z.mul_assoc, <- pow2_split by (unfold excess in *; lia).
        do 2 f_equal. lia. }
      assert (R : rne_div (m * 2 ^ j) (2 ^ (excess m e + j))
                  * 2 ^ (excess m e + j - c) = m * 2 ^ (e + quantum)).
      { rewrite E, rne_div_exact by assumption.
        rewrite <- Z.mul_assoc, <- pow2_split by (unfold excess in *; lia).
        do 2 f_equal. unfold j. lia. }
      rewrite R. reflexivity.
    + lia.
    + unfold excess in X. lia.
    + intros Hbig.
      assert (EX : bitlen m = precision) by (unfold excess in *; lia).
      rewrite EX in BL. exact BL.
Qed.

(** *** Valid floats *)

(** The mantissa and exponent of a valid finite float are canonical. *)
Lemma valid_finite s m e :
  valid_binary (S754_finite s m e) = true ->
  excess (Z.pos m) e = 0 /\ - quantum <= e <= 971.
Proof.
  unfold SpecFloat.valid_binary, bounded, canonical_mantissa.
  rewrite andb_true_iff, Z.eqb_eq, Z.leb_le, fexp_binary64, digits_bitlen.
  change (emax - prec) with 971. unfold excess. lia.
Qed.

Lemma valid_finite_bits s m e :
  valid_binary (S754_finite s m e) = true ->
  bitlen (Z.pos m) <= precision /\ (- quantum < e -> bitlen (Z.pos m) = precision).
Proof. intros H. apply valid_finite in H. unfold excess in H. lia. Qed.

Lemma bitlen_mul a b : 0 < a -> 0 < b -> bitlen a + bitlen b - 1 <= bitlen (a * b).
Proof.
  intros Ha Hb.
  pose proof (bitlen_lower a Ha). pose proof (bitlen_lower b Hb).
  pose proof (bitlen_upper (a * b) ltac:(nia)).
  pose proof (bitlen_nonneg (a * b)).
  assert (La : 1 <= bitlen a).
  { unfold bitlen. destruct (Z.eqb_spec a 0); [lia |]. pose proof (Z.log2_nonneg a). lia. }
  assert (Lb : 1 <= bitlen b).
  { unfold bitlen. destruct (Z.eqb_spec b 0); [lia |]. pose proof (Z.log2_nonneg b). lia. }
  assert (2 ^ (bitlen a - 1 + (bitlen b - 1)) < 2 ^ bitlen (a * b)).
  { rewrite pow2_split by lia. nia. }
  apply Z.pow_lt_mono_r_iff in H3; lia.
Qed.

Lemma magnitude_pos m e : - quantum <= e -> 0 < magnitude m e.
Proof. intros H. unfold magnitude. pose proof (pow2_pos (e + quantum)). nia. Qed.

Lemma of_spec_float_finite s m e :
  of_spec_float (S754_finite s m e) = signed s (Fin (magnitude m e)).
Proof. destruct s; reflexivity. Qed.

Lemma round_signed c (s : bool) n :
  0 <= c -> 0 <= n -> round c (if s then - n else n) = signed s (round_pos c n).
Proof.
  intros Hc Hn. unfold round. destruct s; cbn [signed].
  - destruct (Z.leb_spec 0 (- n)) as [L | L].
    + assert (n = 0) by lia. subst n. change (- 0) with 0.
      rewrite !round_pos_zero by assumption. reflexivity.
    + rewrite Z.opp_involutive. reflexivity.
  - destruct (Z.leb_spec 0 n); [reflexivity | lia].
Qed.

(** *** Multiplication *)

Ltac sign_cases' :=
  repeat match goal with
         | |- context [?a =? 0] => destruct (Z.eqb_spec a 0)
         | |- context [0 <? ?a] => destruct (Z.ltb_spec 0 a)
         end.

Ltac easy_case f :=
  cbn [f of_spec_float];
  repeat match goal with
         | b : bool |- _ => destruct b
         end;
  reflexivity.

Theorem SFmul_spec x y :
  valid_binary x = true -> valid_binary y = true ->
  of_spec_float (SFmul prec emax x y) = (of_spec_float x * of_spec_float y)%num.
Proof.
  intros Vx Vy.
  destruct x as [sx | sx | | sx mx ex], y as [sy | sy | | sy my ey];
    try (easy_case SFmul).
  - (* infinity by finite *)
    apply valid_finite in Vy. pose proof (magnitude_pos my ey ltac:(lia)) as P.
    cbn [SFmul]. rewrite of_spec_float_finite. cbn [of_spec_float].
    destruct sx, sy; cbn [signed neg xorb]; unfold mul; sign_cases';
      try reflexivity; lia.
  - (* finite by zero *)
    cbn [SFmul]. rewrite of_spec_float_finite. cbn [of_spec_float].
    destruct sx; cbn [signed neg]; unfold mul; rewrite Z.mul_0_r;
      rewrite round_zero by (unfold quantum; lia); reflexivity.
  - (* finite by infinity *)
    apply valid_finite in Vx. pose proof (magnitude_pos mx ex ltac:(lia)) as P.
    cbn [SFmul]. rewrite of_spec_float_finite. cbn [of_spec_float].
    destruct sx, sy; cbn [signed neg xorb]; unfold mul; sign_cases';
      try reflexivity; lia.
  - (* finite by finite *)
    pose proof (valid_finite_bits _ _ _ Vx) as [Bx Nx].
    pose proof (valid_finite_bits _ _ _ Vy) as [By Ny].
    apply valid_finite in Vx, Vy.
    pose proof (eq_refl : quantum = 1074) as Hq.
    pose proof (eq_refl : precision = 53) as Hp.
    cbn [SFmul]. rewrite (binary_round_aux_spec _ _ _ quantum); try lia.
    + rewrite !of_spec_float_finite.
      assert (E : forall a b : bool,
                 (signed a (Fin (magnitude mx ex)) * signed b (Fin (magnitude my ey)))%num
                 = round quantum (if xorb a b
                                  then - (magnitude mx ex * magnitude my ey)
                                  else magnitude mx ex * magnitude my ey)).
      { intros [] []; cbn [signed neg xorb]; unfold mul; f_equal; lia. }
      rewrite E, round_signed.
      * f_equal. f_equal. unfold magnitude.
        replace (ex + ey + quantum + quantum) with ((ex + quantum) + (ey + quantum)) by lia.
        rewrite pow2_split by lia. rewrite Pos2Z.inj_mul. ring.
      * lia.
      * pose proof (magnitude_pos mx ex ltac:(lia)).
        pose proof (magnitude_pos my ey ltac:(lia)). nia.
    + intros X. unfold excess in X.
      pose proof (bitlen_mul (Z.pos mx) (Z.pos my) ltac:(lia) ltac:(lia)) as B.
      rewrite <- Pos2Z.inj_mul in B. lia.
Qed.

(** *** Addition and subtraction *)

Lemma pos_iter_xO m d : Z.pos (Pos.iter xO m d) = Z.pos m * 2 ^ Z.pos d.
Proof.
  induction d as [| d IH] using Pos.peano_ind.
  - cbn [Pos.iter]. change (2 ^ 1) with 2. lia.
  - rewrite Pos.iter_succ, Pos2Z.inj_succ, Z.pow_succ_r by lia.
    rewrite Pos2Z.inj_xO, IH. ring.
Qed.

(** [shl_align] lowers the exponent to [e'] when that is below [e], and
    keeps the value. *)
Lemma shl_align_spec m e e' :
  snd (shl_align m e e') = Z.min e e' /\
  Z.pos (fst (shl_align m e e')) = Z.pos m * 2 ^ (e - Z.min e e').
Proof.
  unfold shl_align. destruct (e' - e) as [| d | d] eqn:E; cbn [fst snd].
  - replace (Z.min e e') with e by lia. rewrite Z.sub_diag. lia.
  - replace (Z.min e e') with e by lia. rewrite Z.sub_diag. lia.
  - replace (Z.min e e') with e' by lia. rewrite pos_iter_xO.
    split; [reflexivity |]. do 2 f_equal. lia.
Qed.

Lemma binary_round_spec s p e :
  - quantum <= e ->
  of_spec_float (binary_round prec emax s p e)
  = signed s (round_pos 0 (magnitude p e)).
Proof.
  intros He. unfold binary_round.
  pose proof (eq_refl : quantum = 1074) as Hq.
  pose proof (eq_refl : precision = 53) as Hp.
  set (f := fexp prec emax (Z.pos (digits2_pos p) + e)).
  assert (F : f = Z.max (bitlen (Z.pos p) + e - precision) (- quantum)).
  { unfold f. rewrite fexp_binary64, digits_bitlen. reflexivity. }
  destruct (shl_align_spec p e f) as [E1 E2].
  destruct (shl_align p e f) as [mz ez]. cbn [fst snd] in E1, E2.
  assert (B : bitlen (Z.pos mz) = bitlen (Z.pos p) + (e - ez)).
  { rewrite E2, E1. apply bitlen_shift; lia. }
  rewrite (binary_round_aux_spec _ _ _ 0); try lia.
  - f_equal. f_equal. unfold magnitude. rewrite E2, Z.add_0_r, <- Z.mul_assoc.
    rewrite <- pow2_split by lia. do 2 f_equal. lia.
  - unfold excess. lia.
Qed.

Lemma binary_normalize_spec z e :
  - quantum <= e ->
  of_spec_float (binary_normalize prec emax z e false) = round 0 (z * 2 ^ (e + quantum)).
Proof.
  intros He. pose proof (pow2_pos (e + quantum)) as P.
  destruct z as [| p | p]; cbn [binary_normalize].
  - cbn [of_spec_float Z.mul]. rewrite round_zero by lia. reflexivity.
  - rewrite binary_round_spec by assumption. cbn [signed].
    unfold round, magnitude. destruct (Z.leb_spec 0 (Z.pos p * 2 ^ (e + quantum))); [reflexivity | nia].
  - rewrite binary_round_spec by assumption.
    rewrite <- (round_signed 0 true) by (unfold magnitude; nia).
    f_equal. unfold magnitude. lia.
Qed.

Lemma of_spec_float_value s m e : of_spec_float (S754_finite s m e) = Fin (value_of s m e).
Proof. reflexivity. Qed.

(** A valid float is a double of the model. *)
Lemma valid_double s m e :
  valid_binary (S754_finite s m e) = true -> double (Fin (value_of s m e)).
Proof.
  intros V. pose proof (valid_finite_bits _ _ _ V) as [B _]. apply valid_finite in V.
  pose proof (eq_refl : quantum = 1074) as Hq.
  pose proof (eq_refl : precision = 53) as Hp.
  pose proof (magnitude_pos m e ltac:(lia)) as P.
  assert (A : Z.abs (value_of s m e) = magnitude m e)
    by (unfold value_of; destruct s; lia).
  cbn [double]. rewrite A. unfold magnitude.
  assert (D : drop 0 (Z.pos m * 2 ^ (e + quantum)) = e + quantum).
  { unfold drop. rewrite bitlen_shift by lia. unfold excess in V. lia. }
  rewrite D. split.
  - apply Z.mod_mul. pose proof (pow2_pos (e + quantum)). lia.
  - pose proof (bitlen_upper (Z.pos m) ltac:(lia)).
    assert (2 ^ bitlen (Z.pos m) <= 2 ^ precision) by (apply pow2_le; pose proof (bitlen_nonneg (Z.pos m)); lia).
    assert (2 ^ (e + quantum) <= 2 ^ (971 + quantum)) by (apply pow2_le; lia).
    assert (OV : 2 ^ overflow_exp = 2 ^ precision * 2 ^ (971 + quantum))
      by (rewrite <- pow2_split by lia; reflexivity).
    pose proof (pow2_pos (e + quantum)). nia.
Qed.

Lemma round_valid s m e :
  valid_binary (S754_finite s m e) = true ->
  round 0 (value_of s m e) = Fin (value_of s m e).
Proof.
  intros V. pose proof (valid_double s m e V) as D.
  apply valid_finite in V. pose proof (magnitude_pos m e ltac:(lia)) as P.
  unfold value_of in *. destruct s.
  - rewrite (round_signed 0 true) by lia. cbn [signed].
    apply neg_double in D. cbn [neg] in D. rewrite Z.opp_involutive in D.
    pose proof (round_id (magnitude m e) (Z.lt_le_incl _ _ P) D) as R. unfold round in R.
    destruct (Z.leb_spec 0 (magnitude m e)); [| lia].
    rewrite R. reflexivity.
  - apply round_id; [lia | assumption].
Qed.

(** The two mantissas of a sum, aligned on the lower exponent. *)
Lemma aligned_value s m e e' :
  - quantum <= e' -> e' <= e ->
  cond_Zopp s (Z.pos (fst (shl_align m e e'))) * 2 ^ (e' + quantum) = value_of s m e.
Proof.
  intros H1 H2. destruct (shl_align_spec m e e') as [_ E]. rewrite E.
  replace (Z.min e e') with e' by lia.
  unfold value_of, magnitude, cond_Zopp.
  replace (e + quantum) with ((e - e') + (e' + quantum)) by lia.
  rewrite (pow2_split (e - e') (e' + quantum)) by lia. destruct s; ring.
Qed.

Theorem SFadd_spec x y :
  valid_binary x = true -> valid_binary y = true ->
  of_spec_float (SFadd prec emax x y) = (of_spec_float x + of_spec_float y)%num.
Proof.
  intros Vx Vy.
  destruct x as [sx | sx | | sx mx ex], y as [sy | sy | | sy my ey];
    try (easy_case SFadd).
  - (* zero and finite *)
    cbn [SFadd]. rewrite of_spec_float_value. cbn [of_spec_float]. unfold add.
    cbn [Z.add]. symmetry. apply round_valid. assumption.
  - (* finite and zero *)
    cbn [SFadd]. rewrite of_spec_float_value. cbn [of_spec_float]. unfold add.
    rewrite Z.add_0_r. symmetry. apply round_valid. assumption.
  - (* finite and finite *)
    cbn [SFadd]. rewrite !of_spec_float_value. unfold add.
    apply valid_finite in Vx, Vy.
    rewrite binary_normalize_spec by lia.
    f_equal. rewrite Z.mul_add_distr_r.
    rewrite !aligned_value by lia. reflexivity.
Qed.

Theorem SFsub_spec x y :
  valid_binary x = true -> valid_binary y = true ->
  of_spec_float (SFsub prec emax x y) = (of_spec_float x - of_spec_float y)%num.
Proof.
  intros Vx Vy.
  destruct x as [sx | sx | | sx mx ex], y as [sy | sy | | sy my ey];
    try (easy_case SFsub).
  - (* zero and finite *)
    cbn [SFsub]. rewrite !of_spec_float_value. cbn [of_spec_float]. unfold sub, add.
    cbn [neg Z.add].
    replace (- value_of sy my ey) with (value_of (negb sy) my ey)
      by (unfold value_of; destruct sy; cbn [negb]; lia).
    symmetry. apply round_valid. exact Vy.
  - (* finite and zero *)
    cbn [SFsub]. rewrite of_spec_float_value. cbn [of_spec_float]. unfold sub, add.
    cbn [neg Z.opp]. rewrite Z.add_0_r. symmetry. apply round_valid. assumption.
  - (* finite and finite *)
    cbn [SFsub]. rewrite !of_spec_float_value. unfold sub, add. cbn [neg].
    apply valid_finite in Vx, Vy.
    rewrite binary_normalize_spec by lia.
    f_equal. rewrite Z.mul_sub_distr_r.
    rewrite !aligned_value by lia. lia.
Qed.

(** *** Comparison *)

Lemma ltb_compare x y :
  (x <? y)%num = match num_compare x y with Some Lt => true | _ => false end.
Proof. destruct x, y; reflexivity. Qed.

Lemma leb_compare x y :
  (x <=? y)%num = match num_compare x y with Some (Lt | Eq) => true | _ => false end.
Proof.
  destruct x as [| | a |], y as [| | b |]; try reflexivity.
  all: cbn [leb num_compare]; unfold Z.leb; destruct (a ?= b); reflexivity.
Qed.

(** Among valid floats a larger exponent means a larger magnitude. *)
Lemma magnitude_lt m1 e1 m2 e2 :
  valid_binary (S754_finite false m1 e1) = true ->
  valid_binary (S754_finite false m2 e2) = true ->
  e1 < e2 -> magnitude m1 e1 < magnitude m2 e2.
Proof.
  intros V1 V2 H.
  pose proof (valid_finite_bits _ _ _ V1) as [B1 _].
  pose proof (valid_finite_bits _ _ _ V2) as [_ B2].
  apply valid_finite in V1, V2.
  pose proof (eq_refl : quantum = 1074) as Hq.
  pose proof (eq_refl : precision = 53) as Hp.
  pose proof (bitlen_upper (Z.pos m1) ltac:(lia)) as U.
  pose proof (bitlen_lower (Z.pos m2) ltac:(lia)) as L.
  rewrite B2 in L by lia.
  assert (U' : 2 ^ bitlen (Z.pos m1) <= 2 ^ precision)
    by (apply pow2_le; pose proof (bitlen_nonneg (Z.pos m1)); lia).
  unfold magnitude.
  pose proof (pow2_pos (e1 + quantum) ltac:(lia)) as P1.
  assert (S : 2 * 2 ^ (e1 + quantum) <= 2 ^ (e2 + quantum)).
  { replace (2 * 2 ^ (e1 + quantum)) with (2 ^ (1 + (e1 + quantum)))
      by (rewrite (pow2_split 1) by lia; reflexivity).
    apply pow2_le. lia. }
  assert (P53 : 2 ^ precision = 2 * 2 ^ (precision - 1)) by reflexivity.
  nia.
Qed.

Lemma magnitude_compare m1 e1 m2 e2 :
  valid_binary (S754_finite false m1 e1) = true ->
  valid_binary (S754_finite false m2 e2) = true ->
  (magnitude m1 e1 ?= magnitude m2 e2)
  = match e1 ?= e2 with
    | Lt => Lt
    | Gt => Gt
    | Eq => Pos.compare_cont Eq m1 m2
    end.
Proof.
  intros V1 V2. destruct (Z.compare_spec e1 e2) as [E | L | G].
  - subst e2. apply valid_finite in V1. unfold magnitude.
    pose proof (pow2_pos (e1 + quantum) ltac:(unfold quantum in *; lia)).
    rewrite <- Zmult_compare_compat_r by lia. reflexivity.
  - apply Z.compare_lt_iff, magnitude_lt; assumption.
  - apply Z.compare_gt_iff, magnitude_lt; assumption.
Qed.

Theorem SFcompare_spec x y :
  valid_binary x = true -> valid_binary y = true ->
  SFcompare x y = num_compare (of_spec_float x) (of_spec_float y).
Proof.
  intros Vx Vy.
  destruct x as [sx | sx | | sx mx ex], y as [sy | sy | | sy my ey];
    try (cbn [SFcompare of_spec_float];
         repeat match goal with b : bool |- _ => destruct b end;
         reflexivity).
  - (* zero and finite *)
    apply valid_finite in Vy. pose proof (magnitude_pos my ey ltac:(lia)) as P.
    cbn [SFcompare]. rewrite of_spec_float_value. cbn [of_spec_float num_compare].
    f_equal. unfold value_of. destruct sy; symmetry;
      [apply Z.compare_gt_iff | apply Z.compare_lt_iff]; lia.
  - (* finite and zero *)
    apply valid_finite in Vx. pose proof (magnitude_pos mx ex ltac:(lia)) as P.
    cbn [SFcompare]. rewrite of_spec_float_value. cbn [of_spec_float num_compare].
    f_equal. unfold value_of. destruct sx; symmetry;
      [apply Z.compare_lt_iff | apply Z.compare_gt_iff]; lia.
  - (* finite and finite *)
    cbn [SFcompare]. rewrite !of_spec_float_value. cbn [num_compare]. f_equal.
    assert (Vx' : valid_binary (S754_finite false mx ex) = true) by exact Vx.
    assert (Vy' : valid_binary (S754_finite false my ey) = true) by exact Vy.
    pose proof (magnitude_compare mx ex my ey Vx' Vy') as C.
    pose proof (magnitude_compare my ey mx ex Vy' Vx') as C'.
    apply valid_finite in Vx, Vy.
    pose proof (magnitude_pos mx ex ltac:(lia)) as Px.
    pose proof (magnitude_pos my ey ltac:(lia)) as Py.
    unfold value_of. destruct sx, sy.
    + rewrite Z.compare_opp, C'. rewrite (Z.compare_antisym ey ex).
      destruct (ey ?= ex); cbn [CompOpp]; try reflexivity.
      change (Pos.compare_cont Eq my mx) with (my ?= mx)%positive.
      change (Pos.compare_cont Eq mx my) with (mx ?= my)%positive.
      symmetry. apply Pos.compare_antisym.
    + symmetry. apply Z.compare_lt_iff. lia.
    + symmetry. apply Z.compare_gt_iff. lia.
    + rewrite C. reflexivity.
Qed.

(** *** The primitive floats

    With the axioms that specify the kernel's binary64 operations, the
    arithmetic of the model is that of the machine. *)

Theorem mul_float x y : of_float (x * y)%float = (of_float x * of_float y)%num.
Proof. unfold of_float. rewrite mul_spec. apply SFmul_spec; apply Prim2SF_valid. Qed.

Theorem add_float x y : of_float (x + y)%float = (of_float x + of_float y)%num.
Proof. unfold of_float. rewrite add_spec. apply SFadd_spec; apply Prim2SF_valid. Qed.

Theorem sub_float x y : of_float (x - y)%float = (of_float x - of_float y)%num.
Proof. unfold of_float. rewrite sub_spec. apply SFsub_spec; apply Prim2SF_valid. Qed.

Theorem ltb_float x y : (x <? y)%float = (of_float x <? of_float y)%num.
Proof.
  unfold of_float. rewrite ltb_spec, ltb_compare. unfold SFltb.
  rewrite SFcompare_spec by apply Prim2SF_valid. reflexivity.
Qed.

Theorem leb_float x y : (x <=? y)%float = (of_float x <=? of_float y)%num.
Proof.
  unfold of_float. rewrite leb_spec, leb_compare. unfold SFleb.
  rewrite SFcompare_spec by apply Prim2SF_valid. reflexivity.
Qed.

End SpecFloat.

(** *** The literals of the source

    The kernel's parser of decimal literals gives the doubles [of_decimal]
    computes, and the second scenario of the specification evaluates to the
    same double on the primitive floats and in the model. *)

Section Literals.

#[local] Set Warnings "-inexact-float".

Example multipliers_agree :
  map of_float [1.0; 1.05; 1.1; 1.3; 1.6; 1.2; 1.5; 1.8; 1.15]%float
  = [of_decimal 10 10; of_decimal 105 100; of_decimal 11 10; of_decimal 13 10;
     of_decimal 16 10; of_decimal 12 10; of_decimal 15 10; of_decimal 18 10;
     of_decimal 115 100].
Proof. vm_compute. reflexivity. Qed.

Example integers_agree :
  map of_float [0; 2; 4; 5; 7; 8; 10; 12; 13; 14; 19; 20; 21; 85]%float
  = map of_Z [0; 2; 4; 5; 7; 8; 10; 12; 13; 14; 19; 20; 21; 85].
Proof. vm_compute. reflexivity. Qed.

Example scenario_sum_agrees :
  of_float (12 + 3 * 2 + 12 * 4 * 1.6 * 1.8 * 1.15)%float
  = (of_Z 12 + of_Z 3 * of_Z 2
     + of_Z 12 * of_Z 4 * of_decimal 16 10 * of_decimal 18 10
       * of_decimal 115 100)%num.
Proof. vm_compute. reflexivity. Qed.

(** The adjusted base time of [calculateDeliveryTime], computed on the
    primitive floats, is the one the model computes. *)
Lemma base_time_float (distance weather_multiplier traffic_multiplier : float) :
  of_float (distance * 4 * weather_multiplier * traffic_multiplier * 1.15)%float
  = (of_float distance * of_Z 4 * of_float weather_multiplier
     * of_float traffic_multiplier * of_decimal 115 100)%num.
Proof.
  rewrite !mul_float.
  replace (of_float 4%float) with (of_Z 4) by (vm_compute; reflexivity).
  replace (of_float 1.15%float) with (of_decimal 115 100) by (vm_compute; reflexivity).
  reflexivity.
Qed.

End Literals.

(** Evaluates a closed statement about numbers. *)
Ltac by_computation := vm_compute; first [reflexivity | exact I | discriminate].

(* ===================================================================== *)
(** * Part IV.  The heuristic *)
(* ===================================================================== *)

Section Heuristic.

(** The constants are evaluated by [vm_compute] only. *)
Opaque of_Z of_decimal round.

(** *** The constants of the source *)

Lemma positive_4 : is_positive (of_Z 4).
Proof. by_computation. Qed.

Lemma positive_2 : is_positive (of_Z 2).
Proof. by_computation. Qed.

Lemma integral_2 : integral (of_Z 2).
Proof. apply of_Z_integral. lia. Qed.

Lemma positive_surcharge : is_positive (of_decimal 115 100).
Proof. by_computation. Qed.

Lemma elem_of_weather_values w :
  w ∈ weather_values ->
  w = "Clear" \/ w = "Cloudy" \/ w = "Hot" \/ w = "Rain" \/ w = "Heavy Rain".
Proof. unfold weather_values. rewrite !elem_of_cons, elem_of_nil. tauto. Qed.

Lemma elem_of_traffic_values t :
  t ∈ traffic_values ->
  t = "Low" \/ t = "Medium" \/ t = "High" \/ t = "Very High".
Proof. unfold traffic_values. rewrite !elem_of_cons, elem_of_nil. tauto. Qed.

Lemma weather_multiplier_positive w :
  w ∈ weather_values -> is_positive (ToNumber (weatherMultipliers !! w)).
Proof.
  intros H. apply elem_of_weather_values in H.
  destruct H as [-> | [-> | [-> | [-> | ->]]]]; by_computation.
Qed.

Lemma traffic_multiplier_positive t :
  t ∈ traffic_values -> is_positive (ToNumber (trafficMultipliers !! t)).
Proof.
  intros H. apply elem_of_traffic_values in H.
  destruct H as [-> | [-> | [-> | ->]]]; by_computation.
Qed.

Lemma weather_impact_defined w :
  w ∈ weather_values -> exists s, weatherImpacts !! w = Some s.
Proof.
  intros H. apply elem_of_weather_values in H.
  destruct H as [-> | [-> | [-> | [-> | ->]]]]; eexists; vm_compute; reflexivity.
Qed.

Lemma traffic_impact_defined t :
  t ∈ traffic_values -> exists s, trafficImpacts !! t = Some s.
Proof.
  intros H. apply elem_of_traffic_values in H.
  destruct H as [-> | [-> | [-> | ->]]]; eexists; vm_compute; reflexivity.
Qed.

(** The multipliers grow with the severity. *)
Lemma weather_multipliers_sorted (i j : nat) w1 w2 :
  (i <= j)%nat ->
  weather_values !! i = Some w1 -> weather_values !! j = Some w2 ->
  (ToNumber (weatherMultipliers !! w1) <=? ToNumber (weatherMultipliers !! w2))%num
  = true.
Proof.
  intros Hij H1 H2.
  destruct i as [| [| [| [| [| i]]]]]; destruct j as [| [| [| [| [| j]]]]];
    simpl in H1, H2; try discriminate; try lia;
    injection H1 as <-; injection H2 as <-; by_computation.
Qed.

Lemma traffic_multipliers_sorted (i j : nat) t1 t2 :
  (i <= j)%nat ->
  traffic_values !! i = Some t1 -> traffic_values !! j = Some t2 ->
  (ToNumber (trafficMultipliers !! t1) <=? ToNumber (trafficMultipliers !! t2))%num
  = true.
Proof.
  intros Hij H1 H2.
  destruct i as [| [| [| [| i]]]]; destruct j as [| [| [| [| j]]]];
    simpl in H1, H2; try discriminate; try lia;
    injection H1 as <-; injection H2 as <-; by_computation.
Qed.

(** *** The parts of the computation *)

Lemma same_value_zero_eq x y : same_value_zero x y = true <-> x = y.
Proof.
  destruct x, y; simpl; split; intros H; try discriminate; try reflexivity.
  - apply Z.eqb_eq in H. congruence.
  - injection H as ->. apply Z.eqb_refl.
Qed.

Lemma includes_In l x : includes l x = true <-> In x l.
Proof.
  unfold includes. rewrite existsb_exists. split.
  - intros (y & Hy & E). apply same_value_zero_eq in E. congruence.
  - intros H. exists x. split; [assumption | apply same_value_zero_eq; reflexivity].
Qed.

(** The total of [calculateDeliveryTime], with the order of its
    operations. *)
Lemma time_unfold distance weather traffic hour items :
  time (calculateDeliveryTime distance weather traffic hour items) =
  let adjusted :=
    (distance * of_Z 4 * ToNumber (weatherMultipliers !! weather)
     * ToNumber (trafficMultipliers !! traffic))%num in
  Math_round
    (of_Z 12 + items * of_Z 2
     + (if includes peakHours hour then adjusted * of_decimal 115 100
        else adjusted))%num.
Proof. reflexivity. Qed.

Lemma prepTime_nonneg items : nonneg items -> nonneg (of_Z 12 + items * of_Z 2)%num.
Proof.
  intros H. apply add_nonneg.
  - apply of_Z_nonneg. lia.
  - apply mul_nonneg; [assumption | apply positive_2].
Qed.

Lemma prepTime_integral items :
  nonneg items -> integral items -> integral (of_Z 12 + items * of_Z 2)%num.
Proof.
  intros H I. apply add_integral.
  - apply of_Z_nonneg. lia.
  - apply of_Z_integral. lia.
  - apply mul_nonneg; [assumption | apply positive_2].
  - apply mul_integral; [assumption | assumption | apply positive_2 | apply integral_2].
Qed.

Lemma adjusted_nonneg distance wm tm :
  nonneg distance -> is_positive wm -> is_positive tm ->
  nonneg (distance * of_Z 4 * wm * tm)%num.
Proof.
  intros Hd Hw Ht. apply mul_nonneg; [| exact Ht].
  apply mul_nonneg; [| exact Hw].
  apply mul_nonneg; [exact Hd | apply positive_4].
Qed.

Lemma surcharge_nonneg (peak : bool) x :
  nonneg x -> nonneg (if peak then x * of_decimal 115 100 else x)%num.
Proof.
  intros H. destruct peak; [| exact H].
  apply mul_nonneg; [exact H | apply positive_surcharge].
Qed.

Lemma surcharge_mono (peak : bool) x y :
  (x <=? y)%num = true ->
  ((if peak then x * of_decimal 115 100 else x)
   <=? (if peak then y * of_decimal 115 100 else y))%num = true.
Proof.
  intros H. destruct peak; [| exact H].
  apply mul_mono_l; [apply positive_surcharge | exact H].
Qed.

(** The total grows with the adjusted base time. *)
Lemma total_mono prep (peak : bool) x y :
  nonneg prep -> nonneg x -> (x <=? y)%num = true ->
  (Math_round (prep + (if peak then x * of_decimal 115 100 else x))
   <=? Math_round (prep + (if peak then y * of_decimal 115 100 else y)))%num
  = true.
Proof.
  intros Hp Hx Hxy. apply Math_round_mono, add_mono_r.
  - assumption.
  - apply surcharge_nonneg. assumption.
  - apply surcharge_mono. assumption.
Qed.

(** The total is at least an integral preparation time. *)
Lemma total_ge_prep prep base :
  double prep -> nonneg prep -> integral prep -> nonneg base ->
  (prep <=? Math_round (prep + base))%num = true.
Proof.
  intros Hd Hp Hi Hb.
  rewrite <- (Math_round_integral prep Hi) at 1.
  apply Math_round_mono, add_ge_l; assumption.
Qed.

(** *** The confidence *)

Lemma confidence_unfold distance weather traffic hour items :
  confidence (calculateDeliveryTime distance weather traffic hour items) =
  let c := of_Z 85 in
  let c := if String.eqb weather "Heavy Rain" then (c - of_Z 10)%num else c in
  let c := if String.eqb traffic "Very High" then (c - of_Z 8)%num else c in
  if (distance >? of_Z 10)%num then (c - of_Z 5)%num else c.
Proof. reflexivity. Qed.

(** The confidence, whatever the arguments: the start value 85 less the
    penalties that apply. *)
Lemma confidence_value distance weather traffic hour items :
  confidence (calculateDeliveryTime distance weather traffic hour items) =
  of_Z (85 - (if String.eqb weather "Heavy Rain" then 10 else 0)
           - (if String.eqb traffic "Very High" then 8 else 0)
           - (if (distance >? of_Z 10)%num then 5 else 0)).
Proof.
  rewrite confidence_unfold.
  destruct (String.eqb weather "Heavy Rain"), (String.eqb traffic "Very High"),
    (distance >? of_Z 10)%num; by_computation.
Qed.

Lemma offline_confidence_value c :
  62 <= c <= 85 ->
  (of_Z c - of_Z 10)%num = of_Z (c - 10) /\
  Math_max (of_Z 0) (of_Z (c - 10)) = of_Z (c - 10).
Proof.
  intros H.
  assert (P : 85 < 2 ^ precision) by reflexivity.
  split.
  - unfold sub. rewrite !of_Z_small by lia. simpl neg. unfold add.
    rewrite <- (round_small_integer 0 (c - 10)) by lia.
    f_equal. rewrite Z.add_0_r. ring.
  - rewrite (of_Z_small 0), (of_Z_small (c - 10)) by lia.
    assert (Q : 0 < 2 ^ quantum) by (apply pow2_pos; unfold quantum; lia).
    simpl. destruct (Z.leb_spec (0 * 2 ^ quantum) ((c - 10) * 2 ^ quantum)); [reflexivity | nia].
Qed.

Lemma between_of_Z lo hi c : lo <= c <= hi -> between lo hi (of_Z c).
Proof. intros H. split; apply of_Z_mono; lia. Qed.

End Heuristic.

(* ===================================================================== *)
(** * Part V.  Properties of the heuristic *)
(* ===================================================================== *)

Section HeuristicProperties.

(** C2, as the specification states it, fails: for distance 12, Heavy
    Rain, Very High traffic, hour 20 and 3 items the total of the
    heuristic is not 97 minutes. *)
Lemma scenario_total_is_not_97 : time scenario <> of_Z 97.
Proof. vm_compute. discriminate. Qed.

(** C2, amended: for distance 12, Heavy Rain, Very High traffic, hour 20
    and 3 items the preparation time is 18, the base time after the
    weather, traffic and peak multipliers is 12 x 4 x 1.6 x 1.8 x 1.15,
    which lies between 158.97 and 158.98, the total is
    round(18 + 158.976) = 177 minutes, the confidence is
    85 - 10 - 8 - 5 = 62, the distance factor is High and the peak-hour
    tag is "Yes (+15%)". *)
Theorem scenario_heavy_rain_peak :
  let prepTime := (of_Z 12 + of_Z 3 * of_Z 2)%num in
  let baseTime :=
    (of_Z 12 * of_Z 4 * of_decimal 16 10 * of_decimal 18 10
     * of_decimal 115 100)%num in
  prepTime = of_Z 18 /\
  (of_decimal 15897 100 <? baseTime)%num = true /\
  (baseTime <? of_decimal 15898 100)%num = true /\
  time scenario = Math_round (prepTime + baseTime) /\
  time scenario = of_Z 177 /\
  confidence scenario = of_Z (85 - 10 - 8 - 5) /\
  confidence scenario = of_Z 62 /\
  distanceFactor scenario = "High" /\
  peakHour scenario = "Yes (+15%)".
Proof. cbv zeta. repeat (apply conj); by_computation. Qed.

(** C5: with distance, weather, hour and number of items fixed (distance
    and items non-negative, as in the data model), a traffic value that
    comes later in the order Low, Medium, High, Very High never gives a
    smaller estimated total time. *)
Theorem traffic_severity_monotone
    distance weather hour items (i j : nat) t1 t2 :
  nonneg distance -> nonneg items ->
  weather ∈ weather_values ->
  (i <= j)%nat ->
  traffic_values !! i = Some t1 -> traffic_values !! j = Some t2 ->
  (time (calculateDeliveryTime distance weather t1 hour items)
   <=? time (calculateDeliveryTime distance weather t2 hour items))%num = true.
Proof.
  intros Hd Hn Hw Hij H1 H2.
  pose proof (weather_multiplier_positive weather Hw) as Pw.
  assert (P1 : is_positive (ToNumber (trafficMultipliers !! t1))).
  { apply traffic_multiplier_positive. eapply list_elem_of_lookup_2; eassumption. }
  assert (P2 : is_positive (ToNumber (trafficMultipliers !! t2))).
  { apply traffic_multiplier_positive. eapply list_elem_of_lookup_2; eassumption. }
  rewrite !time_unfold. cbv zeta.
  apply total_mono.
  - apply prepTime_nonneg. assumption.
  - apply adjusted_nonneg; assumption.
  - apply mul_mono_r; try assumption.
    + apply mul_nonneg; [| assumption].
      apply mul_nonneg; [assumption | apply positive_4].
    + eapply traffic_multipliers_sorted; eassumption.
Qed.

Lemma traffic_severity_monotone_witness :
  (time (calculateDeliveryTime (of_Z 5) "Rain" "Medium" (of_Z 13) (of_Z 2))
   <=? time (calculateDeliveryTime (of_Z 5) "Rain" "Very High" (of_Z 13) (of_Z 2)))%num
  = true.
Proof.
  apply (traffic_severity_monotone (of_Z 5) "Rain" (of_Z 13) (of_Z 2) 1 3).
  - vm_compute. reflexivity.
  - vm_compute. reflexivity.
  - unfold weather_values. rewrite !elem_of_cons. tauto.
  - lia.
  - reflexivity.
  - reflexivity.
Defined.

(** C9: with distance, traffic, hour and number of items fixed (distance
    and items non-negative, as in the data model), a weather value that
    comes later in the order Clear, Cloudy, Hot, Rain, Heavy Rain never
    gives a smaller estimated total time. *)
Theorem weather_severity_monotone
    distance traffic hour items (i j : nat) w1 w2 :
  nonneg distance -> nonneg items ->
  traffic ∈ traffic_values ->
  (i <= j)%nat ->
  weather_values !! i = Some w1 -> weather_values !! j = Some w2 ->
  (time (calculateDeliveryTime distance w1 traffic hour items)
   <=? time (calculateDeliveryTime distance w2 traffic hour items))%num = true.
Proof.
  intros Hd Hn Ht Hij H1 H2.
  pose proof (traffic_multiplier_positive traffic Ht) as Pt.
  assert (P1 : is_positive (ToNumber (weatherMultipliers !! w1))).
  { apply weather_multiplier_positive. eapply list_elem_of_lookup_2; eassumption. }
  assert (P2 : is_positive (ToNumber (weatherMultipliers !! w2))).
  { apply weather_multiplier_positive. eapply list_elem_of_lookup_2; eassumption. }
  rewrite !time_unfold. cbv zeta.
  apply total_mono.
  - apply prepTime_nonneg. assumption.
  - apply adjusted_nonneg; assumption.
  - apply mul_mono_l; [assumption |].
    apply mul_mono_r; try assumption.
    + apply mul_nonneg; [assumption | apply positive_4].
    + eapply weather_multipliers_sorted; eassumption.
Qed.

Lemma weather_severity_monotone_witness :
  (time (calculateDeliveryTime (of_Z 5) "Cloudy" "High" (of_Z 9) (of_Z 2))
   <=? time (calculateDeliveryTime (of_Z 5) "Heavy Rain" "High" (of_Z 9) (of_Z 2)))%num
  = true.
Proof.
  apply (weather_severity_monotone (of_Z 5) "High" (of_Z 9) (of_Z 2) 1 4).
  - vm_compute. reflexivity.
  - vm_compute. reflexivity.
  - unfold traffic_values. rewrite !elem_of_cons. tauto.
  - lia.
  - reflexivity.
  - reflexivity.
Defined.

(** C6: at an hour among 12, 13, 14, 19, 20, 21 the heuristic tags the
    result "Yes (+15%)" and its total is the rounded sum of the
    preparation time and 1.15 times the weather- and traffic-adjusted
    base time; at any other hour, with the same other arguments, the tag
    is "No" and the total is the rounded sum of the preparation time and
    that same adjusted base time, with no surcharge. *)
Theorem peak_hour_surcharge distance weather traffic items hour hour' :
  In hour peakHours -> ~ In hour' peakHours ->
  let prepTime := (of_Z 12 + items * of_Z 2)%num in
  let adjusted :=
    (distance * of_Z 4 * ToNumber (weatherMultipliers !! weather)
     * ToNumber (trafficMultipliers !! traffic))%num in
  let peak := calculateDeliveryTime distance weather traffic hour items in
  let off_peak := calculateDeliveryTime distance weather traffic hour' items in
  peakHour peak = "Yes (+15%)" /\
  time peak = Math_round (prepTime + adjusted * of_decimal 115 100) /\
  peakHour off_peak = "No" /\
  time off_peak = Math_round (prepTime + adjusted).
Proof.
  intros Hp Ho. cbv zeta.
  apply includes_In in Hp.
  assert (Ho' : includes peakHours hour' = false).
  { destruct (includes peakHours hour') eqn:E; [| reflexivity].
    apply includes_In in E. contradiction. }
  rewrite !time_unfold. cbv zeta.
  unfold calculateDeliveryTime; cbn [peakHour].
  rewrite Hp, Ho'. repeat (apply conj); exact eq_refl.
Qed.

Lemma peak_hour_surcharge_witness :
  let prepTime := (of_Z 12 + of_Z 2 * of_Z 2)%num in
  let adjusted :=
    (of_Z 5 * of_Z 4 * ToNumber (weatherMultipliers !! "Clear")
     * ToNumber (trafficMultipliers !! "Low"))%num in
  let peak := calculateDeliveryTime (of_Z 5) "Clear" "Low" (of_Z 13) (of_Z 2) in
  let off_peak := calculateDeliveryTime (of_Z 5) "Clear" "Low" (of_Z 10) (of_Z 2) in
  peakHour peak = "Yes (+15%)" /\
  time peak = Math_round (prepTime + adjusted * of_decimal 115 100) /\
  peakHour off_peak = "No" /\
  time off_peak = Math_round (prepTime + adjusted).
Proof.
  apply (peak_hour_surcharge (of_Z 5) "Clear" "Low" (of_Z 2) (of_Z 13) (of_Z 10)).
  - right. left. reflexivity.
  - vm_compute. intros H.
    repeat (destruct H as [H | H]; [discriminate H |]). exact H.
Defined.

(** *** The heuristic as a computation in the browser *)

Lemma returns_ret {A} (a : A) : Script.returns (Script.ret a) a.
Proof. intros b. reflexivity. Qed.

Lemma returns_bind {A B} (m : Script.Script A) (k : A -> Script.Script B) a r :
  Script.returns m a -> Script.returns (k a) r ->
  Script.returns (Script.bind m k) r.
Proof. intros Hm Hk b. unfold Script.bind. rewrite Hm. apply Hk. Qed.

Lemma returns_if {A} (c : bool) (m1 m2 : Script.Script A) a1 a2 :
  Script.returns m1 a1 -> Script.returns m2 a2 ->
  Script.returns (if c then m1 else m2) (if c then a1 else a2).
Proof. destruct c; auto. Qed.

(** Every statement of the heuristic returns without reading or changing
    the browser, so the whole body does, and what it returns is the record
    of the embedding as a function. *)
Lemma heuristic_returns distance weather traffic hour items :
  Script.returns
    (Script.calculateDeliveryTime distance weather traffic hour items)
    (calculateDeliveryTime distance weather traffic hour items).
Proof.
  unfold Script.calculateDeliveryTime, calculateDeliveryTime.
  repeat (eapply returns_bind;
          [first [apply returns_if; apply returns_ret | apply returns_ret]
          | cbv beta]).
  apply returns_ret.
Qed.

(** The clock is not like that: what [new Date().getHours()] returns
    depends on the state of the browser. *)
Lemma clock_is_read : ~ exists hour, Script.returns Script.Date_getHours hour.
Proof.
  intros [hour H].
  pose (b := fun h => {| document := {| page := ∅; timers := []; alerts := [] |};
                         clock := h; entropy := fun _ => Fin 0; drawn := 0 |}).
  pose proof (H (b (Fin 0))) as H0. pose proof (H (b (Fin 1))) as H1.
  unfold Script.Date_getHours in H0, H1. simpl in H0, H1. congruence.
Qed.

(** Neither is the generator: a call to [Math.random()] changes the state
    of the browser. *)
Lemma generator_advances : ~ exists r, Script.returns Script.Math_random r.
Proof.
  intros [r H].
  pose (b := {| document := {| page := ∅; timers := []; alerts := [] |};
                clock := Fin 0; entropy := fun _ => Fin 0; drawn := 0 |}).
  pose proof (H b) as H0. unfold Script.Math_random in H0. simpl in H0.
  apply (f_equal (fun x => drawn (snd x))) in H0. discriminate H0.
Qed.

(** The fallback of [predictDeliveryTime] reads the clock and nothing else:
    its prediction is the heuristic's at the hour of the clock. *)
Lemma fallback_reads_the_clock form b :
  Script.fallbackPrediction form b
  = (inr (calculateDeliveryTime (form_distance form) (form_weather form)
            (form_traffic form) (clock b) (form_numItems form)), b).
Proof.
  unfold Script.fallbackPrediction, Script.bind, Script.Date_getHours.
  apply heuristic_returns.
Qed.

(** C7: the heuristic is deterministic.  Run in a browser, a call reads
    nothing of the page, the timers, the clock or the random generator and
    changes nothing of them: from every state it returns, without
    throwing, the same record and leaves the state as it was.  So any two
    calls with the same distance, weather, traffic, hour and number of
    items, from any two states of the browser, return the same record,
    field by field; and two calls in one run return the same record
    whatever other computation runs between them. *)
Theorem heuristic_deterministic distance weather traffic hour items :
  let call := Script.calculateDeliveryTime distance weather traffic hour items in
  (forall b b' : Browser,
      exists r r' : Prediction,
        call b = (inr r, b) /\ call b' = (inr r', b') /\
        r = r' /\
        time r = time r' /\ confidence r = confidence r' /\
        weatherImpact r = weatherImpact r' /\
        trafficImpact r = trafficImpact r' /\
        distanceFactor r = distanceFactor r' /\ peakHour r = peakHour r') /\
  (forall (other : Script.Script unit) (b : Browser),
      Script.bind call (fun first =>
        Script.bind other (fun _ =>
          Script.bind call (fun second => Script.ret (first, second)))) b
      = match other b with
        | (inl error, b') => (inl error, b')
        | (inr _, b') =>
            let r := calculateDeliveryTime distance weather traffic hour items in
            (inr (r, r), b')
        end).
Proof.
  cbv zeta.
  pose proof (heuristic_returns distance weather traffic hour items) as H.
  split.
  - intros b b'.
    exists (calculateDeliveryTime distance weather traffic hour items),
      (calculateDeliveryTime distance weather traffic hour items).
    split; [apply H | split; [apply H |]].
    repeat (apply conj); exact eq_refl.
  - intros other b. unfold Script.bind at 1. rewrite H.
    unfold Script.bind at 1. destruct (other b) as [[error | []] b'].
    + reflexivity.
    + unfold Script.bind. rewrite H. reflexivity.
Qed.

(** C8: for every distance, weather and traffic, the confidence of the
    heuristic is 85 less 10 for Heavy Rain, 8 for Very High traffic and 5
    for a distance above 10, so it lies in [62, 85]; after the 10-point
    offline penalty it lies in [52, 75], and flooring it at 0 changes
    nothing. *)
Theorem heuristic_confidence_bounds distance weather traffic hour items :
  let c := confidence (calculateDeliveryTime distance weather traffic hour items) in
  c = of_Z (85 - (if String.eqb weather "Heavy Rain" then 10 else 0)
               - (if String.eqb traffic "Very High" then 8 else 0)
               - (if (distance >? of_Z 10)%num then 5 else 0)) /\
  between 62 85 c /\
  between 52 75 (c - of_Z 10)%num /\
  Math_max (of_Z 0) (c - of_Z 10)%num = (c - of_Z 10)%num.
Proof.
  cbv zeta. rewrite confidence_value.
  set (c := 85 - _ - _ - _).
  assert (Hc : 62 <= c <= 85).
  { unfold c. destruct (String.eqb weather "Heavy Rain"),
      (String.eqb traffic "Very High"), (distance >? of_Z 10)%num; lia. }
  clearbody c.
  destruct (offline_confidence_value c Hc) as [E M].
  rewrite E, M. repeat (apply conj); try apply of_Z_mono; try lia; exact eq_refl.
Qed.

(** C10: for a distance that is not negative, a number of items that is
    not negative and weather and traffic among the values of the form,
    the total of the heuristic is at least the preparation time
    12 + 2 x items, hence at least 12 minutes. *)
Theorem total_at_least_preparation distance weather traffic hour (n : Z) :
  nonneg distance -> 0 <= n ->
  weather ∈ weather_values -> traffic ∈ traffic_values ->
  let prepTime := (of_Z 12 + of_Z n * of_Z 2)%num in
  let total := time (calculateDeliveryTime distance weather traffic hour (of_Z n)) in
  (prepTime <=? total)%num = true /\
  (of_Z 12 <=? total)%num = true /\
  (n < 2 ^ 51 -> prepTime = of_Z (12 + 2 * n)).
Proof.
  intros Hd Hn Hw Ht. cbv zeta.
  pose proof (weather_multiplier_positive weather Hw) as Pw.
  pose proof (traffic_multiplier_positive traffic Ht) as Pt.
  pose proof (of_Z_nonneg n Hn) as Nn.
  pose proof (of_Z_integral n Hn) as In.
  assert (Hprep : (of_Z 12 <=? of_Z 12 + of_Z n * of_Z 2)%num = true).
  { apply add_ge_l.
    - apply of_Z_double.
    - apply of_Z_nonneg. lia.
    - apply mul_nonneg; [assumption | apply positive_2]. }
  assert (Htotal :
    (of_Z 12 + of_Z n * of_Z 2
     <=? time (calculateDeliveryTime distance weather traffic hour (of_Z n)))%num
    = true).
  { rewrite time_unfold. cbv zeta. apply total_ge_prep.
    - apply add_double.
    - apply prepTime_nonneg. assumption.
    - apply prepTime_integral; assumption.
    - apply surcharge_nonneg, adjusted_nonneg; assumption. }
  split; [exact Htotal | split].
  - exact (leb_trans _ _ _ Hprep Htotal).
  - intros Hs.
    assert (P : 2 ^ 51 * 4 = 2 ^ precision) by reflexivity.
    rewrite mul_of_Z, add_of_Z by lia. f_equal. lia.
Qed.

Lemma total_at_least_preparation_witness :
  let prepTime := (of_Z 12 + of_Z 3 * of_Z 2)%num in
  let total :=
    time (calculateDeliveryTime (of_Z 0) "Hot" "Medium" (of_Z 8) (of_Z 3)) in
  (prepTime <=? total)%num = true /\
  (of_Z 12 <=? total)%num = true /\
  (3 < 2 ^ 51 -> prepTime = of_Z (12 + 2 * 3)).
Proof.
  apply (total_at_least_preparation (of_Z 0) "Hot" "Medium" (of_Z 8) 3).
  - vm_compute. reflexivity.
  - lia.
  - unfold weather_values. rewrite !elem_of_cons. tauto.
  - unfold traffic_values. rewrite !elem_of_cons. tauto.
Defined.

End HeuristicProperties.

(* ===================================================================== *)
(** * Part VI.  The orchestrator *)
(* ===================================================================== *)

Section Orchestrator.

(** Runs the model of [predictDeliveryTime] with the heuristic's result
    kept abstract, and reads the page. *)
Ltac run_submission :=
  unfold submit, predictDeliveryTime;
  try match goal with
      | |- context [calculateDeliveryTime ?d ?w ?t ?h ?n] =>
          generalize (calculateDeliveryTime d w t h n); intros ?fb
      end;
  unfold bind, try_finally, try_catch, fetch, response_json, result_factors,
    ret, get_property, set_property, animateValue, setTimeout, alert,
    updateMap, throw;
  cbn -[insert lookup sub Math_round];
  repeat match goal with
         | H : _ = _ |- _ => rewrite H; cbn -[insert lookup sub Math_round]
         end;
  unfold run_timer;
  repeat apply conj;
  repeat first [rewrite lookup_insert_eq
               | rewrite lookup_insert_ne by discriminate];
  exact eq_refl.

(** The page after a failed call: the heuristic's values, with ten points
    taken off the confidence. *)
Lemma page_after_failure p form outcome currentHour :
  remote_failure outcome ->
  let fallbackPrediction :=
    calculateDeliveryTime (form_distance form) (form_weather form)
      (form_traffic form) currentHour (form_numItems form) in
  let p' := submit p form outcome currentHour in
  p' !! "timeValue" = Some (Number (Math_round (time fallbackPrediction))) /\
  p' !! "confidenceFill.style.width"
  = Some (NumberThen (confidence fallbackPrediction - of_Z 10)%num "%") /\
  p' !! "confidenceText"
  = Some (NumberThen (confidence fallbackPrediction - of_Z 10)%num
            "% Confidence (Offline Mode)") /\
  p' !! "weatherImpact"
  = Some (text_or_undefined (weatherImpact fallbackPrediction)) /\
  p' !! "trafficImpact"
  = Some (text_or_undefined (trafficImpact fallbackPrediction)) /\
  p' !! "distanceFactor" = Some (Text (distanceFactor fallbackPrediction)) /\
  p' !! "peakHour" = Some (Text (peakHour fallbackPrediction)).
Proof.
  intros H. cbv zeta.
  destruct H as [| status json Hs | status | status result Hf].
  - run_submission.
  - run_submission.
  - destruct (ok status) eqn:Hs; run_submission.
  - destruct (ok status) eqn:Hs; run_submission.
Qed.

(** The page after a successful call: the values of the answer, as they
    are. *)
Lemma page_after_success p form status result factors currentHour :
  ok status = true -> Remote.success result = true ->
  Remote.factors_of result = Some factors ->
  let p' := submit p form (Response status (Some result)) currentHour in
  p' !! "timeValue" = Some (Number (Math_round (Remote.estimated_time result))) /\
  p' !! "confidenceFill.style.width"
  = Some (NumberThen (Remote.confidence result) "%") /\
  p' !! "confidenceText"
  = Some (NumberThen (Remote.confidence result) "% Confidence") /\
  p' !! "weatherImpact" = Some (Text (Remote.weather_impact factors)) /\
  p' !! "trafficImpact" = Some (Text (Remote.traffic_impact factors)) /\
  p' !! "distanceFactor" = Some (Text (Remote.distance_factor factors)) /\
  p' !! "peakHour" = Some (Text (Remote.peak_hour factors)).
Proof. intros Hs Hr Hf. cbv zeta. run_submission. Qed.

Lemma submit_failure p form outcome currentHour :
  remote_failure outcome ->
  let fallbackPrediction :=
    calculateDeliveryTime (form_distance form) (form_weather form)
      (form_traffic form) currentHour (form_numItems form) in
  shown (submit p form outcome currentHour) =
  Some {| estimatedTimeMinutes := Number (Math_round (time fallbackPrediction));
          confidencePercent :=
            NumberThen (confidence fallbackPrediction - of_Z 10)%num "%";
          factor_weatherImpact :=
            text_or_undefined (weatherImpact fallbackPrediction);
          factor_trafficImpact :=
            text_or_undefined (trafficImpact fallbackPrediction);
          factor_distanceFactor := Text (distanceFactor fallbackPrediction);
          factor_peakHour := Text (peakHour fallbackPrediction) |}.
Proof.
  intros H. cbv zeta.
  destruct (page_after_failure p form outcome currentHour H)
    as (Ht & Hc & _ & Hw & Htr & Hd & Hp).
  unfold shown. rewrite Ht, Hc, Hw, Htr, Hd, Hp. exact eq_refl.
Qed.

Lemma submit_success p form status result factors currentHour :
  ok status = true -> Remote.success result = true ->
  Remote.factors_of result = Some factors ->
  shown (submit p form (Response status (Some result)) currentHour) =
  Some {| estimatedTimeMinutes :=
            Number (Math_round (Remote.estimated_time result));
          confidencePercent := NumberThen (Remote.confidence result) "%";
          factor_weatherImpact := Text (Remote.weather_impact factors);
          factor_trafficImpact := Text (Remote.traffic_impact factors);
          factor_distanceFactor := Text (Remote.distance_factor factors);
          factor_peakHour := Text (Remote.peak_hour factors) |}.
Proof.
  intros Hs Hr Hf.
  destruct (page_after_success p form status result factors currentHour Hs Hr Hf)
    as (Ht & Hc & _ & Hw & Htr & Hd & Hp).
  unfold shown. rewrite Ht, Hc, Hw, Htr, Hd, Hp. exact eq_refl.
Qed.

End Orchestrator.

Section OrchestratorProperties.

(** The heuristic's total is not negative on a valid request. *)
Lemma fallback_time_nonneg form currentHour :
  valid_request form ->
  nonneg (time (calculateDeliveryTime (form_distance form) (form_weather form)
                  (form_traffic form) currentHour (form_numItems form))).
Proof.
  intros (Hd & (n & Hn & Hi) & Hw & Ht).
  rewrite time_unfold. cbv zeta.
  apply Math_round_nonneg, add_nonneg.
  - apply prepTime_nonneg. rewrite Hi. apply of_Z_nonneg. lia.
  - apply surcharge_nonneg, adjusted_nonneg.
    + apply positive_nonneg. assumption.
    + apply weather_multiplier_positive. assumption.
    + apply traffic_multiplier_positive. assumption.
Qed.

(** The confidence shown offline, whatever the request. *)
Lemma offline_confidence distance weather traffic hour items :
  let c :=
    (confidence (calculateDeliveryTime distance weather traffic hour items)
     - of_Z 10)%num in
  between 52 75 c /\ Math_max (of_Z 0) c = c.
Proof.
  cbv zeta. rewrite confidence_value.
  set (c := 85 - _ - _ - _).
  assert (Hc : 62 <= c <= 85).
  { unfold c. destruct (String.eqb weather "Heavy Rain"),
      (String.eqb traffic "Very High"), (distance >? of_Z 10)%num; lia. }
  clearbody c.
  destruct (offline_confidence_value c Hc) as [E M].
  rewrite E, M. split; [apply between_of_Z; lia | exact eq_refl].
Qed.

Lemma between_weaken lo hi lo' hi' x :
  lo' <= lo -> hi <= hi' -> between lo hi x -> between lo' hi' x.
Proof.
  intros Hlo Hhi [H1 H2]. split.
  - apply leb_trans with (of_Z lo); [apply of_Z_mono |]; assumption.
  - apply leb_trans with (of_Z hi); [| apply of_Z_mono]; assumption.
Qed.

Lemma valid_overconfident_request : valid_request overconfident_request.
Proof.
  unfold valid_request, overconfident_request; cbn [form_distance form_numItems form_weather form_traffic].
  split; [by_computation | split; [| split]].
  - exists 2. split; [lia | exact eq_refl].
  - unfold weather_values. rewrite !elem_of_cons. tauto.
  - unfold traffic_values. rewrite !elem_of_cons. tauto.
Qed.

(** C1, as the specification states it, fails: a valid request answered
    by the backend with a confidence of 150 is shown with that confidence,
    which is not in [0,100]; nothing clamps it. *)
Lemma remote_confidence_is_not_clamped :
  valid_request overconfident_request /\
  ~ in_range (submit ∅ overconfident_request
                (Response 200 (Some overconfident_answer)) (of_Z 10)).
Proof.
  split; [exact valid_overconfident_request |].
  intros (r & t & c & Hs & _ & _ & Hc & _ & Hhi).
  rewrite (submit_success _ _ 200 overconfident_answer overconfident_factors)
    in Hs by exact eq_refl.
  apply (f_equal (fun o => match o with
                           | Some r => confidencePercent r
                           | None => Undefined
                           end)) in Hs.
  cbn beta iota delta [confidencePercent] in Hs. rewrite Hc in Hs.
  apply (f_equal (fun v => match v with
                           | NumberThen x _ => (x <=? of_Z 100)%num
                           | _ => true
                           end)) in Hs.
  cbn beta iota in Hs. rewrite Hhi in Hs. revert Hs. by_computation.
Qed.

(** C1, amended: for every valid request, when the call to the backend
    fails the page shows a time that is not negative and a confidence in
    [0,100]; when it succeeds the page shows the time (rounded for
    display) and the confidence of the answer as received, whatever their
    values: the confidence is not clamped. *)
Theorem predict_result_ranges p form outcome currentHour :
  valid_request form ->
  (remote_failure outcome -> in_range (submit p form outcome currentHour)) /\
  (forall status result factors,
      outcome = Response status (Some result) ->
      ok status = true -> Remote.success result = true ->
      Remote.factors_of result = Some factors ->
      exists r,
        shown (submit p form outcome currentHour) = Some r /\
        estimatedTimeMinutes r = Number (Math_round (Remote.estimated_time result)) /\
        confidencePercent r = NumberThen (Remote.confidence result) "%").
Proof.
  intros Hv. split.
  - intros Hf. unfold in_range.
    eexists _, _, _. split; [apply submit_failure; assumption |].
    cbn [estimatedTimeMinutes confidencePercent].
    split; [reflexivity |]. split.
    + apply Math_round_nonneg, fallback_time_nonneg. assumption.
    + split; [reflexivity |].
      eapply between_weaken; [| | apply offline_confidence]; lia.
  - intros status result factors -> Hs Hr Hf.
    eexists. split; [apply submit_success; eassumption |].
    cbn [estimatedTimeMinutes confidencePercent]. split; reflexivity.
Qed.

Lemma predict_result_ranges_witness :
  (remote_failure NetworkError ->
   in_range (submit ∅ overconfident_request NetworkError (of_Z 10))) /\
  (forall status result factors,
      NetworkError = Response status (Some result) ->
      ok status = true -> Remote.success result = true ->
      Remote.factors_of result = Some factors ->
      exists r,
        shown (submit ∅ overconfident_request NetworkError (of_Z 10)) = Some r /\
        estimatedTimeMinutes r = Number (Math_round (Remote.estimated_time result)) /\
        confidencePercent r = NumberThen (Remote.confidence result) "%").
Proof.
  apply (predict_result_ranges ∅ overconfident_request NetworkError (of_Z 10)).
  unfold valid_request, overconfident_request; cbn [form_distance form_numItems form_weather form_traffic].
  split; [vm_compute; reflexivity | split; [| split]].
  - exists 2. split; [lia | exact eq_refl].
  - unfold weather_values. rewrite !elem_of_cons. tauto.
  - unfold traffic_values. rewrite !elem_of_cons. tauto.
Defined.

(** C3: on every path where the call to the backend fails, the confidence
    written to the confidence bar and to its caption is
    max(0, heuristicConfidence - 10). *)
Theorem offline_confidence_shown p form outcome currentHour :
  remote_failure outcome ->
  let heuristicConfidence :=
    confidence (calculateDeliveryTime (form_distance form) (form_weather form)
                  (form_traffic form) currentHour (form_numItems form)) in
  let c := Math_max (of_Z 0) (heuristicConfidence - of_Z 10)%num in
  submit p form outcome currentHour !! "confidenceFill.style.width"
  = Some (NumberThen c "%") /\
  submit p form outcome currentHour !! "confidenceText"
  = Some (NumberThen c "% Confidence (Offline Mode)") /\
  exists r,
    shown (submit p form outcome currentHour) = Some r /\
    confidencePercent r = NumberThen c "%".
Proof.
  intros Hf. cbv zeta.
  destruct (offline_confidence (form_distance form) (form_weather form)
              (form_traffic form) currentHour (form_numItems form)) as [_ ->].
  destruct (page_after_failure p form outcome currentHour Hf)
    as (_ & Hc & Hcap & _).
  split; [exact Hc | split; [exact Hcap |]].
  eexists. split; [apply submit_failure; exact Hf | exact eq_refl].
Qed.

Lemma offline_confidence_shown_witness :
  let heuristicConfidence :=
    confidence
      (calculateDeliveryTime
         (form_distance overconfident_request) (form_weather overconfident_request)
         (form_traffic overconfident_request) (of_Z 10)
         (form_numItems overconfident_request)) in
  let c := Math_max (of_Z 0) (heuristicConfidence - of_Z 10)%num in
  submit ∅ overconfident_request (Response 500 None) (of_Z 10)
    !! "confidenceFill.style.width"
  = Some (NumberThen c "%") /\
  submit ∅ overconfident_request (Response 500 None) (of_Z 10) !! "confidenceText"
  = Some (NumberThen c "% Confidence (Offline Mode)") /\
  exists r,
    shown (submit ∅ overconfident_request (Response 500 None) (of_Z 10)) = Some r /\
    confidencePercent r = NumberThen c "%".
Proof.
  apply (offline_confidence_shown ∅ overconfident_request (Response 500 None) (of_Z 10)).
  apply failure_body.
Defined.

(** C4: whenever the call to the backend fails (a status outside 200-299
    such as 500, a transport failure, an answer whose success flag is
    false, and also a body that is not JSON) a valid request still ends
    with a complete result on the page: the time and the confidence are
    numbers, the four factors are texts, and all six are the values of the
    fallback path, shown with the offline caption. *)
Theorem failure_yields_complete_result p form outcome currentHour :
  valid_request form -> remote_failure outcome ->
  let fallbackPrediction :=
    calculateDeliveryTime (form_distance form) (form_weather form)
      (form_traffic form) currentHour (form_numItems form) in
  exists t c weather_text traffic_text,
    shown (submit p form outcome currentHour) =
    Some {| estimatedTimeMinutes := Number t;
            confidencePercent := NumberThen c "%";
            factor_weatherImpact := Text weather_text;
            factor_trafficImpact := Text traffic_text;
            factor_distanceFactor := Text (distanceFactor fallbackPrediction);
            factor_peakHour := Text (peakHour fallbackPrediction) |} /\
    t = Math_round (time fallbackPrediction) /\ nonneg t /\
    c = (confidence fallbackPrediction - of_Z 10)%num /\ between 52 75 c /\
    weatherImpacts !! form_weather form = Some weather_text /\
    trafficImpacts !! form_traffic form = Some traffic_text /\
    submit p form outcome currentHour !! "confidenceText"
    = Some (NumberThen c "% Confidence (Offline Mode)").
Proof.
  intros Hv Hf. cbv zeta.
  pose proof (fallback_time_nonneg form currentHour Hv) as Ht.
  destruct Hv as (_ & _ & Hw & Htr).
  destruct (weather_impact_defined _ Hw) as [wt Ew].
  destruct (traffic_impact_defined _ Htr) as [tt Et].
  destruct (page_after_failure p form outcome currentHour Hf)
    as (_ & _ & Hcap & _).
  eexists _, _, wt, tt.
  split; [| split; [exact eq_refl | split; [| split; [exact eq_refl | split; [| split; [| split]]]]]].
  - rewrite (submit_failure p form outcome currentHour Hf).
    unfold calculateDeliveryTime at 3 4.
    cbn beta iota zeta delta [weatherImpact trafficImpact].
    rewrite Ew, Et. exact eq_refl.
  - apply Math_round_nonneg. exact Ht.
  - apply offline_confidence.
  - exact Ew.
  - exact Et.
  - exact Hcap.
Qed.

Lemma failure_yields_complete_result_witness :
  let fallbackPrediction :=
    calculateDeliveryTime
      (form_distance overconfident_request) (form_weather overconfident_request)
      (form_traffic overconfident_request) (of_Z 10)
      (form_numItems overconfident_request) in
  exists t c weather_text traffic_text,
    shown (submit ∅ overconfident_request (Response 500 None) (of_Z 10)) =
    Some {| estimatedTimeMinutes := Number t;
            confidencePercent := NumberThen c "%";
            factor_weatherImpact := Text weather_text;
            factor_trafficImpact := Text traffic_text;
            factor_distanceFactor := Text (distanceFactor fallbackPrediction);
            factor_peakHour := Text (peakHour fallbackPrediction) |} /\
    t = Math_round (time fallbackPrediction) /\ nonneg t /\
    c = (confidence fallbackPrediction - of_Z 10)%num /\ between 52 75 c /\
    weatherImpacts !! form_weather overconfident_request = Some weather_text /\
    trafficImpacts !! form_traffic overconfident_request = Some traffic_text /\
    submit ∅ overconfident_request (Response 500 None) (of_Z 10) !! "confidenceText"
    = Some (NumberThen c "% Confidence (Offline Mode)").
Proof.
  apply (failure_yields_complete_result
           ∅ overconfident_request (Response 500 None) (of_Z 10)).
  - unfold valid_request, overconfident_request;
      cbn [form_distance form_numItems form_weather form_traffic].
    split; [vm_compute; reflexivity | split; [| split]].
    + exists 2. split; [lia | exact eq_refl].
    + unfold weather_values. rewrite !elem_of_cons. tauto.
    + unfold traffic_values. rewrite !elem_of_cons. tauto.
  - apply failure_status. reflexivity.
Defined.

End OrchestratorProperties.

(* ===================================================================== *)
(** * Part VII.  Further properties of the heuristic *)
(* ===================================================================== *)

Section MoreNumberFacts.

Transparent of_Z of_decimal round.

Ltac sign_cases2 :=
  repeat match goal with
         | |- context [?a =? 0] => destruct (Z.eqb_spec a 0)
         | |- context [0 <? ?a] => destruct (Z.ltb_spec 0 a)
         end;
  simpl; try reflexivity; try lia.

Lemma add_comm x y : (x + y)%num = (y + x)%num.
Proof. destruct x, y; simpl; try reflexivity. unfold add. rewrite Z.add_comm. reflexivity. Qed.

Lemma add_mono_l p x y :
  nonneg p -> nonneg x -> (x <=? y)%num = true ->
  (x + p <=? y + p)%num = true.
Proof. intros. rewrite (add_comm x), (add_comm y). apply add_mono_r; assumption. Qed.

(** Scaling the integer under a double by 2^quantum and rounding at that
    scale returns the double. *)
Lemma round_scaled_id c k :
  0 <= c -> 0 <= k -> double (Fin k) -> round c (k * 2 ^ c) = Fin k.
Proof.
  intros Hc Hk [Hm Hr]. rewrite Z.abs_eq in Hm, Hr by assumption.
  unfold round. destruct (Z.leb_spec 0 (k * 2 ^ c)) as [_ | Hneg].
  2:{ pose proof (pow2_pos c Hc). nia. }
  rewrite round_pos_unfold.
  assert (E : rounded c (k * 2 ^ c) = k).
  { destruct (Z.eq_dec k 0) as [-> | Hnz].
    - apply rounded_zero. assumption.
    - pose proof (pow2_pos c Hc) as Pc.
      assert (D : drop c (k * 2 ^ c) = drop 0 k + c).
      { unfold drop. rewrite bitlen_shift by lia. lia. }
      assert (D0 : 0 <= drop 0 k) by apply drop_ge.
      apply Z.mul_cancel_r with (p := 2 ^ c); [lia |].
      apply rounded_exact; [assumption |].
      rewrite D, pow2_split by lia.
      pose proof (pow2_pos _ D0) as Pd.
      apply Z.mod_divide in Hm; [| lia].
      apply Z.mod_divide; [lia |].
      apply Z.mul_divide_mono_r. exact Hm. }
  rewrite E. destruct (Z.ltb_spec k (2 ^ overflow_exp)); [reflexivity | lia].
Qed.

Lemma of_Z_1 : of_Z 1 = Fin (2 ^ quantum).
Proof. rewrite of_Z_small by (unfold precision; lia). rewrite Z.mul_1_l. reflexivity. Qed.

Lemma of_Z_0 : of_Z 0 = Fin 0.
Proof. rewrite of_Z_small by (unfold precision; lia). reflexivity. Qed.

(** Multiplying a non-negative double by a factor of at least one never
    yields less than that double. *)
Lemma mul_ge_l x c :
  double x -> nonneg x -> is_positive c -> (of_Z 1 <=? c)%num = true ->
  (x <=? x * c)%num = true.
Proof.
  intros Hd Hx (k & -> & Hk)%positive_cases H.
  rewrite of_Z_1 in H. simpl in H. apply Z.leb_le in H.
  destruct (nonneg_cases x Hx) as [-> | (a & -> & Ha)]; unfold mul; sign_cases2.
  assert (Q : 0 <= quantum) by (unfold quantum; lia).
  change ((Fin a <=? round quantum (a * k))%num = true).
  rewrite <- (round_scaled_id quantum a Q Ha Hd) at 1.
  apply round_mono; [assumption | nia].
Qed.

Lemma mul_zero_l c : is_positive c -> (Fin 0 * c)%num = Fin 0.
Proof.
  intros (k & -> & Hk)%positive_cases. unfold mul. simpl.
  apply round_zero. unfold quantum. lia.
Qed.

Lemma mul_nan_r x : (x * NaN)%num = NaN.
Proof. destruct x; reflexivity. Qed.

Lemma add_nan_r x : (x + NaN)%num = NaN.
Proof. destruct x; reflexivity. Qed.

Lemma add_nan_l x : (NaN + x)%num = NaN.
Proof. reflexivity. Qed.

Lemma ltb_trans x y z :
  (x <? y)%num = true -> (y <? z)%num = true -> (x <? z)%num = true.
Proof.
  destruct x, y, z; simpl; try congruence. rewrite !Z.ltb_lt. lia.
Qed.

(** An integral finite number that is not negative is [of_Z] of an
    integer. *)
Lemma integral_of_Z x :
  double x -> nonneg x -> integral x ->
  x = PosInf \/ exists m, 0 <= m /\ x = of_Z m.
Proof.
  intros Hd Hx Hi.
  destruct (nonneg_cases x Hx) as [-> | (k & -> & Hk)]; [left; reflexivity | right].
  simpl in Hi.
  assert (Q : 0 < 2 ^ quantum) by (apply pow2_pos; unfold quantum; lia).
  exists (k / 2 ^ quantum). split; [apply Z.div_pos; lia |].
  unfold of_Z. apply Z.div_exact in Hi; [| lia].
  rewrite Z.mul_comm, <- Hi. symmetry. apply round_id; assumption.
Qed.

(** A multiple of 2^quantum below 2^53 units is a double. *)
Lemma small_integer_double m :
  0 <= m <= 2 ^ precision -> double (Fin (m * 2 ^ quantum)).
Proof.
  intros Hm.
  assert (Q : 0 < 2 ^ quantum) by (apply pow2_pos; unfold quantum; lia).
  assert (O : 2 ^ (precision + quantum) < 2 ^ overflow_exp).
  { apply Z.pow_lt_mono_r; unfold precision, quantum, overflow_exp; lia. }
  assert (S : 2 ^ (precision + quantum) = 2 ^ precision * 2 ^ quantum).
  { apply pow2_split; unfold precision, quantum; lia. }
  simpl. rewrite Z.abs_eq by nia. split; [| nia].
  destruct (Z.eq_dec m 0) as [-> | Hnz]; [reflexivity |].
  assert (D0 : 0 <= drop 0 (m * 2 ^ quantum)) by apply drop_ge.
  apply Z.mod_divide; [pose proof (pow2_pos _ D0); lia |].
  destruct (Z.eq_dec m (2 ^ precision)) as [-> | Hlt].
  - rewrite <- S. unfold drop.
    replace (bitlen (2 ^ (precision + quantum))) with (precision + quantum + 1).
    + exists (2 ^ 52). rewrite Z.max_l by (unfold precision, quantum; lia).
      replace (precision + quantum + 1 - precision) with (quantum + 1) by lia.
      rewrite S. rewrite (pow2_split quantum 1) by (unfold quantum; lia).
      change (2 ^ 1) with 2. replace (2 ^ precision) with (2 ^ 52 * 2) by reflexivity.
      ring.
    + unfold bitlen. rewrite Z.log2_pow2 by (unfold precision, quantum; lia).
      destruct (Z.eqb_spec (2 ^ (precision + quantum)) 0); lia.
  - assert (B : bitlen m <= precision).
    { apply bitlen_below; [unfold precision; lia | lia]. }
    unfold drop. rewrite bitlen_shift by (unfold quantum; lia).
    destruct (Z.max_spec (bitlen m + quantum - precision) 0) as [[_ ->] | [M ->]].
    + exists (m * 2 ^ quantum). change (2 ^ 0) with 1. lia.
    + exists (m * 2 ^ (precision - bitlen m)).
      rewrite <- Z.mul_assoc, <- pow2_split by lia.
      f_equal. f_equal. lia.
Qed.

Lemma Math_round_double x : nonneg x -> double x -> double (Math_round x).
Proof.
  intros Hx Hd.
  destruct (nonneg_cases x Hx) as [-> | (k & -> & Hk)]; [exact I |].
  assert (Q : 0 < 2 ^ quantum) by (apply pow2_pos; unfold quantum; lia).
  assert (Q1 : 2 ^ (quantum + 1) = 2 ^ quantum * 2).
  { rewrite pow2_split by (unfold quantum; lia). reflexivity. }
  assert (S : 2 ^ (precision + quantum) = 2 ^ precision * 2 ^ quantum).
  { apply pow2_split; unfold precision, quantum; lia. }
  unfold Math_round.
  destruct (Z_lt_le_dec k (2 ^ (precision + quantum))) as [Hs | Hl].
  - apply small_integer_double. split.
    + apply Z.div_pos; lia.
    + assert ((2 * k + 2 ^ quantum) / 2 ^ (quantum + 1) < 2 ^ precision + 1); [| lia].
      apply Z.div_lt_upper_bound; [lia |]. rewrite Q1. nia.
  - destruct Hd as [Hm Hr]. rewrite Z.abs_eq in Hm, Hr by assumption.
    assert (B : precision + quantum + 1 <= bitlen k).
    { destruct (Z_lt_le_dec (bitlen k) (precision + quantum + 1)) as [C |]; [| assumption].
      pose proof (bitlen_upper k Hk).
      assert (2 ^ bitlen k <= 2 ^ (precision + quantum)).
      { apply pow2_le. pose proof (bitlen_nonneg k). lia. }
      lia. }
    pose proof (eq_refl : quantum = 1074) as Eq.
    pose proof (eq_refl : precision = 53) as Ep.
    assert (D : drop 0 k = bitlen k - precision) by (unfold drop; lia).
    rewrite D in Hm.
    assert (P : 0 < 2 ^ (bitlen k - precision)) by (apply pow2_pos; lia).
    apply Z.mod_divide in Hm; [| lia].
    assert (Hq : (2 ^ (quantum + 1) | k)).
    { apply Z.divide_trans with (2 ^ (bitlen k - precision)); [| assumption].
      exists (2 ^ (bitlen k - precision - (quantum + 1))).
      rewrite <- pow2_split by (unfold quantum in *; lia). f_equal. lia. }
    destruct Hq as [j Hj].
    replace ((2 * k + 2 ^ quantum) / 2 ^ (quantum + 1) * 2 ^ quantum) with k.
    + simpl. rewrite Z.abs_eq by assumption. rewrite D. split; [| assumption].
      apply Z.mod_divide; [lia | exact Hm].
    + assert (E : (2 * k + 2 ^ quantum) / 2 ^ (quantum + 1) = 2 * j).
      { symmetry. apply Z.div_unique_pos with (r := 2 ^ quantum); lia. }
      rewrite E. lia.
Qed.

Lemma Math_round_whole x : nonneg x -> integral (Math_round x).
Proof.
  intros [-> | (k & -> & Hk)]%nonneg_cases; [exact I |].
  simpl. apply Z.mod_mul.
  pose proof (pow2_pos quantum). unfold quantum in *. lia.
Qed.

Lemma of_Z_le_inv i m : 0 <= i < 2 ^ precision -> 0 <= m -> (of_Z i <=? of_Z m)%num = true -> i <= m.
Proof.
  intros Hi Hm H.
  destruct (Z_le_gt_dec i m) as [| C]; [assumption | exfalso].
  assert (m < 2 ^ precision) by lia.
  rewrite !of_Z_small in H by lia. simpl in H. apply Z.leb_le in H.
  pose proof (pow2_pos quantum). unfold quantum in *. nia.
Qed.

End MoreNumberFacts.

Section MoreHeuristic.

Opaque of_Z of_decimal round.

Lemma surcharge_at_least_one : (of_Z 1 <=? of_decimal 115 100)%num = true.
Proof. by_computation. Qed.

Lemma not_in_weather_values w :
  w ∉ weather_values ->
  weatherMultipliers !! w = None /\ weatherImpacts !! w = None.
Proof.
  unfold weather_values. rewrite !not_elem_of_cons. intros (H1 & H2 & H3 & H4 & H5 & _).
  unfold weatherMultipliers, weatherImpacts.
  rewrite !lookup_insert_ne, !lookup_singleton_ne by congruence. split; reflexivity.
Qed.

Lemma not_in_traffic_values t :
  t ∉ traffic_values ->
  trafficMultipliers !! t = None /\ trafficImpacts !! t = None.
Proof.
  unfold traffic_values. rewrite !not_elem_of_cons. intros (H1 & H2 & H3 & H4 & _).
  unfold trafficMultipliers, trafficImpacts.
  rewrite !lookup_insert_ne, !lookup_singleton_ne by congruence. split; reflexivity.
Qed.

Lemma adjusted_mono d1 d2 wm tm :
  is_positive wm -> is_positive tm -> (d1 <=? d2)%num = true ->
  (d1 * of_Z 4 * wm * tm <=? d2 * of_Z 4 * wm * tm)%num = true.
Proof.
  intros Hw Ht H.
  apply mul_mono_l; [assumption |]. apply mul_mono_l; [assumption |].
  apply mul_mono_l; [apply positive_4 | assumption].
Qed.

Lemma nonneg_leb x y : nonneg x -> (x <=? y)%num = true -> nonneg y.
Proof. unfold nonneg. apply leb_trans. Qed.

(** X1: with weather, traffic, hour and number of items fixed (weather and
    traffic among the values of the form, items not negative), a longer
    distance never gives a smaller total; the shorter distance is not
    negative. *)
Theorem distance_monotone d1 d2 weather traffic hour items :
  nonneg d1 -> (d1 <=? d2)%num = true -> nonneg items ->
  weather ∈ weather_values -> traffic ∈ traffic_values ->
  (time (calculateDeliveryTime d1 weather traffic hour items)
   <=? time (calculateDeliveryTime d2 weather traffic hour items))%num = true.
Proof.
  intros Hd H Hn Hw Ht.
  pose proof (weather_multiplier_positive weather Hw) as Pw.
  pose proof (traffic_multiplier_positive traffic Ht) as Pt.
  rewrite !time_unfold. cbv zeta.
  apply total_mono.
  - apply prepTime_nonneg. assumption.
  - apply adjusted_nonneg; assumption.
  - apply adjusted_mono; assumption.
Qed.

(** X2: with distance, weather, traffic and hour fixed (distance not
    negative, weather and traffic among the values of the form), more
    items never give a smaller total. *)
Theorem items_monotone distance weather traffic hour n1 n2 :
  nonneg distance -> nonneg n1 -> (n1 <=? n2)%num = true ->
  weather ∈ weather_values -> traffic ∈ traffic_values ->
  (time (calculateDeliveryTime distance weather traffic hour n1)
   <=? time (calculateDeliveryTime distance weather traffic hour n2))%num = true.
Proof.
  intros Hd Hn H Hw Ht.
  pose proof (weather_multiplier_positive weather Hw) as Pw.
  pose proof (traffic_multiplier_positive traffic Ht) as Pt.
  rewrite !time_unfold. cbv zeta.
  apply Math_round_mono, add_mono_l.
  - apply surcharge_nonneg, adjusted_nonneg; assumption.
  - apply prepTime_nonneg. assumption.
  - apply add_mono_r.
    + apply of_Z_nonneg. lia.
    + apply mul_nonneg; [assumption | apply positive_2].
    + apply mul_mono_l; [apply positive_2 | assumption].
Qed.

(** X3: for a distance and a number of items that are not negative and
    weather and traffic among the values of the form, the total at a peak
    hour is never smaller than the total at an hour off peak. *)
Theorem peak_never_lowers distance weather traffic items hour hour' :
  nonneg distance -> nonneg items ->
  weather ∈ weather_values -> traffic ∈ traffic_values ->
  In hour peakHours -> ~ In hour' peakHours ->
  (time (calculateDeliveryTime distance weather traffic hour' items)
   <=? time (calculateDeliveryTime distance weather traffic hour items))%num = true.
Proof.
  intros Hd Hn Hw Ht Hp Ho.
  pose proof (weather_multiplier_positive weather Hw) as Pw.
  pose proof (traffic_multiplier_positive traffic Ht) as Pt.
  apply includes_In in Hp.
  assert (Ho' : includes peakHours hour' = false).
  { destruct (includes peakHours hour') eqn:E; [| reflexivity].
    apply includes_In in E. contradiction. }
  rewrite !time_unfold. cbv zeta. rewrite Hp, Ho'.
  apply Math_round_mono, add_mono_r.
  - apply prepTime_nonneg. assumption.
  - apply adjusted_nonneg; assumption.
  - apply mul_ge_l.
    + apply mul_double.
    + apply adjusted_nonneg; assumption.
    + apply positive_surcharge.
    + apply surcharge_at_least_one.
Qed.

(** X4: at distance 0 the total is the preparation time 12 + 2 x items
    exactly, whatever the hour, for weather and traffic among the values
    of the form and a whole number of items below 2^51. *)
Theorem zero_distance_total weather traffic hour (n : Z) :
  0 <= n < 2 ^ 51 ->
  weather ∈ weather_values -> traffic ∈ traffic_values ->
  time (calculateDeliveryTime (of_Z 0) weather traffic hour (of_Z n))
  = of_Z (12 + 2 * n).
Proof.
  intros Hn Hw Ht.
  pose proof (weather_multiplier_positive weather Hw) as Pw.
  pose proof (traffic_multiplier_positive traffic Ht) as Pt.
  assert (P : 2 ^ 51 * 4 = 2 ^ precision) by reflexivity.
  rewrite time_unfold. cbv zeta.
  rewrite of_Z_0, (mul_zero_l _ positive_4), (mul_zero_l _ Pw), (mul_zero_l _ Pt).
  assert (E : (if includes peakHours hour then (Fin 0 * of_decimal 115 100)%num
               else Fin 0) = Fin 0).
  { destruct (includes peakHours hour); [apply mul_zero_l, positive_surcharge | reflexivity]. }
  rewrite E, mul_of_Z, add_of_Z by lia.
  replace (12 + n * 2) with (12 + 2 * n) by lia.
  rewrite <- of_Z_0, add_of_Z by lia. rewrite Z.add_0_r.
  apply Math_round_integral, of_Z_integral. lia.
Qed.

(** X5: a weather or a traffic value outside the tables does not stop the
    heuristic: the multiplier read is not a number, the total it returns
    is NaN, and the impact read for that value finds no entry. *)
Theorem unmapped_key_gives_NaN distance weather traffic hour items :
  weather ∉ weather_values \/ traffic ∉ traffic_values ->
  let r := calculateDeliveryTime distance weather traffic hour items in
  time r = NaN /\
  (weather ∉ weather_values -> weatherImpact r = None) /\
  (traffic ∉ traffic_values -> trafficImpact r = None).
Proof.
  intros H. cbv zeta. split; [| split].
  - rewrite time_unfold. cbv zeta.
    assert (E : (distance * of_Z 4 * ToNumber (weatherMultipliers !! weather)
                 * ToNumber (trafficMultipliers !! traffic))%num = NaN).
    { destruct H as [H | H].
      - destruct (not_in_weather_values _ H) as [-> _]. simpl ToNumber.
        rewrite mul_nan_r. reflexivity.
      - destruct (not_in_traffic_values _ H) as [-> _]. simpl ToNumber.
        apply mul_nan_r. }
    rewrite E. destruct (includes peakHours hour); simpl (NaN * _)%num;
      rewrite add_nan_r; reflexivity.
  - intros Hw. apply (not_in_weather_values _ Hw).
  - intros Ht. apply (not_in_traffic_values _ Ht).
Qed.

(** X6: when the distance or the number of items is NaN (what
    [parseFloat] and [parseInt] return for an empty field) the total is
    NaN; a NaN distance is tagged "Low" and takes no distance penalty on
    the confidence. *)
Theorem nan_input_gives_NaN distance weather traffic hour items :
  distance = NaN \/ items = NaN ->
  let r := calculateDeliveryTime distance weather traffic hour items in
  time r = NaN /\
  (distance = NaN ->
   distanceFactor r = "Low" /\
   confidence r = of_Z (85 - (if String.eqb weather "Heavy Rain" then 10 else 0)
                          - (if String.eqb traffic "Very High" then 8 else 0))).
Proof.
  intros H. cbv zeta. split.
  - rewrite time_unfold. cbv zeta. destruct H as [-> | ->].
    + change (NaN * of_Z 4)%num with NaN.
      change (NaN * ToNumber (weatherMultipliers !! weather))%num with NaN.
      change (NaN * ToNumber (trafficMultipliers !! traffic))%num with NaN.
      destruct (includes peakHours hour); simpl (NaN * _)%num;
        rewrite add_nan_r; reflexivity.
    + change (NaN * of_Z 2)%num with NaN. rewrite add_nan_r. reflexivity.
  - intros ->. split; [reflexivity |].
    rewrite confidence_value. change (NaN >? of_Z 10)%num with false.
    rewrite Z.sub_0_r. reflexivity.
Qed.

(** X7: for a distance that is not negative, a whole number of items that
    is not negative and weather and traffic among the values of the form,
    the total is a whole number of minutes, at least 12, or +Infinity. *)
Theorem total_is_whole_minutes distance weather traffic hour items :
  nonneg distance -> nonneg items -> integral items ->
  weather ∈ weather_values -> traffic ∈ traffic_values ->
  let total := time (calculateDeliveryTime distance weather traffic hour items) in
  total = PosInf \/ exists m, 12 <= m /\ total = of_Z m.
Proof.
  intros Hd Hn Hi Hw Ht. cbv zeta.
  pose proof (weather_multiplier_positive weather Hw) as Pw.
  pose proof (traffic_multiplier_positive traffic Ht) as Pt.
  assert (Hge : (of_Z 12 <=? time (calculateDeliveryTime distance weather traffic hour items))%num = true).
  { rewrite time_unfold. cbv zeta.
    apply leb_trans with (of_Z 12 + items * of_Z 2)%num.
    - apply add_ge_l.
      + apply of_Z_double.
      + apply of_Z_nonneg. lia.
      + apply mul_nonneg; [assumption | apply positive_2].
    - apply total_ge_prep.
      + apply add_double.
      + apply prepTime_nonneg. assumption.
      + apply prepTime_integral; assumption.
      + apply surcharge_nonneg, adjusted_nonneg; assumption. }
  revert Hge. rewrite time_unfold. cbv zeta.
  set (x := (of_Z 12 + items * of_Z 2 + _)%num).
  assert (Hx : nonneg x).
  { apply add_nonneg; [apply prepTime_nonneg; assumption |].
    apply surcharge_nonneg, adjusted_nonneg; assumption. }
  assert (Dx : double x) by apply add_double.
  clearbody x. intros Hge.
  destruct (integral_of_Z (Math_round x)) as [-> | (m & Hm & E)].
  - apply Math_round_double; assumption.
  - apply Math_round_nonneg. assumption.
  - apply Math_round_whole. assumption.
  - left. reflexivity.
  - right. exists m. split; [| assumption].
    rewrite E in Hge.
    apply of_Z_le_inv; [unfold precision; lia | assumption | exact Hge].
Qed.

(** X8: the confidence penalty for distance and the distance tag agree: a
    distance above 10 is tagged "High", and a result that is not tagged
    "High" carries no distance penalty. *)
Theorem distance_penalty_only_when_High distance weather traffic hour items :
  let r := calculateDeliveryTime distance weather traffic hour items in
  ((distance >? of_Z 10)%num = true -> distanceFactor r = "High") /\
  (distanceFactor r <> "High" ->
   confidence r = of_Z (85 - (if String.eqb weather "Heavy Rain" then 10 else 0)
                          - (if String.eqb traffic "Very High" then 8 else 0))).
Proof.
  cbv zeta.
  assert (T : (distance >? of_Z 10)%num = true -> (distance >? of_Z 7)%num = true).
  { unfold gtb. apply ltb_trans. by_computation. }
  unfold calculateDeliveryTime at 1 2. cbn [distanceFactor]. split.
  - intros H. rewrite (T H). reflexivity.
  - intros H. rewrite confidence_value.
    destruct (distance >? of_Z 10)%num eqn:E.
    + rewrite (T eq_refl) in H. contradiction.
    + rewrite Z.sub_0_r. reflexivity.
Qed.


Ltac in_values :=
  cbv [weather_values traffic_values]; rewrite !elem_of_cons; tauto.

Lemma distance_monotone_witness :
  (time (calculateDeliveryTime (of_Z 3) "Rain" "High" (of_Z 13) (of_Z 2))
   <=? time (calculateDeliveryTime (of_Z 8) "Rain" "High" (of_Z 13) (of_Z 2)))%num
  = true.
Proof.
  apply (distance_monotone (of_Z 3) (of_Z 8) "Rain" "High" (of_Z 13) (of_Z 2)).
  - vm_compute. reflexivity.
  - vm_compute. reflexivity.
  - vm_compute. reflexivity.
  - in_values.
  - in_values.
Defined.

Lemma items_monotone_witness :
  (time (calculateDeliveryTime (of_Z 5) "Hot" "Low" (of_Z 9) (of_Z 1))
   <=? time (calculateDeliveryTime (of_Z 5) "Hot" "Low" (of_Z 9) (of_Z 6)))%num
  = true.
Proof.
  apply (items_monotone (of_Z 5) "Hot" "Low" (of_Z 9) (of_Z 1) (of_Z 6)).
  - vm_compute. reflexivity.
  - vm_compute. reflexivity.
  - vm_compute. reflexivity.
  - in_values.
  - in_values.
Defined.

Lemma peak_never_lowers_witness :
  (time (calculateDeliveryTime (of_Z 5) "Clear" "Medium" (of_Z 10) (of_Z 2))
   <=? time (calculateDeliveryTime (of_Z 5) "Clear" "Medium" (of_Z 13) (of_Z 2)))%num
  = true.
Proof.
  apply (peak_never_lowers (of_Z 5) "Clear" "Medium" (of_Z 2) (of_Z 13) (of_Z 10)).
  - vm_compute. reflexivity.
  - vm_compute. reflexivity.
  - in_values.
  - in_values.
  - right. left. reflexivity.
  - vm_compute. intros H.
    repeat (destruct H as [H | H]; [discriminate H |]). exact H.
Defined.

Lemma zero_distance_total_witness :
  time (calculateDeliveryTime (of_Z 0) "Heavy Rain" "Very High" (of_Z 20) (of_Z 3))
  = of_Z (12 + 2 * 3).
Proof.
  apply (zero_distance_total "Heavy Rain" "Very High" (of_Z 20) 3).
  - lia.
  - in_values.
  - in_values.
Defined.

Lemma unmapped_key_gives_NaN_witness :
  let r := calculateDeliveryTime (of_Z 5) "Snow" "Low" (of_Z 10) (of_Z 2) in
  time r = NaN /\
  ("Snow" ∉ weather_values -> weatherImpact r = None) /\
  ("Low" ∉ traffic_values -> trafficImpact r = None).
Proof.
  apply (unmapped_key_gives_NaN (of_Z 5) "Snow" "Low" (of_Z 10) (of_Z 2)).
  left. unfold weather_values. rewrite !not_elem_of_cons.
  repeat split; try discriminate. apply not_elem_of_nil.
Defined.

Lemma nan_input_gives_NaN_witness :
  let r := calculateDeliveryTime NaN "Heavy Rain" "Low" (of_Z 10) (of_Z 2) in
  time r = NaN /\
  (NaN = NaN ->
   distanceFactor r = "Low" /\
   confidence r = of_Z (85 - (if String.eqb "Heavy Rain" "Heavy Rain" then 10 else 0)
                          - (if String.eqb "Low" "Very High" then 8 else 0))).
Proof.
  apply (nan_input_gives_NaN NaN "Heavy Rain" "Low" (of_Z 10) (of_Z 2)).
  left. reflexivity.
Defined.

Lemma total_is_whole_minutes_witness :
  let total := time (calculateDeliveryTime (of_decimal 55 10) "Rain" "High" (of_Z 13) (of_Z 2)) in
  total = PosInf \/ exists m, 12 <= m /\ total = of_Z m.
Proof.
  apply (total_is_whole_minutes (of_decimal 55 10) "Rain" "High" (of_Z 13) (of_Z 2)).
  - vm_compute. reflexivity.
  - vm_compute. reflexivity.
  - vm_compute. reflexivity.
  - in_values.
  - in_values.
Defined.

End MoreHeuristic.

(* ===================================================================== *)
(** * Part VIII.  Further properties of the orchestrator *)
(* ===================================================================== *)

Section MoreOrchestrator.

Opaque of_Z of_decimal round.

Ltac unfold_submission :=
  unfold submit, predictDeliveryTime;
  try match goal with
      | |- context [calculateDeliveryTime ?d ?w ?t ?h ?n] =>
          generalize (calculateDeliveryTime d w t h n); intros ?fb
      end;
  unfold bind, try_finally, try_catch, fetch, response_json, result_factors,
    ret, get_property, set_property, animateValue, setTimeout, alert,
    updateMap, throw;
  cbn -[insert lookup sub Math_round];
  repeat match goal with
         | H : _ = _ |- _ => rewrite H; cbn -[insert lookup sub Math_round]
         end;
  unfold run_timer.

Ltac outcome_cases outcome :=
  let status := fresh "status" in
  let result := fresh "result" in
  let Hok := fresh "Hok" in
  let Hs := fresh "Hs" in
  let Hf := fresh "Hf" in
  destruct outcome as [| status [result |]];
  [ | destruct (ok status) eqn:Hok;
      [destruct (Remote.success result) eqn:Hs;
       [destruct (Remote.factors_of result) eqn:Hf |] |]
    | destruct (ok status) eqn:Hok ].

Lemma button_after_submit p form outcome currentHour :
  let p' := submit p form outcome currentHour in
  p' !! "predictBtn.textContent"
  = Some (default Undefined (p !! "predictBtn.textContent")) /\
  p' !! "predictBtn.disabled" = Some (Bool false).
Proof.
  cbv zeta. outcome_cases outcome; unfold_submission; split;
    repeat first [rewrite lookup_insert_eq
                 | rewrite lookup_insert_ne by discriminate];
    exact eq_refl.
Qed.


Ltac read_page :=
  repeat first [rewrite lookup_insert_eq
               | rewrite lookup_insert_ne by discriminate].







(** X9: whatever the outcome of the call (a complete answer, any failure,
    an answer without factors), the [finally] block leaves the button with
    the caption it had before the submission, and enabled. *)
Theorem button_restored p form outcome currentHour :
  let p' := submit p form outcome currentHour in
  p' !! "predictBtn.textContent"
  = Some (default Undefined (p !! "predictBtn.textContent")) /\
  p' !! "predictBtn.disabled" = Some (Bool false).
Proof. exact (button_after_submit p form outcome currentHour). Qed.




(** X12: the four kinds of failure are handled alike: from the same form,
    hour and state of the page, any two failing outcomes leave the same
    page, the same pending timeouts and the same alerts. *)
Theorem failures_indistinguishable form outcome1 outcome2 currentHour w :
  remote_failure outcome1 -> remote_failure outcome2 ->
  predictDeliveryTime form outcome1 currentHour w
  = predictDeliveryTime form outcome2 currentHour w.
Proof.
  assert (G : forall outcome, remote_failure outcome ->
            predictDeliveryTime form outcome currentHour w
            = predictDeliveryTime form NetworkError currentHour w).
  { intros outcome H.
    destruct H as [| status json Hs | status | status result Hf].
    - reflexivity.
    - unfold_submission. reflexivity.
    - destruct (ok status) eqn:Hs; unfold_submission; reflexivity.
    - destruct (ok status) eqn:Hs; unfold_submission; reflexivity. }
  intros H1 H2. rewrite (G _ H1), (G _ H2). reflexivity.
Qed.

(** X13: a submission shows exactly one alert when the call does not end
    in a complete answer, and none when it does; it never shows more. *)
Theorem one_notification_per_failure form outcome currentHour w :
  let w' := snd (predictDeliveryTime form outcome currentHour w) in
  alerts w' = (alerts w ++ if complete_answer outcome then [] else [notification])%list.
Proof.
  cbv zeta. outcome_cases outcome; unfold complete_answer;
    repeat match goal with H : _ = _ |- _ => rewrite H end;
    unfold_submission; cbn [andb]; rewrite ?app_nil_r; reflexivity.
Qed.


(** X14: an answer with a status in 200-299 and a true success flag but
    no [factors] is not shown as a success: the [try] block throws when it
    reads the factors, one alert is shown, the timeout of the fallback is
    registered after the one of the answer, and the page ends with the
    confidence, the offline caption and the four factors of the
    heuristic. *)
Theorem answer_without_factors_falls_back p form status result currentHour :
  ok status = true -> Remote.success result = true ->
  Remote.factors_of result = None ->
  let fallbackPrediction :=
    calculateDeliveryTime (form_distance form) (form_weather form)
      (form_traffic form) currentHour (form_numItems form) in
  let offline := (confidence fallbackPrediction - of_Z 10)%num in
  let w := snd (predictDeliveryTime form (Response status (Some result)) currentHour
                  {| page := p; timers := []; alerts := [] |}) in
  let p' := submit p form (Response status (Some result)) currentHour in
  alerts w = [notification] /\
  timers w = [ {| timer_confidence := Remote.confidence result;
                  timer_suffix := "% Confidence" |};
               {| timer_confidence := offline;
                  timer_suffix := "% Confidence (Offline Mode)" |} ] /\
  p' !! "confidenceFill.style.width" = Some (NumberThen offline "%") /\
  p' !! "confidenceText"
  = Some (NumberThen offline "% Confidence (Offline Mode)") /\
  p' !! "weatherImpact"
  = Some (text_or_undefined (weatherImpact fallbackPrediction)) /\
  p' !! "trafficImpact"
  = Some (text_or_undefined (trafficImpact fallbackPrediction)) /\
  p' !! "distanceFactor" = Some (Text (distanceFactor fallbackPrediction)) /\
  p' !! "peakHour" = Some (Text (peakHour fallbackPrediction)).
Proof.
  intros Hok Hs Hf. cbv zeta.
  unfold_submission. repeat apply conj; read_page; exact eq_refl.
Qed.




Lemma failures_indistinguishable_witness :
  predictDeliveryTime overconfident_request NetworkError (of_Z 10)
    {| page := ∅; timers := []; alerts := [] |}
  = predictDeliveryTime overconfident_request (Response 500 None) (of_Z 10)
      {| page := ∅; timers := []; alerts := [] |}.
Proof.
  apply (failures_indistinguishable overconfident_request NetworkError
           (Response 500 None) (of_Z 10)).
  - apply transport_failure.
  - apply failure_status. reflexivity.
Defined.


Lemma answer_without_factors_falls_back_witness :
  let result :=
    {| Remote.success := true;
       Remote.estimated_time := of_Z 40;
       Remote.confidence := of_Z 90;
       Remote.factors_of := None |} in
  let fallbackPrediction :=
    calculateDeliveryTime (form_distance overconfident_request)
      (form_weather overconfident_request)
      (form_traffic overconfident_request) (of_Z 10)
      (form_numItems overconfident_request) in
  let offline := (confidence fallbackPrediction - of_Z 10)%num in
  let w := snd (predictDeliveryTime overconfident_request
                  (Response 200 (Some result)) (of_Z 10)
                  {| page := ∅; timers := []; alerts := [] |}) in
  let p' := submit ∅ overconfident_request (Response 200 (Some result)) (of_Z 10) in
  alerts w = [notification] /\
  timers w = [ {| timer_confidence := Remote.confidence result;
                  timer_suffix := "% Confidence" |};
               {| timer_confidence := offline;
                  timer_suffix := "% Confidence (Offline Mode)" |} ] /\
  p' !! "confidenceFill.style.width" = Some (NumberThen offline "%") /\
  p' !! "confidenceText"
  = Some (NumberThen offline "% Confidence (Offline Mode)") /\
  p' !! "weatherImpact"
  = Some (text_or_undefined (weatherImpact fallbackPrediction)) /\
  p' !! "trafficImpact"
  = Some (text_or_undefined (trafficImpact fallbackPrediction)) /\
  p' !! "distanceFactor" = Some (Text (distanceFactor fallbackPrediction)) /\
  p' !! "peakHour" = Some (Text (peakHour fallbackPrediction)).
Proof.
  apply (answer_without_factors_falls_back ∅ overconfident_request 200
           {| Remote.success := true;
              Remote.estimated_time := of_Z 40;
              Remote.confidence := of_Z 90;
              Remote.factors_of := None |} (of_Z 10));
    reflexivity.
Defined.


End MoreOrchestrator.

(* ===================================================================== *)
(** * Part IX.  The animation of the time value *)
(* ===================================================================== *)

Section Quotients.

(** The division of the model against the floats of the kernel. *)
#[local] Set Warnings "-inexact-float".
Example quotients_agree :
  map of_float [1000 / 16; 97 / 62.5; 177 / 62.5; 1 / 3; 2 / 3; 1e308 / 1e-10;
                5e-324 / 3; 1.5e-323 / 2; 7 / 1e300; 123456789.123 / 0.7;
                0.1 / 0.3; 36 / 62.5; 1e-310 / 3.7]%float
  = [(of_float 1000 / of_float 16)%num; (of_float 97 / of_float 62.5)%num;
     (of_float 177 / of_float 62.5)%num; (of_float 1 / of_float 3)%num;
     (of_float 2 / of_float 3)%num; (of_float 1e308 / of_float 1e-10)%num;
     (of_float 5e-324 / of_float 3)%num; (of_float 1.5e-323 / of_float 2)%num;
     (of_float 7 / of_float 1e300)%num;
     (of_float 123456789.123 / of_float 0.7)%num;
     (of_float 0.1 / of_float 0.3)%num; (of_float 36 / of_float 62.5)%num;
     (of_float 1e-310 / of_float 3.7)%num].
Proof. vm_compute. reflexivity. Qed.
End Quotients.

Section AnimationFacts.

Transparent of_Z of_decimal round.

Lemma rne_div_error n d : 0 < d -> 2 * Z.abs (rne_div n d * d - n) <= d.
Proof.
  intros Hd. unfold rne_div.
  pose proof (Z.div_mod n d ltac:(lia)) as E.
  pose proof (Z.mod_pos_bound n d Hd) as B.
  remember (n / d) as m eqn:Em. remember (n mod d) as r eqn:Er.
  clear Em Er.
  assert (E1 : m * d - n = - r) by lia.
  assert (E2 : (m + 1) * d - n = d - r) by lia.
  destruct (Z.ltb_spec (2 * r) d); [rewrite E1; lia |].
  destruct (Z.ltb_spec d (2 * r)); [rewrite E2; lia |].
  destruct (Z.even m); [rewrite E1 | rewrite E2]; lia.
Qed.

Lemma nearest_error c n :
  0 <= c -> 2 * Z.abs (nearest c n - n) <= 2 ^ drop c n.
Proof.
  intros Hc. unfold nearest. apply rne_div_error.
  apply pow2_pos. pose proof (drop_ge c n). lia.
Qed.

(** Rounding a sum of quanta: the error is at most half a unit in the
    last place of numbers of [e] bits. *)
Lemma rounded_sum_error n e :
  precision <= e -> 0 <= n < 2 ^ e ->
  2 * Z.abs (rounded 0 n - n) <= 2 ^ (e - precision).
Proof.
  intros He Hn.
  pose proof (rounded_scaled 0 n ltac:(lia)) as S. rewrite Z.mul_1_r in S.
  rewrite S. pose proof (nearest_error 0 n ltac:(lia)) as Err.
  assert (D : drop 0 n <= e - precision).
  { unfold drop. pose proof (bitlen_below n e ltac:(unfold precision in *; lia) Hn). lia. }
  assert (2 ^ drop 0 n <= 2 ^ (e - precision)).
  { apply pow2_le. pose proof (drop_ge 0 n). lia. }
  lia.
Qed.

Lemma sub_zero E : 0 <= E -> double (Fin E) -> (Fin E - of_Z 0)%num = Fin E.
Proof.
  intros HE Hd. rewrite of_Z_0. unfold sub, neg, add.
  change (- 0) with 0. rewrite Z.add_0_r. apply round_id; assumption.
Qed.

Lemma period : (of_Z 1000 / of_Z 16)%num = Fin (125 * 2 ^ (quantum - 1)).
Proof. vm_compute. reflexivity. Qed.

Lemma div_positive a b :
  0 < a -> 0 < b -> (Fin a / Fin b)%num = of_decimal a b.
Proof.
  intros Ha Hb. unfold div.
  destruct (Z.eqb_spec b 0); [lia |].
  rewrite !Z.abs_eq by lia.
  destruct (Z.ltb_spec a 0); [lia |]. destruct (Z.ltb_spec b 0); [lia |].
  reflexivity.
Qed.

(** The unit in the last place of the doubles of the binade of [E],
    halved twice: the scale of the rounding errors of the animation. *)
Lemma binade E :
  2 ^ quantum <= E ->
  let U := 2 ^ (bitlen E - precision) in
  quantum < bitlen E /\ 0 < U /\ U * 2 ^ 52 <= E /\ E < U * 2 ^ 53.
Proof.
  intros HE. cbv zeta.
  assert (Q : 0 < 2 ^ quantum) by (apply pow2_pos; unfold quantum; lia).
  pose proof (bitlen_upper E ltac:(lia)) as Hu.
  pose proof (bitlen_lower E ltac:(lia)) as Hl.
  assert (B : quantum < bitlen E).
  { apply (Z.pow_lt_mono_r_iff 2); [lia | apply bitlen_nonneg | lia]. }
  pose proof (eq_refl : quantum = 1074) as Eq.
  pose proof (eq_refl : precision = 53) as Ep.
  split; [assumption |]. split; [apply pow2_pos; lia |].
  replace (2 ^ 52) with (2 ^ (precision - 1)) by reflexivity.
  replace (2 ^ 53) with (2 ^ precision) by reflexivity.
  rewrite <- !pow2_split by lia.
  replace (bitlen E - precision + (precision - 1)) with (bitlen E - 1) by lia.
  replace (bitlen E - precision + precision) with (bitlen E) by lia.
  split; assumption.
Qed.

(** The increment of an animation from 0 to [E] quanta in 1000 ms:
    2/125 of [E], within the rounding error. *)
Lemma increment_bounds E :
  double (Fin E) -> 2 ^ quantum <= E -> E < 2 ^ overflow_exp ->
  let U := 2 ^ (bitlen E - precision) in
  exists J,
    Animation.increment (of_Z 0) (Fin E) (of_Z 1000) = Fin J /\
    2 * E - 125 * U <= 125 * J <= 2 * E + 125 * U.
Proof.
  intros Hd HE Ho U.
  destruct (binade E HE) as (HB & HU & Hlo & Hhi). fold U in HU, Hlo, Hhi.
  assert (Q : 0 < 2 ^ quantum) by (apply pow2_pos; unfold quantum; lia).
  assert (Q1 : 0 < 2 ^ (quantum - 1)) by (apply pow2_pos; unfold quantum; lia).
  pose proof (eq_refl : quantum = 1074) as Eq.
  pose proof (eq_refl : precision = 53) as Ep.
  unfold Animation.increment. rewrite sub_zero by (assumption || lia).
  rewrite period, div_positive by lia.
  unfold of_decimal.
  assert (En : E * 2 ^ (quantum + 64) = E * 2 ^ 65 * 2 ^ (quantum - 1)).
  { replace (quantum + 64) with (65 + (quantum - 1)) by lia.
    rewrite pow2_split by (unfold quantum; lia). ring. }
  rewrite En, Z.div_mul_cancel_r by lia.
  set (sticky := if _ =? 0 then 0 else 1).
  assert (Hs : 0 <= sticky <= 1) by (unfold sticky; destruct (_ =? 0); lia).
  clearbody sticky.
  pose proof (Z.div_mod (E * 2 ^ 65) 125 ltac:(lia)) as DM.
  pose proof (Z.mod_pos_bound (E * 2 ^ 65) 125 ltac:(lia)) as MB.
  remember (E * 2 ^ 65 / 125) as X eqn:EX.
  remember ((E * 2 ^ 65) mod 125) as R eqn:ER. clear EX ER.
  assert (HX : 0 <= X) by lia.
  remember (2 * X + sticky) as N eqn:EN.
  assert (HN : 0 <= N) by lia.
  (* the rounding *)
  pose proof (rounded_scaled 65 N ltac:(lia)) as RS.
  pose proof (nearest_error 65 N ltac:(lia)) as Err.
  assert (D : 2 ^ drop 65 N <= U * 2 ^ 60).
  { unfold U. rewrite <- pow2_split by lia.
    apply pow2_le. split; [pose proof (drop_ge 65 N); lia |].
    assert (bitlen N <= bitlen E + 60).
    { apply bitlen_below; [pose proof (bitlen_nonneg E); lia |].
      split; [assumption |].
      rewrite pow2_split by (pose proof (bitlen_nonneg E); lia).
      pose proof (bitlen_upper E ltac:(lia)). lia. }
    unfold drop. lia. }
  remember (rounded 65 N) as J eqn:EI.
  remember (nearest 65 N) as M eqn:EM.
  assert (Lo : 2 * E - 125 * U <= 125 * J) by lia.
  assert (Hi : 125 * J <= 2 * E + 125 * U) by lia.
  exists J. split; [| split; assumption].
  unfold round. destruct (Z.leb_spec 0 N); [| lia].
  rewrite round_pos_unfold, <- EI.
  destruct (Z.ltb_spec J (2 ^ overflow_exp)); [reflexivity | lia].
Qed.

Lemma ticks_succ k end_ increment s :
  Animation.ticks (S k) end_ increment s
  = let s' := Animation.ticks k end_ increment s in
    if Animation.cleared s' then s' else Animation.tick end_ increment s'.
Proof.
  revert s. induction k as [| k IH]; intros s.
  - simpl. destruct (Animation.cleared s); reflexivity.
  - change (Animation.ticks (S (S k)) end_ increment s)
      with (if Animation.cleared s then s
            else Animation.ticks (S k) end_ increment (Animation.tick end_ increment s)).
    rewrite IH. cbv zeta. simpl Animation.ticks.
    destruct (Animation.cleared s) eqn:C; [rewrite C |]; reflexivity.
Qed.

Lemma ticks_cleared k end_ increment s :
  Animation.cleared s = true -> Animation.ticks k end_ increment s = s.
Proof. intros C. destruct k; simpl; [| rewrite C]; reflexivity. Qed.

(** A tick that stays below the end keeps the interval running. *)
Lemma tick_continue E J c e text :
  0 < J -> 0 <= c -> precision <= e -> c + J < 2 ^ e ->
  2 * (c + J) + 2 ^ (e - precision) < 2 * E -> E < 2 ^ overflow_exp ->
  exists c',
    Animation.tick (Fin E) (Fin J)
      {| Animation.current := Fin c; Animation.cleared := false;
         Animation.textContent := text |}
    = {| Animation.current := Fin c'; Animation.cleared := false;
         Animation.textContent := Number (Math_round (Fin c')) |} /\
    2 * Z.abs (c' - (c + J)) <= 2 ^ (e - precision) /\ 0 <= c'.
Proof.
  intros HJ Hc He HS Hlt Ho.
  pose proof (rounded_sum_error (c + J) e He ltac:(lia)) as Err.
  pose proof (rounded_nonneg 0 (c + J) ltac:(lia) ltac:(lia)) as Hn.
  exists (rounded 0 (c + J)). split; [| split; assumption].
  unfold Animation.tick. cbn [Animation.current].
  assert (A : (Fin c + Fin J)%num = Fin (rounded 0 (c + J))).
  { unfold add, round. destruct (Z.leb_spec 0 (c + J)); [| lia].
    rewrite round_pos_unfold.
    destruct (Z.ltb_spec (rounded 0 (c + J)) (2 ^ overflow_exp)); [reflexivity | lia]. }
  rewrite A, of_Z_0. unfold gtb, geb, ltb, leb.
  destruct (Z.ltb_spec 0 J); [| lia].
  destruct (Z.leb_spec E (rounded 0 (c + J))); [lia |].
  destruct (Z.ltb_spec J 0); [lia |].
  reflexivity.
Qed.

(** A tick that reaches the end clears the interval and shows the end. *)
Lemma tick_finish E J c e text :
  0 < J -> 0 <= c -> precision <= e -> c + J < 2 ^ e ->
  2 * E + 2 ^ (e - precision) <= 2 * (c + J) ->
  Animation.tick (Fin E) (Fin J)
    {| Animation.current := Fin c; Animation.cleared := false;
       Animation.textContent := text |}
  = {| Animation.current := Fin E; Animation.cleared := true;
       Animation.textContent := Number (Math_round (Fin E)) |}.
Proof.
  intros HJ Hc He HS Hge.
  pose proof (rounded_sum_error (c + J) e He ltac:(lia)) as Err.
  unfold Animation.tick. cbn [Animation.current].
  assert (A : (Fin E <=? Fin c + Fin J)%num = true).
  { unfold add, round. destruct (Z.leb_spec 0 (c + J)); [| lia].
    rewrite round_pos_unfold.
    destruct (Z.ltb_spec (rounded 0 (c + J)) (2 ^ overflow_exp)); [| reflexivity].
    simpl. apply Z.leb_le. lia. }
  assert (B : (Fin 0 <? Fin J)%num = true) by (apply Z.ltb_lt; assumption).
  rewrite of_Z_0. unfold gtb, geb. rewrite A, B. reflexivity.
Qed.


Lemma ticks_add a b end_ increment s :
  Animation.ticks (a + b) end_ increment s
  = Animation.ticks b end_ increment (Animation.ticks a end_ increment s).
Proof.
  revert s. induction a as [| a IH]; intros s; [reflexivity |].
  simpl. destruct (Animation.cleared s) eqn:C.
  - rewrite ticks_cleared by assumption. reflexivity.
  - apply IH.
Qed.

(** The first 62 ticks of an animation from 0 to [E] quanta by steps of
    [J] quanta, [J] within [U] of 2/125 of [E]: the interval is still
    running and the value is [k] steps, within [k] rounding errors. *)
Lemma animation_running E J text (k : nat) :
  2 ^ quantum <= E -> E < 2 ^ overflow_exp ->
  let U := 2 ^ (bitlen E - precision) in
  2 * E - 125 * U <= 125 * J <= 2 * E + 125 * U ->
  (k <= 62)%nat ->
  exists c text',
    Animation.ticks k (Fin E) (Fin J)
      {| Animation.current := Fin 0; Animation.cleared := false;
         Animation.textContent := text |}
    = {| Animation.current := Fin c; Animation.cleared := false;
         Animation.textContent := text' |} /\
    Z.of_nat k * (J - U) <= c <= Z.of_nat k * (J + U) /\
    ((0 < k)%nat -> text' = Number (Math_round (Fin c))).
Proof.
  intros HE Ho U HJ.
  destruct (binade E HE) as (HB & HU & Hlo & Hhi). fold U in HU, Hlo, Hhi.
  pose proof (bitlen_upper E ltac:(lia)) as Hb.
  induction k as [| k IH]; intros Hk.
  - exists 0, text. split; [reflexivity |]. split; [lia | lia].
  - destruct (IH ltac:(lia)) as (c & text' & Hs & Hc & _).
    assert (K : Z.of_nat k <= 61) by lia.
    assert (K1 : Z.of_nat k * (J + U) <= 61 * (J + U)).
    { apply Z.mul_le_mono_nonneg_r; lia. }
    assert (K2 : 0 <= Z.of_nat k * (J - U)).
    { apply Z.mul_nonneg_nonneg; lia. }
    assert (G1 : 0 < J) by lia.
    assert (G2 : 0 <= c) by lia.
    assert (G3 : precision <= bitlen E).
    { pose proof (eq_refl : quantum = 1074). pose proof (eq_refl : precision = 53). lia. }
    assert (G4 : c + J < 2 ^ bitlen E) by lia.
    assert (G5 : 2 * (c + J) + 2 ^ (bitlen E - precision) < 2 * E).
    { fold U. lia. }
    destruct (tick_continue E J c (bitlen E) text' G1 G2 G3 G4 G5 Ho)
      as (c' & Ht & Err & Hc').
    fold U in Err.
    exists c', (Number (Math_round (Fin c'))).
    rewrite ticks_succ, Hs. cbv zeta. cbn [Animation.cleared]. rewrite Ht.
    split; [reflexivity |]. split; [| reflexivity].
    rewrite Nat2Z.inj_succ, <- Z.add_1_r. lia.
Qed.


(** The 63rd tick is the last one. *)
Lemma animation_finished E J text :
  2 ^ quantum <= E -> E < 2 ^ overflow_exp ->
  let U := 2 ^ (bitlen E - precision) in
  2 * E - 125 * U <= 125 * J <= 2 * E + 125 * U ->
  Animation.ticks 63 (Fin E) (Fin J)
    {| Animation.current := Fin 0; Animation.cleared := false;
       Animation.textContent := text |}
  = {| Animation.current := Fin E; Animation.cleared := true;
       Animation.textContent := Number (Math_round (Fin E)) |}.
Proof.
  intros HE Ho U HJ.
  destruct (animation_running E J text 62 HE Ho HJ ltac:(lia))
    as (c & text' & Hs & Hc & _).
  fold U in Hc.
  destruct (binade E HE) as (HB & HU & Hlo & Hhi). fold U in HU, Hlo, Hhi.
  pose proof (bitlen_upper E ltac:(lia)) as Hb.
  pose proof (bitlen_nonneg E) as Hn.
  rewrite ticks_succ, Hs. cbv zeta. cbn [Animation.cleared].
  change (Z.of_nat 62) with 62 in Hc.
  assert (P1 : 2 ^ (bitlen E + 1) = 2 * 2 ^ bitlen E).
  { rewrite pow2_split by lia. change (2 ^ 1) with 2. ring. }
  assert (P2 : 2 ^ (bitlen E + 1 - precision) = 2 * U).
  { unfold U. replace (bitlen E + 1 - precision) with (1 + (bitlen E - precision)) by lia.
    rewrite pow2_split; [reflexivity | lia |].
    pose proof (eq_refl : quantum = 1074). pose proof (eq_refl : precision = 53). lia. }
  apply (tick_finish E J c (bitlen E + 1)).
  - lia.
  - lia.
  - pose proof (eq_refl : quantum = 1074). pose proof (eq_refl : precision = 53). lia.
  - rewrite P1. lia.
  - rewrite P2. lia.
Qed.


(** A finite double that is at least 1, in quanta. *)
Lemma at_least_one end_ :
  double end_ -> (of_Z 1 <=? end_)%num = true -> end_ <> PosInf ->
  exists E, end_ = Fin E /\ 2 ^ quantum <= E /\ E < 2 ^ overflow_exp.
Proof.
  intros Hd H1 Hf. rewrite of_Z_1 in H1.
  destruct end_ as [| | E |]; try discriminate; [| congruence].
  simpl in H1. apply Z.leb_le in H1.
  assert (Q : 0 < 2 ^ quantum) by (apply pow2_pos; unfold quantum; lia).
  destruct Hd as [_ Hr]. rewrite Z.abs_eq in Hr by lia.
  exists E. repeat split; assumption.
Qed.

(** From the 63rd tick on the interval is cleared and the text is the
    rounded end. *)
Lemma animation_end text end_ (n : nat) :
  double end_ -> (of_Z 1 <=? end_)%num = true -> end_ <> PosInf ->
  (63 <= n)%nat ->
  Animation.animateValue text (of_Z 0) end_ (of_Z 1000) n
  = {| Animation.current := end_; Animation.cleared := true;
       Animation.textContent := Number (Math_round end_) |}.
Proof.
  intros Hd H1 Hf Hn.
  destruct (at_least_one end_ Hd H1 Hf) as (E & -> & HE & Ho).
  destruct (increment_bounds E Hd HE Ho) as (J & HJ & HB).
  unfold Animation.animateValue. rewrite HJ, of_Z_0.
  replace n with (63 + (n - 63))%nat by lia.
  rewrite ticks_add, (animation_finished E J text HE Ho HB).
  apply ticks_cleared. reflexivity.
Qed.

(** X16: an animation from 0 to a finite end of at least 1, as both calls
    of the source start it (1000 ms), runs for exactly 63 ticks: the
    interval is not cleared before the 63rd tick; at the 63rd it is, and
    from then on the text is [Math.round(end)]; from the first tick on
    the number shown never decreases and never exceeds that final one. *)
Theorem animation_settles text end_ :
  double end_ -> (of_Z 1 <=? end_)%num = true -> end_ <> PosInf ->
  let s := Animation.animateValue text (of_Z 0) end_ (of_Z 1000) in
  (forall n, (n < 63)%nat -> Animation.cleared (s n) = false) /\
  (forall n, (63 <= n)%nat ->
     s n = {| Animation.current := end_; Animation.cleared := true;
              Animation.textContent := Number (Math_round end_) |}) /\
  (forall n, (1 <= n)%nat ->
     exists x y,
       Animation.textContent (s n) = Number x /\
       Animation.textContent (s (S n)) = Number y /\
       (x <=? y)%num = true /\ (y <=? Math_round end_)%num = true).
Proof.
  intros Hd H1 Hf.
  destruct (at_least_one end_ Hd H1 Hf) as (E & -> & HE & Ho).
  destruct (increment_bounds E Hd HE Ho) as (J & HJ & HB).
  cbv zeta. unfold Animation.animateValue. rewrite HJ, of_Z_0.
  set (U := 2 ^ (bitlen E - precision)) in *.
  pose proof (animation_finished E J text HE Ho HB) as Hend.
  assert (Hlate : forall n, (63 <= n)%nat ->
            Animation.ticks n (Fin E) (Fin J)
              {| Animation.current := Fin 0; Animation.cleared := false;
                 Animation.textContent := text |}
            = {| Animation.current := Fin E; Animation.cleared := true;
                 Animation.textContent := Number (Math_round (Fin E)) |}).
  { intros n Hn. replace n with (63 + (n - 63))%nat by lia.
    rewrite ticks_add, Hend. apply ticks_cleared. reflexivity. }
  destruct (binade E HE) as (_ & HU & Hlo & Hhi). fold U in HU, Hlo, Hhi.
  assert (ME : (Math_round (Fin E) <=? Math_round (Fin E))%num = true).
  { apply leb_refl. discriminate. }
  split; [| split].
  - intros n Hn.
    destruct (animation_running E J text n HE Ho HB ltac:(lia)) as (c & t & -> & _).
    reflexivity.
  - exact Hlate.
  - intros n Hn.
    destruct (le_lt_dec 63 n) as [L | L].
    + rewrite !Hlate by lia. cbn [Animation.textContent].
      exists (Math_round (Fin E)), (Math_round (Fin E)).
      repeat split; assumption.
    + destruct (animation_running E J text n HE Ho HB ltac:(lia))
        as (c & t & Hs & Hc & Ht).
      fold U in Hc. specialize (Ht ltac:(lia)). subst t.
      assert (K1 : Z.of_nat n * (J + U) <= 62 * (J + U)).
      { apply Z.mul_le_mono_nonneg_r; lia. }
      assert (K2 : 0 <= Z.of_nat n * (J - U)).
      { apply Z.mul_nonneg_nonneg; lia. }
      assert (cE : (Math_round (Fin c) <=? Math_round (Fin E))%num = true).
      { apply Math_round_mono. simpl. apply Z.leb_le. lia. }
      rewrite ticks_succ, Hs. cbv zeta. cbn [Animation.cleared Animation.textContent].
      exists (Math_round (Fin c)).
      destruct (le_lt_dec 62 n) as [L' | L'].
      * assert (n = 62)%nat by lia. subst n.
        rewrite ticks_succ in Hend. rewrite Hs in Hend. cbv zeta in Hend.
        cbn [Animation.cleared] in Hend. rewrite Hend. cbn [Animation.textContent].
        exists (Math_round (Fin E)). repeat split; assumption.
      * destruct (animation_running E J text (S n) HE Ho HB ltac:(lia))
          as (c' & t' & Hs' & Hc' & Ht').
        fold U in Hc'. specialize (Ht' ltac:(lia)). subst t'.
        rewrite ticks_succ, Hs in Hs'. cbv zeta in Hs'.
        cbn [Animation.cleared] in Hs'. rewrite Hs'. cbn [Animation.textContent].
        exists (Math_round (Fin c')).
        assert (K3 : Z.of_nat (S n) * (J + U) <= 62 * (J + U)).
        { apply Z.mul_le_mono_nonneg_r; lia. }
        split; [reflexivity | split; [reflexivity | split]].
        -- apply Math_round_mono. simpl. apply Z.leb_le.
           assert (K4 : Z.of_nat n * U <= 61 * U).
           { apply Z.mul_le_mono_nonneg_r; lia. }
           rewrite Nat2Z.inj_succ, <- Z.add_1_r in Hc'. lia.
        -- apply Math_round_mono. simpl. apply Z.leb_le. lia.
Qed.


Lemma ticks_fixed n end_ increment s0 s1 :
  Animation.cleared s0 = false -> Animation.cleared s1 = false ->
  Animation.tick end_ increment s0 = s1 ->
  Animation.tick end_ increment s1 = s1 ->
  (1 <= n)%nat -> Animation.ticks n end_ increment s0 = s1.
Proof.
  intros C0 C1 T0 T1 Hn.
  destruct n as [| n]; [lia |]. clear Hn.
  induction n as [| n IH].
  - simpl. rewrite C0. exact T0.
  - rewrite ticks_succ, IH. cbv zeta. rewrite C1. exact T1.
Qed.

(** An animation toward 0 or NaN is stalled from its first tick. *)
Lemma animation_stalled text end_ (n : nat) :
  end_ = of_Z 0 \/ end_ = NaN -> (1 <= n)%nat ->
  Animation.animateValue text (of_Z 0) end_ (of_Z 1000) n
  = {| Animation.current := end_; Animation.cleared := false;
       Animation.textContent := Number (Math_round end_) |}.
Proof.
  intros [-> | ->] Hn; unfold Animation.animateValue;
    (apply ticks_fixed;
     [reflexivity | reflexivity | vm_compute; reflexivity
     | vm_compute; reflexivity | assumption]).
Qed.

(** X17: an animation toward 0, or toward NaN, never stops: its increment
    is 0, or NaN, so neither test of the callback ever holds, the
    interval is never cleared, and every tick writes the same text,
    [Math.round(end)], again. *)
Theorem animation_never_stops text end_ (n : nat) :
  end_ = of_Z 0 \/ end_ = NaN -> (1 <= n)%nat ->
  let s := Animation.animateValue text (of_Z 0) end_ (of_Z 1000) n in
  Animation.cleared s = false /\
  Animation.current s = end_ /\
  Animation.textContent s = Number (Math_round end_).
Proof.
  intros H Hn. cbv zeta. rewrite (animation_stalled text end_ n H Hn).
  repeat split.
Qed.

(** X18: what the model of [animateValue] used for [predictDeliveryTime]
    writes, [Math.round(end)], is the text the element shows once the
    animation has run its 63 ticks (a finite end of at least 1), or from
    the first tick on (an end that is 0 or NaN). *)
Theorem animateValue_writes_final_text id text end_ (n : nat) w :
  (double end_ /\ (of_Z 1 <=? end_)%num = true /\ end_ <> PosInf /\ (63 <= n)%nat)
  \/ ((end_ = of_Z 0 \/ end_ = NaN) /\ (1 <= n)%nat) ->
  page (snd (animateValue id end_ w)) !! id
  = Some (Animation.textContent
            (Animation.animateValue text (of_Z 0) end_ (of_Z 1000) n)).
Proof.
  intros H. unfold animateValue, set_property. cbn [snd page].
  rewrite lookup_insert_eq. f_equal.
  destruct H as [(Hd & H1 & Hf & Hn) | (H0 & Hn)].
  - rewrite animation_end by assumption. reflexivity.
  - rewrite animation_stalled by assumption. reflexivity.
Qed.

Lemma animateValue_writes_final_text_witness :
  page (snd (animateValue "timeValue" (of_Z 177)
               {| page := ∅; timers := []; alerts := [] |})) !! "timeValue"
  = Some (Animation.textContent
            (Animation.animateValue (Text "--") (of_Z 0) (of_Z 177) (of_Z 1000) 63)).
Proof.
  apply (animateValue_writes_final_text "timeValue" (Text "--") (of_Z 177) 63).
  left. split; [apply of_Z_double |].
  split; [vm_compute; reflexivity |]. split; [vm_compute; discriminate | lia].
Defined.

Lemma animation_settles_witness :
  let s := Animation.animateValue (Text "--") (of_Z 0) (of_Z 177) (of_Z 1000) in
  (forall n, (n < 63)%nat -> Animation.cleared (s n) = false) /\
  (forall n, (63 <= n)%nat ->
     s n = {| Animation.current := of_Z 177; Animation.cleared := true;
              Animation.textContent := Number (Math_round (of_Z 177)) |}) /\
  (forall n, (1 <= n)%nat ->
     exists x y,
       Animation.textContent (s n) = Number x /\
       Animation.textContent (s (S n)) = Number y /\
       (x <=? y)%num = true /\ (y <=? Math_round (of_Z 177))%num = true).
Proof.
  apply (animation_settles (Text "--") (of_Z 177)).
  - apply of_Z_double.
  - vm_compute. reflexivity.
  - vm_compute. discriminate.
Defined.

Lemma animation_never_stops_witness :
  let s := Animation.animateValue (Text "--") (of_Z 0) (of_Z 0) (of_Z 1000) 500 in
  Animation.cleared s = false /\
  Animation.current s = of_Z 0 /\
  Animation.textContent s = Number (Math_round (of_Z 0)).
Proof.
  apply (animation_never_stops (Text "--") (of_Z 0) 500).
  - left. reflexivity.
  - lia.
Defined.

Example animation_of_177 :
  map (fun n => Animation.textContent
                  (Animation.animateValue (Text "--") (of_Z 0) (of_Z 177) (of_Z 1000) n))
      [1; 2; 63]%nat
  = map (fun i => Number (of_Z i)) [3; 6; 177].
Proof. vm_compute. reflexivity. Qed.

End AnimationFacts.

(* ===================================================================== *)
(** * Part X.  The request payload *)
(* ===================================================================== *)

Section PayloadFacts.

Transparent of_Z of_decimal round.

Lemma random_value_cases r :
  random_value r ->
  exists k, r = Fin k /\ 0 <= k <= 2 ^ quantum - 2 ^ (quantum - precision).
Proof.
  intros (Hd & H0 & H1). rewrite of_Z_0 in H0. rewrite of_Z_1 in H1.
  destruct r as [| | k |]; try discriminate.
  simpl in H0, H1. apply Z.leb_le in H0. apply Z.ltb_lt in H1.
  exists k. split; [reflexivity |]. split; [assumption |].
  destruct Hd as [Hm _]. rewrite Z.abs_eq in Hm by assumption.
  set (P := 2 ^ (quantum - precision)).
  assert (HP : 0 < P) by (apply pow2_pos; unfold quantum, precision; lia).
  assert (S : 2 ^ quantum = 2 ^ precision * P).
  { unfold P. rewrite <- pow2_split by (unfold quantum, precision; lia).
    f_equal. }
  assert (S1 : 2 ^ (quantum - 1) = 2 ^ (precision - 1) * P).
  { unfold P. rewrite <- pow2_split by (unfold quantum, precision; lia).
    f_equal. }
  assert (V : 2 ^ precision = 2 * 2 ^ (precision - 1)) by reflexivity.
  assert (V1 : 1 <= 2 ^ (precision - 1)) by (vm_compute; discriminate).
  remember (2 ^ precision) as T eqn:ET.
  remember (2 ^ (precision - 1)) as T1 eqn:ET1.
  rewrite S in *.
  destruct (Z_lt_le_dec k (T1 * P)) as [Hs | Hl].
  - assert (T1 * P <= T * P - P); [| lia].
    rewrite V. replace (2 * T1 * P - P) with (T1 * P + (T1 - 1) * P) by ring.
    assert (0 <= (T1 - 1) * P) by (apply Z.mul_nonneg_nonneg; lia). lia.
  - assert (B : bitlen k = quantum).
    { apply Z.le_antisymm.
      - apply bitlen_below; [unfold quantum; lia |]. rewrite S. lia.
      - destruct (Z_lt_le_dec (bitlen k) quantum) as [C |]; [| assumption].
        exfalso.
        pose proof (bitlen_upper k H0) as Hu.
        assert (2 ^ bitlen k <= 2 ^ (quantum - 1)).
        { apply pow2_le. pose proof (bitlen_nonneg k). lia. }
        rewrite S1 in *. lia. }
    assert (D : drop 0 k = quantum - precision).
    { unfold drop. rewrite B. unfold quantum, precision. reflexivity. }
    rewrite D in Hm. fold P in Hm.
    apply Z.mod_divide in Hm; [| lia]. destruct Hm as [j Hj]. subst k.
    assert (j < T) by (apply (Z.mul_lt_mono_pos_r P); assumption).
    assert (j * P <= (T - 1) * P) by (apply Z.mul_le_mono_nonneg_r; lia).
    lia.
Qed.


Lemma Math_floor_mono x y :
  (x <=? y)%num = true -> (Math_floor x <=? Math_floor y)%num = true.
Proof.
  destruct x as [| | a |], y as [| | b |]; simpl; try congruence.
  rewrite !Z.leb_le. intros H.
  assert (Q : 0 < 2 ^ quantum) by (apply pow2_pos; unfold quantum; lia).
  apply Z.mul_le_mono_nonneg_r; [lia |]. apply Z.div_le_mono; lia.
Qed.

Lemma Math_floor_nonneg x : nonneg x -> nonneg (Math_floor x).
Proof.
  intros [-> | (k & -> & Hk)]%nonneg_cases; [reflexivity |].
  apply nonneg_Fin.
  assert (Q : 0 < 2 ^ quantum) by (apply pow2_pos; unfold quantum; lia).
  apply Z.mul_nonneg_nonneg; [apply Z.div_pos |]; lia.
Qed.

Lemma Math_floor_integral x : nonneg x -> integral (Math_floor x).
Proof.
  intros [-> | (k & -> & Hk)]%nonneg_cases; [exact I |].
  simpl. apply Z.mod_mul.
  pose proof (pow2_pos quantum). unfold quantum in *. lia.
Qed.

Lemma random_below_one r : random_value r -> (r <=? below_one)%num = true.
Proof.
  intros (k & -> & Hk)%random_value_cases. unfold below_one. simpl.
  apply Z.leb_le. lia.
Qed.

Lemma random_nonneg r : random_value r -> nonneg r.
Proof. intros (_ & H & _). rewrite of_Z_0 in H. exact H. Qed.

Lemma of_decimal_double a b : double (of_decimal a b).
Proof. unfold of_decimal. apply round_double. lia. Qed.

Opaque of_Z of_decimal round.

Lemma of_Z_ge_inv m i :
  0 <= m -> 0 <= i -> i + 1 < 2 ^ precision ->
  (of_Z m <=? of_Z i)%num = true -> m <= i.
Proof.
  intros Hm Hi Hs H.
  destruct (Z_le_gt_dec m i) as [| C]; [assumption | exfalso].
  assert (L : (of_Z (i + 1) <=? of_Z i)%num = true).
  { apply leb_trans with (of_Z m); [apply of_Z_mono; lia | assumption]. }
  rewrite !of_Z_small in L by lia. simpl in L. apply Z.leb_le in L.
  pose proof (pow2_pos quantum). unfold quantum in *. nia.
Qed.

(** The rating sent with a request. *)
Lemma rating_range r :
  random_value r ->
  let rating := (of_decimal 42 10 + r * of_decimal 5 10)%num in
  (of_decimal 42 10 <=? rating)%num = true /\
  (rating <=? of_decimal 47 10)%num = true.
Proof.
  intros Hr. cbv zeta.
  pose proof (random_nonneg r Hr) as Hn.
  assert (P5 : is_positive (of_decimal 5 10)) by (vm_compute; reflexivity).
  assert (N42 : nonneg (of_decimal 42 10)) by (vm_compute; reflexivity).
  split.
  - apply add_ge_l; [| assumption |].
    + apply of_decimal_double.
    + apply mul_nonneg; assumption.
  - apply leb_trans with (of_decimal 42 10 + below_one * of_decimal 5 10)%num.
    + apply add_mono_r; [assumption | apply mul_nonneg; assumption |].
      apply mul_mono_l; [assumption | apply random_below_one; assumption].
    + vm_compute. reflexivity.
Qed.

(** The months of experience sent with a request. *)
Lemma experience_range r :
  random_value r ->
  exists m, 6 <= m <= 41 /\
    (Math_floor (r * of_Z 36) + of_Z 6)%num = of_Z m.
Proof.
  intros Hr.
  pose proof (random_nonneg r Hr) as Hn.
  assert (P36 : is_positive (of_Z 36)) by (vm_compute; reflexivity).
  assert (Hp : nonneg (r * of_Z 36)%num) by (apply mul_nonneg; assumption).
  pose proof (Math_floor_nonneg _ Hp) as Hf.
  assert (N6 : nonneg (of_Z 6)) by (apply of_Z_nonneg; lia).
  assert (Hlo : (of_Z 6 <=? Math_floor (r * of_Z 36) + of_Z 6)%num = true).
  { rewrite add_comm. apply add_ge_l; [apply of_Z_double | assumption | assumption]. }
  assert (Hhi : (Math_floor (r * of_Z 36) + of_Z 6 <=? of_Z 41)%num = true).
  { apply leb_trans with (Math_floor (below_one * of_Z 36) + of_Z 6)%num.
    - apply add_mono_l; [assumption | assumption |].
      apply Math_floor_mono, mul_mono_l; [assumption |].
      apply random_below_one. assumption.
    - vm_compute. reflexivity. }
  destruct (integral_of_Z (Math_floor (r * of_Z 36) + of_Z 6)%num)
    as [E | (m & Hm & E)].
  - apply add_double.
  - apply add_nonneg; assumption.
  - apply add_integral; try assumption.
    + apply Math_floor_integral. assumption.
    + apply of_Z_integral. lia.
  - exfalso. rewrite E in Hhi. revert Hhi. clear. vm_compute. discriminate.
  - exists m. split; [| assumption]. rewrite E in Hlo, Hhi. split.
    + apply of_Z_le_inv; [unfold precision; lia | assumption | assumption].
    + apply of_Z_ge_inv; [assumption | lia | unfold precision; lia | assumption].
Qed.


Lemma random_below_one_value : random_value below_one.
Proof. repeat split; vm_compute; first [reflexivity | discriminate]. Qed.

(** X19: the two sampled fields of the payload.  Building the payload
    draws exactly two numbers from [Math.random()] and touches nothing
    else of the browser; the rating lies between 4.2 and 4.7, both ends
    included (a draw of the largest double below 1 gives 4.7), and the
    experience is a whole number of months from 6 to 41. *)
Theorem payload_sampled_fields form b :
  (forall i, random_value (entropy b i)) ->
  exists p b',
    payload form b = (inr p, b') /\
    document b' = document b /\ clock b' = clock b /\
    entropy b' = entropy b /\ drawn b' = S (S (drawn b)) /\
    (of_decimal 42 10 <=? Request.restaurant_rating p)%num = true /\
    (Request.restaurant_rating p <=? of_decimal 47 10)%num = true /\
    (exists m, 6 <= m <= 41 /\ Request.partner_experience p = of_Z m) /\
    (entropy b (drawn b) = below_one ->
     Request.restaurant_rating p = of_decimal 47 10).
Proof.
  intros Hr.
  destruct (rating_range _ (Hr (drawn b))) as [R1 R2].
  destruct (experience_range _ (Hr (S (drawn b)))) as (m & Hm & E).
  eexists _, _. split; [reflexivity |].
  cbn [document clock entropy drawn Request.restaurant_rating
       Request.partner_experience].
  repeat (split; [first [reflexivity | assumption] |]).
  split; [exists m; split; assumption |].
  intros ->. vm_compute. reflexivity.
Qed.

Lemma payload_sampled_fields_witness :
  let b := {| document := {| page := ∅; timers := []; alerts := [] |};
              clock := of_Z 10;
              entropy := fun _ => below_one;
              drawn := 0 |} in
  exists p b',
    payload overconfident_request b = (inr p, b') /\
    document b' = document b /\ clock b' = clock b /\
    entropy b' = entropy b /\ drawn b' = S (S (drawn b)) /\
    (of_decimal 42 10 <=? Request.restaurant_rating p)%num = true /\
    (Request.restaurant_rating p <=? of_decimal 47 10)%num = true /\
    (exists m, 6 <= m <= 41 /\ Request.partner_experience p = of_Z m) /\
    (entropy b (drawn b) = below_one ->
     Request.restaurant_rating p = of_decimal 47 10).
Proof.
  apply (payload_sampled_fields overconfident_request
           {| document := {| page := ∅; timers := []; alerts := [] |};
              clock := of_Z 10;
              entropy := fun _ => below_one;
              drawn := 0 |}).
  intros i. exact random_below_one_value.
Defined.

Lemma cuisine_in_table restaurant c :
  restaurantCuisine !! restaurant = Some c -> c ∈ cuisines /\ c <> "".
Proof.
  unfold restaurantCuisine. intros H.
  repeat (apply lookup_insert_Some in H as [[_ <-] | [_ H]];
          [split; [unfold cuisines; rewrite !elem_of_cons; tauto | discriminate] |]).
  apply lookup_singleton_Some in H as [_ <-].
  split; [unfold cuisines; rewrite !elem_of_cons; tauto | discriminate].
Qed.

Lemma prototype_not_in_table restaurant :
  restaurant ∈ Object_prototype -> restaurantCuisine !! restaurant = None.
Proof.
  unfold Object_prototype. rewrite !elem_of_cons, elem_of_nil. intros H.
  unfold restaurantCuisine.
  repeat (destruct H as [-> | H];
          [rewrite !lookup_insert_ne, lookup_singleton_ne by discriminate;
           reflexivity |]).
  contradiction.
Qed.

(** X20: the cuisine of the payload.  A restaurant of the table gets its
    cuisine, one of six names; a restaurant that is neither in the table
    nor named like a member of [Object.prototype] gets "North Indian"; a
    restaurant named like such a member (constructor, toString, ...) gets
    that member, not a cuisine. *)
Theorem cuisine_of_restaurant restaurant :
  (forall c, restaurantCuisine !! restaurant = Some c ->
     cuisine_of restaurant = Request.Cuisine c /\ c ∈ cuisines) /\
  (restaurantCuisine !! restaurant = None ->
   restaurant ∉ Object_prototype ->
   cuisine_of restaurant = Request.Cuisine "North Indian") /\
  (restaurant ∈ Object_prototype ->
   cuisine_of restaurant = Request.PrototypeMember restaurant).
Proof.
  unfold cuisine_of. split; [| split].
  - intros c H. rewrite H. destruct (cuisine_in_table _ _ H) as [Hc Hn].
    split; [| assumption].
    destruct (String.eqb_spec c ""); [contradiction | reflexivity].
  - intros H Hp. rewrite H, bool_decide_eq_false_2 by assumption. reflexivity.
  - intros Hp. rewrite (prototype_not_in_table _ Hp).
    rewrite bool_decide_eq_true_2 by assumption. reflexivity.
Qed.

End PayloadFacts.
